(** * Solar car-port model: the placement geometry of [src/main.js]

    The script builds a three.js scene.  What is verified here is the part
    that computes where things go: [createStructure] (columns, rafters, roof
    sheets and the instanced solar panels of one portal frame) and
    [generateParking] (bay dividers and randomly parked vehicles).

    Numbers.  A JavaScript number is modelled as a mathematical real:
    [Math.atan], [Math.sin], [Math.cos], [Math.sqrt], [Math.abs] and
    [Math.PI] are [atan], [sin], [cos], [sqrt], [Rabs] and [PI];
    [Math.floor] and [Math.ceil] are [Zfloor] and [Zceil].  Rounding,
    overflow, NaN and the infinities are not modelled there, so a quotient
    is meaningful only where its divisor is not zero.  Positions are stated
    in that arithmetic.

    Loop bounds.  A [floor] or a [ceil] of a quotient can change with the
    last bit of the quotient, so the three loop bounds of the script
    ([colCount], [numBays], [numCoachBays]) are also given as the script
    computes them, in IEEE 754 binary64 ([Double], on the specification of
    the Standard Library), and [createStructure64] and [generateParking64]
    are the two generators with those bounds.

    Randomness.  [Math.random] is a sequence of numbers with a cursor; the
    numbers three.js itself takes from it for the uuids of the objects it
    constructs are left out (see [Random]).

    Scene graph.  A [THREE.Group] is the list of the children added to it,
    in insertion order.  Materials are kept as their colour, geometries as
    their box dimensions; shadow flags and textures are dropped. *)

From Stdlib Require Import Reals Lra Lia ZArith.
From Stdlib Require Import Floats.SpecFloat.
From stdpp Require Import base list.

Local Open Scope R_scope.

(** ** The part of three.js the generators use *)

Module THREE.

Record Vector3 := mkVector3 { x : R; y : R; z : R }.

(** [mesh.rotation]: Euler angles, set one component at a time. *)
Record Euler := mkEuler { rot_x : R; rot_y : R; rot_z : R }.

(** [new THREE.BoxGeometry(width, height, depth)]: extents along the
    local X, Y and Z axes, centred on the origin. *)
Record BoxGeometry := mkBox { width : R; height : R; depth : R }.

(** [dummy.updateMatrix()] composes the local matrix from the position
    and the rotation of the object (its scale stays 1): the matrix is
    kept as that pair. *)
Record Matrix4 := compose { m_position : Vector3; m_rotation : Euler }.

Definition identity : Matrix4 := compose (mkVector3 0 0 0) (mkEuler 0 0 0).

Definition dot (a b : Vector3) : R := x a * x b + y a * y b + z a * z b.

Definition cross (a b : Vector3) : Vector3 :=
  mkVector3 (y a * z b - z a * y b)
            (z a * x b - x a * z b)
            (x a * y b - y a * x b).

(** [v.applyAxisAngle(axis, angle)]: rotation of [v] by [angle] about the
    unit vector [axis] (three.js goes through a quaternion; this is the
    rotation it denotes, in Rodrigues' form). *)
Definition applyAxisAngle (v axis : Vector3) (angle : R) : Vector3 :=
  let c := cos angle in
  let s := sin angle in
  let k := dot axis v * (1 - c) in
  let w := cross axis v in
  mkVector3 (x v * c + x w * s + x axis * k)
            (y v * c + y w * s + y axis * k)
            (z v * c + z w * s + z axis * k).

End THREE.

Import THREE.

(** ** Binary64 numbers

    The numbers of the script as it holds them: IEEE 754 binary64, with the
    operations of [SpecFloat] at precision 53 and maximal exponent 1024. *)

Module Double.

Definition prec : Z := 53.
Definition emax : Z := 1024.

Definition t : Type := spec_float.

(** An integer as a number (exact up to [2 ^ 53]). *)
Definition of_Z (n : Z) : t := binary_normalize prec emax n 0 false.

(** [a * b], [a / b], [a + b], [a - b], rounded to nearest, ties to even. *)
Definition mul : t -> t -> t := SFmul prec emax.
Definition div : t -> t -> t := SFdiv prec emax.
Definition add : t -> t -> t := SFadd prec emax.
Definition sub : t -> t -> t := SFsub prec emax.

(** The integer part, towards minus infinity, of [(-1)^s * m * 2^e]. *)
Definition floorZ (s : bool) (m : positive) (e : Z) : Z :=
  let n := cond_Zopp s (Zpos m) in
  if (0 <=? e)%Z then (n * 2 ^ e)%Z else (n / 2 ^ (- e))%Z.

(** [Math.floor(x)]: NaN, the infinities and the zeros are returned as
    they are; a result of zero keeps the sign of [x]. *)
Definition Math_floor (x : t) : t :=
  match x with
  | S754_finite s m e =>
      if (0 <=? e)%Z then x
      else let n := floorZ s m e in
           if (n =? 0)%Z then S754_zero s else of_Z n
  | _ => x
  end.

(** [Math.ceil(x)] *)
Definition Math_ceil (x : t) : t := SFopp (Math_floor (SFopp x)).

(** The decimal literal [n / 10 ^ k] as the script reads it: the quotient of
    two integers below [2 ^ 53], which are exact, is rounded once, to the
    nearest number. *)
Definition decimal (n : Z) (k : nat) : t :=
  div (of_Z n) (of_Z (10 ^ Z.of_nat k)).

(** [Math.PI]: 3.141592653589793 *)
Definition Math_PI : t := S754_finite false 7074237752028440 (-51).

(** The number of passes of [for (let i = 0; i < n; i++)]: none when [n]
    is NaN, a zero or negative, the least integer that is not below [n]
    otherwise; with [n = +Infinity] the loop does not end. *)
Definition passes (n : t) : option nat :=
  match n with
  | S754_finite false m e => Some (Z.to_nat (- floorZ true m e))
  | S754_infinity false => None
  | _ => Some 0%nat
  end.

(** The real number a binary64 number stands for (0 for NaN and the
    infinities, which stand for none). *)
Definition to_R (x : t) : R :=
  match x with
  | S754_finite s m e =>
      if (0 <=? e)%Z then IZR (cond_Zopp s (Zpos m) * 2 ^ e)
      else IZR (cond_Zopp s (Zpos m)) / IZR (2 ^ (- e))
  | _ => 0
  end.

(** [d] is a binary64 number within half a unit in the last place of the
    real [r]: what a decimal literal [r] of the script is read as. *)
Definition near (d : t) (r : R) : Prop :=
  valid_binary prec emax d = true
  /\ match d with
     | S754_finite _ _ _ | S754_zero _ => True
     | _ => False
     end
  /\ Rabs (to_R d - r) * IZR (2 ^ 53) <= Rabs r.

End Double.

(** ** Scene objects *)

(** The source variable an object was built in.  [generateParking] reuses
    [lLine] and [car] for different things: the coach divider is [coachLine]
    here, and the two car branches are [carLeft] ("Left Row Car") and
    [carRight] ("Right Row Car"). *)
Inductive Name :=
| colL | colR | rafterL | rafterR | roofL | roofR | solarInst
| lLine | rLine | carLeft | carRight | coachLine | coach.

#[global] Instance Name_eq_dec : EqDecision Name.
Proof. solve_decision. Defined.

Inductive Shape :=
| BoxMesh (geometry : BoxGeometry) (color : Z)
    (** [new THREE.Mesh(new THREE.BoxGeometry(..), material)] *)
| InstancedMesh (geometry : BoxGeometry) (count : nat)
    (instanceMatrix : list Matrix4)
    (** [new THREE.InstancedMesh(geometry, material, count)] *)
| CarStructure (color : Z)     (** [createCarStructure(color)] *)
| CoachStructure (color : Z).  (** [createCoachStructure(color)] *)

Record Object3D := mkObject
  { name : Name; shape : Shape; position : Vector3; rotation : Euler }.

Record Group := mkGroup
  { children : list Object3D; group_position : Vector3 }.

(** [group.add(o)] *)
Definition add (o : Object3D) (group : list Object3D) : list Object3D :=
  group ++ [o].

(** [for (let i = 0; i < n; i++) body]: the body is a state transformer,
    run for [i = 0, 1, .., n-1] in that order. *)
Definition for_ {S : Type} (n : nat) (body : nat -> S -> S) (s : S) : S :=
  fold_left (fun s i => body i s) (seq 0 n) s.

(** ** Configuration *)

Module Structure.
Record t := mk
  { length : R; width : R; columnSpacing : R;
    eavesHeight : R; ridgeHeight : R;
    rafterColor : Z; roofSheetColor : Z }.
End Structure.

Module Car.
(** [colors] may be absent: the source tests it ([colors ? .. : ..]). *)
Record t := mk
  { width : R; length : R; angle : R; aisleWidth : R;
    lineColor : Z; lineWidth : R; rows : nat;
    colors : option (list Z) }.
End Car.

Module Coach.
Record t := mk
  { width : R; length : R; angle : R;
    lineColor : Z; lineWidth : R; rows : nat;
    colors : list Z }.
End Coach.

Module Solar.
(** [rowsPerSlope] and [panelsPerRow] are loop bounds and an instance
    count: natural numbers. *)
Record t := mk
  { width : R; length : R; rowsPerSlope : nat; panelsPerRow : nat;
    gapX : R; gapY : R; color : Z; frameColor : Z }.
End Solar.

(** [CONFIG.parking]; its [coach] field is [coach_] here, [coach] being the
    coach object of [generateParking]. *)
Record Parking := mkParking { car : Car.t; coach_ : Coach.t }.

Record Config := mkConfig
  { structure : Structure.t; parking : Parking; solar : Solar.t }.

(** The [CONFIG] literal of the script ([vehicles] is never read). *)
Definition CONFIG : Config :=
  {| structure :=
       Structure.mk 96 12 6 5 5.9 0x1a1a1a%Z 0x222222%Z;
     parking :=
       {| car := Car.mk 2.4 4.8 45 3.5 0xffffff%Z 0.1 2
                   (Some [0x444444%Z]);
          coach_ := Coach.mk 3.5 12 30 0xffffff%Z 0.15 1 [0x444444%Z] |};
     solar := Solar.mk 1.134 1.762 3 83 0.03 0.05 0x1e365c%Z 0x888888%Z |}.

(** ** [createStructure] *)

Section CreateStructure.

Variable cfg : Config.

(** The derived dimensions, as the [const] bindings at the top of the
    function. *)
Definition halfSpan : R := Structure.width (structure cfg) / 2.
Definition height : R := Structure.eavesHeight (structure cfg).
Definition rise : R := Structure.ridgeHeight (structure cfg) - height.
Definition pitchRad : R := atan (rise / halfSpan).
Definition slopeLen : R := sqrt (rise * rise + halfSpan * halfSpan).
Definition rafterLen : R := slopeLen + 0.5.

Definition colCount : Z :=
  (Zceil (Structure.length (structure cfg)
          / Structure.columnSpacing (structure cfg)) + 1)%Z.

(** One pass of the column loop. *)
Definition columnTick (i : nat) (group : list Object3D) : list Object3D :=
  let colGeo := mkBox 0.2 height 0.2 in
  let colMat := Structure.rafterColor (structure cfg) in
  let z := INR i * Structure.columnSpacing (structure cfg)
           - Structure.length (structure cfg) / 2 in
  let group :=
    add (mkObject colL (BoxMesh colGeo colMat)
           (mkVector3 (- Structure.width (structure cfg) / 2) (height / 2) z)
           (mkEuler 0 0 0)) group in
  let group :=
    add (mkObject colR (BoxMesh colGeo colMat)
           (mkVector3 (Structure.width (structure cfg) / 2) (height / 2) z)
           (mkEuler 0 0 0)) group in
  let rafterWingGeo := mkBox rafterLen 0.3 0.15 in
  let group :=
    add (mkObject rafterL (BoxMesh rafterWingGeo colMat)
           (mkVector3 (- halfSpan / 2) (height + rise / 2) z)
           (mkEuler 0 0 pitchRad)) group in
  add (mkObject rafterR (BoxMesh rafterWingGeo colMat)
         (mkVector3 (halfSpan / 2) (height + rise / 2) z)
         (mkEuler 0 0 (- pitchRad))) group.

(** The two offsets of a panel in the plane of its slope. *)
Definition xOffset (row : nat) : R :=
  (INR row * (Solar.length (solar cfg) + Solar.gapY (solar cfg)))
  - ((INR (Solar.rowsPerSlope (solar cfg)) * Solar.length (solar cfg)) / 2)
  + (Solar.length (solar cfg) / 2).

Definition zOffset (col : nat) : R :=
  (INR col * (Solar.width (solar cfg) + Solar.gapX (solar cfg)))
  - ((INR (Solar.panelsPerRow (solar cfg)) * Solar.width (solar cfg)) / 2).

(** Body of the left-slope loop: the matrix of [dummy] after
    [updateMatrix]. *)
Definition leftPanel (row col : nat) : Matrix4 :=
  let cx := - halfSpan / 2 in
  let cy := height + rise / 2 + 0.2 in
  let cz := 0 in
  let vec := mkVector3 (xOffset row) 0.05 (zOffset col) in
  let vec := applyAxisAngle vec (mkVector3 0 0 1) pitchRad in
  compose (mkVector3 (cx + x vec) (cy + y vec) (cz + z vec))
          (mkEuler 0 0 pitchRad).

(** Body of the right-slope loop. *)
Definition rightPanel (row col : nat) : Matrix4 :=
  let cx := halfSpan / 2 in
  let cy := height + rise / 2 + 0.2 in
  let cz := 0 in
  let pitchRadR := - pitchRad in
  let overhangFix := 0.2 in
  let vec := mkVector3 (- xOffset row) 0.05 (zOffset col) in
  let vec := applyAxisAngle vec (mkVector3 0 0 1) pitchRadR in
  let cxFix := cx + (cos pitchRadR * overhangFix) in
  let cyFix := cy - (sin (Rabs pitchRadR) * overhangFix) in
  compose (mkVector3 (cxFix + x vec) (cyFix + y vec) (cz + z vec))
          (mkEuler 0 0 pitchRadR).

(** [solarInst.setMatrixAt(pIdx++, dummy.matrix)]: the state of the two
    panel loops is the matrix array of the instanced mesh and [pIdx].  A
    write past the end of the array is dropped, as it is on the typed
    array behind [instanceMatrix]. *)
Definition setMatrixAt (m : Matrix4) (st : list Matrix4 * nat)
  : list Matrix4 * nat :=
  (<[ st.2 := m ]> st.1, S st.2).

Definition slopeLoop (panel : nat -> nat -> Matrix4)
    (st : list Matrix4 * nat) : list Matrix4 * nat :=
  for_ (Solar.rowsPerSlope (solar cfg)) (fun row st =>
    for_ (Solar.panelsPerRow (solar cfg)) (fun col st =>
      setMatrixAt (panel row col) st) st) st.

Definition totalPanels : nat :=
  (Solar.panelsPerRow (solar cfg) * Solar.rowsPerSlope (solar cfg) * 2)%nat.

(** The function for a given number of passes of the column loop. *)
Definition createStructureOf (nTicks : nat) (offsetX offsetY : R) : Group :=
  let group := [] in
  (* 1. Columns (RSJs) *)
  let group := for_ nTicks columnTick group in
  (* 2. Roof Sheet *)
  let roofLen := Structure.length (structure cfg) + 1 in
  let roofGeo := mkBox rafterLen 0.05 roofLen in
  let roofMat := Structure.roofSheetColor (structure cfg) in
  let group :=
    add (mkObject roofL (BoxMesh roofGeo roofMat)
           (mkVector3 (- halfSpan / 2) (height + rise / 2 + 0.15) 0)
           (mkEuler 0 0 pitchRad)) group in
  let group :=
    add (mkObject roofR (BoxMesh roofGeo roofMat)
           (mkVector3 (halfSpan / 2) (height + rise / 2 + 0.15) 0)
           (mkEuler 0 0 (- pitchRad))) group in
  (* 3. Solar Panels (InstancedMesh) *)
  let panelMeshGeo :=
    mkBox (Solar.length (solar cfg)) 0.04 (Solar.width (solar cfg)) in
  let st := (replicate totalPanels identity, 0%nat) in
  let st := slopeLoop leftPanel st in
  let st := slopeLoop rightPanel st in
  let group :=
    add (mkObject solarInst (InstancedMesh panelMeshGeo totalPanels st.1)
           (mkVector3 0 0 0) (mkEuler 0 0 0)) group in
  mkGroup group (mkVector3 offsetX offsetY 0).

(** The function, with [colCount] in the arithmetic of the reals. *)
Definition createStructure (offsetX offsetY : R) : Group :=
  createStructureOf (Z.to_nat colCount) offsetX offsetY.

End CreateStructure.

(** ** Exceptions and the ambient random generator

    [generateParking] calls [Math.random()], the generator of the page, and
    indexes a colour table with the result: it reads and advances a state
    it is not given, and the lookup [colors[k].color] throws a [TypeError]
    when [colors[k]] is undefined.  Both are explicit here: a computation
    takes the state of the generator and returns either a value with the
    new state, or the exception. *)

Inductive Exn := TypeError.

Inductive Result (A : Type) :=
| Ok (a : A)
| Throw (e : Exn).
Arguments Ok {A} a.
Arguments Throw {A} e.

(** The generator: the sequence of numbers it is going to return and how
    many of them were taken.

    The script is not the only reader of [Math.random]: three.js names
    every object, geometry and material it constructs with a uuid made of
    four numbers of the same generator.  Those reads are not modelled:
    [cursor] counts the reads of the script alone.  So nothing stated below
    says which number of the sequence a trial reads or how many numbers a
    run takes; what is stated holds for the sequence as a whole, or for
    positions that exist in the order of the loops. *)
Record Random := mkRandom { draws : nat -> R; cursor : nat }.

Definition JS (A : Type) : Type := Random -> Result (A * Random).

Definition ret {A} (a : A) : JS A := fun g => Ok (a, g).

Definition throw {A} (e : Exn) : JS A := fun _ => Throw e.

Definition bind {A B} (m : JS A) (k : A -> JS B) : JS B :=
  fun g => match m g with
           | Ok (a, g') => k a g'
           | Throw e => Throw e
           end.

Notation "'let*' x ':=' m 'in' k" := (bind m (fun x => k))
  (at level 10, x name, m at level 100, k at level 200).

(** [Math.random()] *)
Definition Math_random : JS R :=
  fun g => Ok (draws g (cursor g), mkRandom (draws g) (S (cursor g))).

(** [for (let i = ..; ..; i++) body] with a body that draws or throws: the
    indices are visited in order, and an exception ends the loop. *)
Fixpoint forEach {S : Type} (idx : list nat) (body : nat -> S -> JS S)
    (s : S) : JS S :=
  match idx with
  | [] => ret s
  | i :: idx' => let* s' := body i s in forEach idx' body s'
  end.

Definition forM {S : Type} (n : nat) (body : nat -> S -> JS S) (s : S)
  : JS S :=
  forEach (seq 0 n) body s.

(** [colors[k].color] for an integer [k]: outside the array the element is
    undefined and reading its [color] throws. *)
Definition colorAt (colors : list Z) (k : Z) : JS Z :=
  match (if (k <? 0)%Z then None else colors !! Z.to_nat k) with
  | Some c => ret c
  | None => throw TypeError
  end.

(** [colors[Math.floor(Math.random() * colors.length)].color] *)
Definition randomColor (colors : list Z) : JS Z :=
  let* r := Math_random in
  colorAt colors (Zfloor (r * INR (length colors))).

(** ** [generateParking] *)

Section GenerateParking.

Variable cfg : Config.

(* --- Car Port (Port 1, Center X = -6) --- *)
Definition bayW : R := Car.width (car (parking cfg)).
Definition bayL : R := Car.length (car (parking cfg)).
Definition angleRad : R := Car.angle (car (parking cfg)) * (PI / 180).
Definition zSpacing : R := bayW / sin angleRad.
Definition numBays : Z :=
  (Zfloor (Structure.length (structure cfg) / zSpacing) - 1)%Z.
Definition startZ : R := - (Structure.length (structure cfg) / 2) + 2.
Definition port1Center : R := - 6.0.

(** [createBoxLine(x, z, len, rotY)]; it closes over the line width and the
    line material of the car class. *)
Definition createBoxLine (nm : Name) (x z len rotY : R) : Object3D :=
  mkObject nm
    (BoxMesh (mkBox (Car.lineWidth (car (parking cfg))) 0.02 len)
       (Car.lineColor (car (parking cfg))))
    (mkVector3 x 0.02 z) (mkEuler 0 rotY 0).

(** [mesh.material = m] *)
Definition setMaterial (m : Z) (o : Object3D) : Object3D :=
  match shape o with
  | BoxMesh g _ => mkObject (name o) (BoxMesh g m) (position o) (rotation o)
  | _ => o
  end.

(** [colors ? colors[..].color : 0x444444] *)
Definition chosenCarColor : JS Z :=
  match Car.colors (car (parking cfg)) with
  | Some colors => randomColor colors
  | None => ret 0x444444%Z
  end.

(** One pass of the car loop. *)
Definition carBay (i : nat) (group : list Object3D) : JS (list Object3D) :=
  let z := startZ + (INR i * zSpacing) in
  (* ROW 1 (Left Side of Port 1) *)
  let aisleX_L := port1Center - 1.5 in
  let lineLen := bayL in
  let rotL := PI / 4 in
  let group :=
    add (createBoxLine lLine
           (aisleX_L - (sin rotL * lineLen / 2))
           (z + (cos rotL * lineLen / 2))
           lineLen rotL) group in
  (* Row 2 (Right Side of Port 1) *)
  let aisleX_R := port1Center + 1.5 in
  let rotR := - PI / 4 in
  let group :=
    add (createBoxLine rLine
           (aisleX_R + (sin (Rabs rotR) * lineLen / 2))
           (z + (cos (Rabs rotR) * lineLen / 2))
           lineLen rotR) group in
  (* --- Add Cars (Randomly) --- *)
  let* r := Math_random in
  let* group :=
    (if Rgt_dec r 0.3 then
       let* chosen := chosenCarColor in
       let carZ := z + (zSpacing / 2) in
       let carDist := 2.4 in
       let xL := aisleX_L - (sin rotL * carDist) in
       let zL := carZ + (cos rotL * carDist) in
       ret (add (mkObject carLeft (CarStructure chosen)
                   (mkVector3 xL 0.02 zL) (mkEuler 0 (rotL + PI) 0)) group)
     else ret group) in
  let* r := Math_random in
  if Rgt_dec r 0.3 then
    let* chosen := chosenCarColor in
    let carDist := 2.4 in
    let carZ := z + (zSpacing / 2) in
    let xR := aisleX_R + (sin (Rabs rotR) * carDist) in
    let zR := carZ + (cos (Rabs rotR) * carDist) in
    ret (add (mkObject carRight (CarStructure chosen)
                (mkVector3 xR 0.02 zR) (mkEuler 0 (rotR + PI) 0)) group)
  else ret group.

(* --- Coach Port (Port 2, Center X = 6) --- *)
Definition coachW : R := Coach.width (coach_ (parking cfg)).
Definition coachL : R := Coach.length (coach_ (parking cfg)).
Definition coachAngle : R := Coach.angle (coach_ (parking cfg)) * (PI / 180).
Definition coachZSpacing : R := coachW / sin coachAngle.
Definition numCoachBays : Z :=
  Zfloor ((Structure.length (structure cfg) - 10) / coachZSpacing).
Definition coachStartZ : R := - (Structure.length (structure cfg) / 2) + 10.
Definition port2Center : R := 6.0.

(** One pass of the coach loop. *)
Definition coachBay (i : nat) (group : list Object3D) : JS (list Object3D) :=
  let z := coachStartZ + (INR i * coachZSpacing) in
  let aisleX := port2Center - 3.0 in
  let lineLen := coachL in
  let rot := - coachAngle in
  let group :=
    add (setMaterial (Coach.lineColor (coach_ (parking cfg)))
           (createBoxLine coachLine
              (aisleX + (sin (Rabs rot) * lineLen / 2))
              (z + (cos (Rabs rot) * lineLen / 2))
              lineLen rot)) group in
  let* r := Math_random in
  if Rgt_dec r 0.4 then
    let* chosen := randomColor (Coach.colors (coach_ (parking cfg))) in
    let centerX := aisleX + (sin (Rabs rot) * lineLen / 2)
                   + (cos (Rabs rot) * coachW / 2) in
    let centerZ := z + (cos (Rabs rot) * lineLen / 2)
                   - (sin (Rabs rot) * coachW / 2) in
    ret (add (mkObject coach (CoachStructure chosen)
                (mkVector3 centerX 0.02 centerZ) (mkEuler 0 (rot + PI) 0))
           group)
  else ret group.

(** The function: it has no parameter, reads the configuration and the
    ambient generator, and returns the group it filled.  What the source
    computes and never uses ([bayDepth], [createLine], [cX_L], [cZ_L]) is
    left out. *)
Definition generateParkingOf (carPasses coachPasses : nat)
  : JS (list Object3D) :=
  let group := [] in
  let* group := forM carPasses carBay group in
  let* group := forM coachPasses coachBay group in
  ret group.

(** The function, with [numBays] and [numCoachBays] in the arithmetic of
    the reals. *)
Definition generateParking : JS (list Object3D) :=
  generateParkingOf (Z.to_nat numBays) (Z.to_nat numCoachBays).

End GenerateParking.

(** ** The loop bounds in binary64 *)

(** The numbers of [CONFIG] the three loop bounds are computed from, as the
    script holds them. *)
Record Bounds64 := mkBounds64
  { length64 : Double.t; columnSpacing64 : Double.t;
    carWidth64 : Double.t; carAngle64 : Double.t;
    coachWidth64 : Double.t; coachAngle64 : Double.t }.

(** They are the binary64 readings of the numbers of a configuration. *)
Definition denotes (b : Bounds64) (cfg : Config) : Prop :=
  Double.near (length64 b) (Structure.length (structure cfg))
  /\ Double.near (columnSpacing64 b) (Structure.columnSpacing (structure cfg))
  /\ Double.near (carWidth64 b) (Car.width (car (parking cfg)))
  /\ Double.near (carAngle64 b) (Car.angle (car (parking cfg)))
  /\ Double.near (coachWidth64 b) (Coach.width (coach_ (parking cfg)))
  /\ Double.near (coachAngle64 b) (Coach.angle (coach_ (parking cfg))).

Section LoopBounds.

(** [Math.sin]: ECMAScript leaves its accuracy to the engine, so it is a
    parameter. *)
Variable Math_sin : Double.t -> Double.t.

Variable b : Bounds64.

(** [Math.ceil(CONFIG.structure.length / CONFIG.structure.columnSpacing)
    + 1] *)
Definition colCount64 : Double.t :=
  Double.add (Double.Math_ceil (Double.div (length64 b) (columnSpacing64 b)))
    (Double.of_Z 1).

(** [angle * (Math.PI / 180)] *)
Definition toRadians64 (angle : Double.t) : Double.t :=
  Double.mul angle (Double.div Double.Math_PI (Double.of_Z 180)).

Definition zSpacing64 : Double.t :=
  Double.div (carWidth64 b) (Math_sin (toRadians64 (carAngle64 b))).

(** [Math.floor(CONFIG.structure.length / zSpacing) - 1] *)
Definition numBays64 : Double.t :=
  Double.sub (Double.Math_floor (Double.div (length64 b) zSpacing64))
    (Double.of_Z 1).

Definition coachZSpacing64 : Double.t :=
  Double.div (coachWidth64 b) (Math_sin (toRadians64 (coachAngle64 b))).

(** [Math.floor((CONFIG.structure.length - 10) / coachZSpacing)] *)
Definition numCoachBays64 : Double.t :=
  Double.Math_floor
    (Double.div (Double.sub (length64 b) (Double.of_Z 10)) coachZSpacing64).

(** [createStructure] with its loop bound as the script computes it; there
    is no group when the bound is [+Infinity]. *)
Definition createStructure64 (cfg : Config) (offsetX offsetY : R)
  : option Group :=
  match Double.passes colCount64 with
  | Some n => Some (createStructureOf cfg n offsetX offsetY)
  | None => None
  end.

(** [generateParking] with its loop bounds as the script computes them; it
    returns no group when a bound is [+Infinity]. *)
Definition generateParking64 (cfg : Config) : option (JS (list Object3D)) :=
  match Double.passes numBays64, Double.passes numCoachBays64 with
  | Some nb, Some nc => Some (generateParkingOf cfg nb nc)
  | _, _ => None
  end.

End LoopBounds.

(** * Vocabulary of the properties *)

(** ** Column ticks *)

Section ColumnTicks.

Variable cfg : Config.

(** What one pass adds to the group. *)
Definition tick (i : nat) : list Object3D := columnTick cfg i [].

(** The position of the tick [i] along the length axis. *)
Definition tickZ (i : nat) : R :=
  INR i * Structure.columnSpacing (structure cfg)
  - Structure.length (structure cfg) / 2.

End ColumnTicks.

(** The children of a given name. *)
Definition named (nm : Name) (l : list Object3D) : list Object3D :=
  filter (fun o => name o = nm) l.

(** ** Panels of a slope *)

Section SlopePanels.

Variable cfg : Config.

Local Abbreviation rows := (Solar.rowsPerSlope (solar cfg)).
Local Abbreviation cols := (Solar.panelsPerRow (solar cfg)).

(** The matrices one slope loop writes, in the order it writes them. *)
Definition slopePanels (panel : nat -> nat -> Matrix4) : list Matrix4 :=
  flat_map (fun row => map (panel row) (seq 0 cols)) (seq 0 rows).

End SlopePanels.

(** The last three children of the group of [createStructure]: the two
    roof sheets, then the instanced mesh holding the panels of the left
    slope followed by those of the right slope. *)
Definition roofAndPanels (cfg : Config) (l : list Object3D) : Prop :=
  exists r1 r2 geo,
    l = [r1; r2;
         mkObject solarInst
           (InstancedMesh geo (totalPanels cfg)
              (slopePanels cfg (leftPanel cfg)
               ++ slopePanels cfg (rightPanel cfg)))
           (mkVector3 0 0 0) (mkEuler 0 0 0)]
    /\ name r1 = roofL /\ name r2 = roofR
    /\ (exists g c, shape r1 = BoxMesh g c)
    /\ (exists g c, shape r2 = BoxMesh g c).

(** [Math.hypot(a, b)] *)
Definition hypot (a b : R) : R := sqrt (a * a + b * b).

(** The invariant the specification puts on a structure configuration. *)
Definition validStructure (s : Structure.t) : Prop :=
  0 < Structure.width s /\ 0 < Structure.length s
  /\ 0 < Structure.columnSpacing s
  /\ Structure.eavesHeight s < Structure.ridgeHeight s.

(** ** Objects of a column tick *)

Section TickObjects.

Variable cfg : Config.
Variables offsetX offsetY : R.

Local Abbreviation s := (structure cfg).
Local Abbreviation group := (children (createStructure cfg offsetX offsetY)).
Local Abbreviation ticks := (seq 0 (Z.to_nat (colCount cfg))).

Definition colLAt (i : nat) : Object3D :=
  mkObject colL (BoxMesh (mkBox 0.2 (height cfg) 0.2) (Structure.rafterColor s))
    (mkVector3 (- Structure.width s / 2) (height cfg / 2) (tickZ cfg i))
    (mkEuler 0 0 0).

Definition colRAt (i : nat) : Object3D :=
  mkObject colR (BoxMesh (mkBox 0.2 (height cfg) 0.2) (Structure.rafterColor s))
    (mkVector3 (Structure.width s / 2) (height cfg / 2) (tickZ cfg i))
    (mkEuler 0 0 0).

Definition rafterLAt (i : nat) : Object3D :=
  mkObject rafterL
    (BoxMesh (mkBox (rafterLen cfg) 0.3 0.15) (Structure.rafterColor s))
    (mkVector3 (- halfSpan cfg / 2) (height cfg + rise cfg / 2) (tickZ cfg i))
    (mkEuler 0 0 (pitchRad cfg)).

Definition rafterRAt (i : nat) : Object3D :=
  mkObject rafterR
    (BoxMesh (mkBox (rafterLen cfg) 0.3 0.15) (Structure.rafterColor s))
    (mkVector3 (halfSpan cfg / 2) (height cfg + rise cfg / 2) (tickZ cfg i))
    (mkEuler 0 0 (- pitchRad cfg)).

End TickObjects.

(** Equality of reals is decidable (classically): it is used to pick the
    objects at a given coordinate. *)
#[global] Instance R_eq_dec : EqDecision R := Req_dec_T.

(** ** Instances, vectors and means *)

(** The instance matrices, and the instance counts, of the instanced meshes
    of a group. *)
Definition instanceMatrices (l : list Object3D) : list Matrix4 :=
  flat_map (fun o => match shape o with
                     | InstancedMesh _ _ ms => ms
                     | _ => []
                     end) l.

Definition instanceCounts (l : list Object3D) : list nat :=
  flat_map (fun o => match shape o with
                     | InstancedMesh _ n _ => [n]
                     | _ => []
                     end) l.

(** The matrix the instanced mesh holds for the panel [(row, col)] of the
    left slope, and of the right slope: the loops write the left slope
    first, a slope row after row, at [pIdx = 0, 1, ..]. *)
Definition leftMatrix (cfg : Config) (l : list Object3D) (row col : nat)
  : option Matrix4 :=
  instanceMatrices l !! (row * Solar.panelsPerRow (solar cfg) + col)%nat.

Definition rightMatrix (cfg : Config) (l : list Object3D) (row col : nat)
  : option Matrix4 :=
  instanceMatrices l
  !! (Solar.rowsPerSlope (solar cfg) * Solar.panelsPerRow (solar cfg)
      + (row * Solar.panelsPerRow (solar cfg) + col))%nat.

(** Sum of two vectors. *)
Definition vadd (a b : Vector3) : Vector3 :=
  mkVector3 (x a + x b) (y a + y b) (z a + z b).

(** Reflection in the plane [x = 0] through the ridge. *)
Definition mirror (a : Vector3) : Vector3 := mkVector3 (- x a) (y a) (z a).

(** Sum and arithmetic mean of a list of numbers. *)
Definition sumR (l : list R) : R := fold_right Rplus 0 l.

Definition mean (l : list R) : R := sumR l / INR (length l).

(** The raw offsets [(xOffset, zOffset)] of the panels of one slope, in the
    order of the loops. *)
Definition slopeOffsets (cfg : Config) : list (R * R) :=
  flat_map
    (fun row => map (fun col => (xOffset cfg row, zOffset cfg col))
                  (seq 0 (Solar.panelsPerRow (solar cfg))))
    (seq 0 (Solar.rowsPerSlope (solar cfg))).

(** ** Draws *)

(** Two sequences of draws that agree on the [n] draws from [c] on. *)
Definition agree (d1 d2 : nat -> R) (c n : nat) : Prop :=
  forall k, (c <= k < c + n)%nat -> d1 k = d2 k.

(** What a caller can see of a computation started on the draws [d] at
    position [c]: its value and how far it advanced, or its exception. *)
Definition outcome {A : Type} (m : JS A) (d : nat -> R) (c : nat)
  : Result (A * nat) :=
  match m (mkRandom d c) with
  | Ok (a, g') => Ok (a, cursor g')
  | Throw e => Throw e
  end.


(** [takes lo hi m]: the script reads between [lo] and [hi] numbers in [m]
    (the reads of three.js apart), leaves the sequence alone, and depends on
    nothing but the numbers it may read. *)
Record takes {A : Type} (lo hi : nat) (m : JS A) : Prop := mkTakes
  { takes_state : forall g a g',
      m g = Ok (a, g') ->
      draws g' = draws g
      /\ (cursor g + lo <= cursor g' <= cursor g + hi)%nat;
    takes_agree : forall d1 d2 c,
      agree d1 d2 c hi -> outcome m d1 c = outcome m d2 c }.

(** ** Bays *)

(** A vector scaled by a number. *)
Definition vscale (k : R) (a : Vector3) : Vector3 :=
  mkVector3 (k * x a) (k * y a) (k * z a).

Section Bays.

Variable cfg : Config.

(** The objects one pass of the car loop can add, written as the loop
    writes them. *)
Definition lLineAt (i : nat) : Object3D :=
  createBoxLine cfg lLine
    (port1Center - 1.5 - (sin (PI / 4) * bayL cfg / 2))
    (startZ cfg + (INR i * zSpacing cfg) + (cos (PI / 4) * bayL cfg / 2))
    (bayL cfg) (PI / 4).

Definition rLineAt (i : nat) : Object3D :=
  createBoxLine cfg rLine
    (port1Center + 1.5 + (sin (Rabs (- PI / 4)) * bayL cfg / 2))
    (startZ cfg + (INR i * zSpacing cfg)
     + (cos (Rabs (- PI / 4)) * bayL cfg / 2))
    (bayL cfg) (- PI / 4).

Definition carLeftAt (i : nat) (chosen : Z) : Object3D :=
  mkObject carLeft (CarStructure chosen)
    (mkVector3 (port1Center - 1.5 - (sin (PI / 4) * 2.4)) 0.02
       (startZ cfg + (INR i * zSpacing cfg) + (zSpacing cfg / 2)
        + (cos (PI / 4) * 2.4)))
    (mkEuler 0 (PI / 4 + PI) 0).

Definition carRightAt (i : nat) (chosen : Z) : Object3D :=
  mkObject carRight (CarStructure chosen)
    (mkVector3 (port1Center + 1.5 + (sin (Rabs (- PI / 4)) * 2.4)) 0.02
       (startZ cfg + (INR i * zSpacing cfg) + (zSpacing cfg / 2)
        + (cos (Rabs (- PI / 4)) * 2.4)))
    (mkEuler 0 (- PI / 4 + PI) 0).

(** The objects one pass of the coach loop can add. *)
Definition coachLineAt (i : nat) : Object3D :=
  setMaterial (Coach.lineColor (coach_ (parking cfg)))
    (createBoxLine cfg coachLine
       (port2Center - 3.0 + (sin (Rabs (- coachAngle cfg)) * coachL cfg / 2))
       (coachStartZ cfg + (INR i * coachZSpacing cfg)
        + (cos (Rabs (- coachAngle cfg)) * coachL cfg / 2))
       (coachL cfg) (- coachAngle cfg)).

Definition coachAt (i : nat) (chosen : Z) : Object3D :=
  mkObject coach (CoachStructure chosen)
    (mkVector3
       (port2Center - 3.0 + (sin (Rabs (- coachAngle cfg)) * coachL cfg / 2)
        + (cos (Rabs (- coachAngle cfg)) * coachW cfg / 2))
       0.02
       (coachStartZ cfg + (INR i * coachZSpacing cfg)
        + (cos (Rabs (- coachAngle cfg)) * coachL cfg / 2)
        - (sin (Rabs (- coachAngle cfg)) * coachW cfg / 2)))
    (mkEuler 0 (- coachAngle cfg + PI) 0).

(** What a pass leaves in the group: the two dividers, then at most one car
    per row. *)
Definition carBayShape (i : nat) (b : list Object3D) : Prop :=
  exists vsL vsR,
    b = [lLineAt i; rLineAt i] ++ vsL ++ vsR
    /\ (vsL = [] \/ exists c, vsL = [carLeftAt i c])
    /\ (vsR = [] \/ exists c, vsR = [carRightAt i c]).

Definition coachBayShape (i : nat) (b : list Object3D) : Prop :=
  b = [coachLineAt i] \/ exists c, b = [coachLineAt i; coachAt i c].

(** The colour tables the script can index without an exception. *)
Definition colorsPresent : Prop :=
  match Car.colors (car (parking cfg)) with
  | Some colors => colors <> []
  | None => True
  end
  /\ Coach.colors (coach_ (parking cfg)) <> [].

End Bays.

(** [Math.random()] returns numbers in [0, 1). *)
Definition unitDraws (d : nat -> R) : Prop := forall k, 0 <= d k < 1.

(** A group laid out bay after bay. *)
Inductive layout (bay : nat -> list Object3D -> Prop)
  : list nat -> list Object3D -> Prop :=
| layout_nil : layout bay [] []
| layout_cons (i : nat) (idx : list nat) (b rest : list Object3D) :
    bay i b -> layout bay idx rest -> layout bay (i :: idx) (b ++ rest).

(** The invariant the specification puts on the parking classes. *)
Definition validParking (p : Parking) : Prop :=
  0 < Car.width (car p) /\ 0 < Car.angle (car p) < 90
  /\ 0 < Coach.width (coach_ p) /\ 0 < Coach.angle (coach_ p) < 90.

(** A generator that returns 1/2 for ever. *)
Definition halves : Random := mkRandom (fun _ => 1 / 2) 0.

Definition axisZ : Vector3 := mkVector3 0 0 1.


Section Pivots.

Variable cfg : Config.

(** The aisle-side point a divider is hung from, and the unit direction
    from that point to the centre of the divider, per row. *)
Definition pivotL (i : nat) : Vector3 :=
  mkVector3 (port1Center - 1.5) 0.02 (startZ cfg + INR i * zSpacing cfg).

Definition pivotR (i : nat) : Vector3 :=
  mkVector3 (port1Center + 1.5) 0.02 (startZ cfg + INR i * zSpacing cfg).

Definition pivotCoach (i : nat) : Vector3 :=
  mkVector3 (port2Center - 3.0) 0.02
    (coachStartZ cfg + INR i * coachZSpacing cfg).

Definition dirL : Vector3 := mkVector3 (- sin (PI / 4)) 0 (cos (PI / 4)).

Definition dirR : Vector3 := mkVector3 (sin (PI / 4)) 0 (cos (PI / 4)).

Definition dirCoach : Vector3 :=
  mkVector3 (sin (coachAngle cfg)) 0 (cos (coachAngle cfg)).

(** Horizontal unit vector square to [dirCoach]. *)
Definition normalCoach : Vector3 :=
  mkVector3 (cos (coachAngle cfg)) 0 (- sin (coachAngle cfg)).

(** Where the vehicle of a bay goes.  A car: the pivot moved half a bay
    pitch along the aisle, then 2.4 along the direction from the pivot to
    the centre of the divider.  A coach: the pivot moved half the coach
    length along the direction to the centre of the divider, then half the
    coach width along [normalCoach]. *)
Definition anchorL (i : nat) : Vector3 :=
  vadd (vadd (pivotL i) (vscale (zSpacing cfg / 2) axisZ)) (vscale 2.4 dirL).

Definition anchorR (i : nat) : Vector3 :=
  vadd (vadd (pivotR i) (vscale (zSpacing cfg / 2) axisZ)) (vscale 2.4 dirR).

Definition anchorCoach (i : nat) : Vector3 :=
  vadd (vadd (pivotCoach i) (vscale (coachL cfg / 2) dirCoach))
    (vscale (coachW cfg / 2) normalCoach).

End Pivots.

(** A vehicle of a given name stands at a given place of the group. *)
Definition parkedAt (nm : Name) (p : Vector3) (l : list Object3D) : Prop :=
  exists o, o ∈ l /\ name o = nm /\ position o = p.





(** The numbers of [CONFIG] behind the loop bounds, as the script holds
    them. *)
Definition CONFIG64 : Bounds64 :=
  mkBounds64 (Double.of_Z 96) (Double.of_Z 6)
    (Double.decimal 24 1) (Double.of_Z 45)
    (Double.decimal 35 1) (Double.of_Z 30).

(** [Math.sin] at the two angles of the script, as the engines in use
    return it: [Math.sin(45 * (Math.PI / 180))] is 0.7071067811865475 and
    [Math.sin(30 * (Math.PI / 180))] is 0.49999999999999994, the number
    next below 1/2.  No other argument is used here; NaN stands for the
    values that are not given. *)
Definition engineSin (a : Double.t) : Double.t :=
  if SFeqb a (toRadians64 (Double.of_Z 45))
  then S754_finite false 6369051672525772 (-53)
  else if SFeqb a (toRadians64 (Double.of_Z 30))
       then S754_finite false 9007199254740991 (-54)
       else S754_nan.

(** The configuration of the script with a structure 94 long. *)
Definition CONFIG_94 : Config :=
  mkConfig (Structure.mk 94 12 6 5 5.9 0x1a1a1a%Z 0x222222%Z)
    (parking CONFIG) (solar CONFIG).

Definition CONFIG64_94 : Bounds64 :=
  mkBounds64 (Double.of_Z 94) (Double.of_Z 6)
    (Double.decimal 24 1) (Double.of_Z 45)
    (Double.decimal 35 1) (Double.of_Z 30).

(** A structure 4.2 long with a column every 0.6, and one 1.1 long with a
    column every 0.1. *)
Definition CONFIG_4_2 : Config :=
  mkConfig (Structure.mk 4.2 12 0.6 5 5.9 0x1a1a1a%Z 0x222222%Z)
    (parking CONFIG) (solar CONFIG).

Definition CONFIG64_4_2 : Bounds64 :=
  mkBounds64 (Double.decimal 42 1) (Double.decimal 6 1)
    (Double.decimal 24 1) (Double.of_Z 45)
    (Double.decimal 35 1) (Double.of_Z 30).

Definition CONFIG64_1_1 : Bounds64 :=
  mkBounds64 (Double.decimal 11 1) (Double.decimal 1 1)
    (Double.decimal 24 1) (Double.of_Z 45)
    (Double.decimal 35 1) (Double.of_Z 30).

(** * The rest of the script *)

(** ** More of three.js *)

(** [THREE.MathUtils.degToRad(degrees)] *)
Definition degToRad (degrees : R) : R := degrees * (PI / 180).

(** [v.setFromSphericalCoords(radius, phi, theta)] *)
Definition setFromSphericalCoords (radius phi theta : R) : Vector3 :=
  let sinPhiRadius := sin phi * radius in
  mkVector3 (sinPhiRadius * sin theta) (cos phi * radius)
            (sinPhiRadius * cos theta).

(** [v.applyEuler(euler)] in the default order XYZ: the turn about Z is
    applied first, the turn about X last. *)
Definition applyEuler (v : Vector3) (e : Euler) : Vector3 :=
  applyAxisAngle
    (applyAxisAngle (applyAxisAngle v (mkVector3 0 0 1) (rot_z e))
       (mkVector3 0 1 0) (rot_y e))
    (mkVector3 1 0 0) (rot_x e).

(** The geometries of the meshes outside [createStructure] and
    [generateParking]. *)
Inductive Geometry :=
| CylinderGeometry (radiusTop radiusBottom height : R) (radialSegments : nat)
| PlaneGeometry (width height : R)
| DodecahedronGeometry (radius : R)
| BoxGeom (width height depth : R).

(** The source variable such a mesh was built in. *)
Inductive Part :=
| container | gutter
| portsTarmac | contTarmac | pitch | ground | road
| trunk | leaves | post | fenceMesh.

#[global] Instance Part_eq_dec : EqDecision Part.
Proof. solve_decision. Defined.

(** [new THREE.Mesh(geometry, material)] with its position and rotation;
    the material is kept as its colour, white when it only carries a
    texture. *)
Record Mesh := mkMesh
  { part : Part; geometry : Geometry; material : Z;
    mesh_position : Vector3; mesh_rotation : Euler }.

(** A [THREE.Group] of meshes with its own position, rotation and uniform
    scale. *)
Record Placed := mkPlaced
  { parts : list Mesh; placed_position : Vector3;
    placed_rotation : Euler; placed_scale : R }.

(** [new THREE.Group()] after its [add] calls *)
Definition newGroup (children : list Mesh) : Placed :=
  mkPlaced children (mkVector3 0 0 0) (mkEuler 0 0 0) 1.

(** [g.position.set(x, y, z)] *)
Definition setPosition (p : Vector3) (g : Placed) : Placed :=
  mkPlaced (parts g) p (placed_rotation g) (placed_scale g).

(** [g.rotation.y = angle] *)
Definition setRotationY (angle : R) (g : Placed) : Placed :=
  mkPlaced (parts g) (placed_position g)
    (mkEuler (rot_x (placed_rotation g)) angle (rot_z (placed_rotation g)))
    (placed_scale g).

(** [g.scale.setScalar(s)] *)
Definition setScalar (s : R) (g : Placed) : Placed :=
  mkPlaced (parts g) (placed_position g) (placed_rotation g) s.

(** Where a point of the local frame of a group is in the scene: scaled,
    turned, then moved. *)
Definition toWorld (g : Placed) (p : Vector3) : Vector3 :=
  vadd (placed_position g)
    (applyEuler (vscale (placed_scale g) p) (placed_rotation g)).

(** [a > b] and [a < b] as JavaScript booleans. *)
Definition Rgtb (a b : R) : bool := if Rgt_dec a b then true else false.
Definition Rltb (a b : R) : bool := if Rlt_dec a b then true else false.

(** ** Build It: the two ports and the gutter *)

Section BuildIt.

Variable cfg : Config.




(** ** [createContainer] *)

(** [customLength] is [null] when the argument is left out; [a || b] takes
    [b] when [a] is [null] or 0. *)
Definition createContainer (customLength : option R) : Placed :=
  let width := 8 in
  let height := 5 in
  let length :=
    match customLength with
    | Some l => if Req_dec_T l 0 then Structure.length (structure cfg) else l
    | None => Structure.length (structure cfg)
    end in
  newGroup
    [mkMesh container (BoxGeom width height length) 0x111111%Z
       (mkVector3 0 (height / 2) 0) (mkEuler 0 0 0)].

Definition storageContainer : Placed :=
  setPosition (mkVector3 (- 16.0) 0 0) (createContainer None).

Definition smallContainerLength : R := 7.

Definition smallContainer : Placed :=
  setPosition (mkVector3 (- 16.0) 0 53.0)
    (createContainer (Some smallContainerLength)).

End BuildIt.

(** ** [createEnvironment] *)

(** The planes of the ground; the canvas textures, and the noise drawn on
    them, are dropped with the materials. *)
Definition createEnvironment : list Mesh :=
  let group := [] in
  let portsWidth := 26 in
  let portsLength := 100 in
  let group :=
    group ++ [mkMesh portsTarmac (PlaneGeometry portsWidth portsLength)
                0xffffff%Z (mkVector3 1 0.05 0) (mkEuler (- PI / 2) 0 0)] in
  let contWidth := 10 in
  let contLength := 108.5 in
  let group :=
    group ++ [mkMesh contTarmac (PlaneGeometry contWidth contLength)
                0xffffff%Z (mkVector3 (- 17) 0.05 4.25)
                (mkEuler (- PI / 2) 0 0)] in
  let pitchW := 75 in
  let pitchL := 110 in
  let group :=
    group ++ [mkMesh pitch (PlaneGeometry pitchW pitchL) 0xffffff%Z
                (mkVector3 (- 56.5) 0.06 0) (mkEuler (- PI / 2) 0 0)] in
  let group :=
    group ++ [mkMesh ground (PlaneGeometry 250 250) 0x3a5f0b%Z
                (mkVector3 (- 40) (- 0.1) 0) (mkEuler (- PI / 2) 0 0)] in
  let roadWidth := 6 in
  let roadLength := 200 in
  group ++ [mkMesh road (PlaneGeometry roadWidth roadLength) 0xffffff%Z
              (mkVector3 20 0.04 0) (mkEuler (- PI / 2) 0 0)].

(** ** Vegetation *)

Definition createTree : Placed :=
  newGroup
    [mkMesh trunk (CylinderGeometry 0.2 0.4 1.5 6) 0x4d2926%Z
       (mkVector3 0 0.75 0) (mkEuler 0 0 0);
     mkMesh leaves (DodecahedronGeometry 1.5) 0x2d4c1e%Z
       (mkVector3 0 2.5 0) (mkEuler 0 0 0)].

(** One pass of the tree loop. *)
Definition treeStep (i : nat) (treeGroup : list Placed) : JS (list Placed) :=
  let tree := createTree in
  let* r := Math_random in
  let x := (r * 150) - 120 in
  let* r := Math_random in
  let z := (r * 160) - 80 in
  let inStructureZone :=
    ((Rgtb x (- 24) && Rltb x 16) && (Rgtb z (- 52) && Rltb z 62))%bool in
  let inPitchZone :=
    ((Rgtb x (- 100) && Rltb x (- 10)) && (Rgtb z (- 70) && Rltb z 70))%bool in
  let inRoadZone :=
    ((Rgtb x 16 && Rltb x 24) && (Rgtb z (- 100) && Rltb z 100))%bool in
  if (negb inStructureZone && negb inPitchZone && negb inRoadZone)%bool then
    let tree := setPosition (mkVector3 x 0 z) tree in
    let* r := Math_random in
    let scale := 0.8 + r * 0.4 in
    let tree := setScalar scale tree in
    let* r := Math_random in
    let tree := setRotationY (r * PI) tree in
    ret (treeGroup ++ [tree])
  else ret treeGroup.

(** The loop that fills [treeGroup]. *)
Definition plantTrees : JS (list Placed) := forM 80 treeStep [].

(** ** Sky and sun *)

(** The uniforms of the sky material the script writes. *)
Record SkyUniforms := mkSkyUniforms
  { turbidity : R; rayleigh : R; mieCoefficient : R; mieDirectionalG : R;
    sunPosition : Vector3 }.

(** What [createSky] and [updateSunPosition] write to. *)
Record Lighting := mkLighting
  { uniforms : SkyUniforms; sunLight_position : Vector3;
    toneMappingExposure : R }.

Definition createSky (s : Lighting) : Lighting :=
  let turbidity_ := 2 in
  let rayleigh_ := 0.5 in
  let mieCoefficient_ := 0.005 in
  let mieDirectionalG_ := 0.7 in
  let elevation := 38 in
  let azimuth := 40 in
  let exposure := 0.9 in
  let phi := degToRad (90 - elevation) in
  let theta := degToRad azimuth in
  let sun := setFromSphericalCoords 1 phi theta in
  mkLighting
    (mkSkyUniforms turbidity_ rayleigh_ mieCoefficient_ mieDirectionalG_ sun)
    (mkVector3 (x sun * 100) (y sun * 100) (z sun * 100))
    exposure.

Definition updateSunPosition (elevation azimuth : R) (s : Lighting)
  : Lighting :=
  let phi := degToRad (90 - elevation) in
  let theta := degToRad azimuth in
  let sunPos := setFromSphericalCoords 1 phi theta in
  mkLighting
    (mkSkyUniforms (turbidity (uniforms s)) (rayleigh (uniforms s))
       (mieCoefficient (uniforms s)) (mieDirectionalG (uniforms s)) sunPos)
    (mkVector3 (x sunPos * 100) (y sunPos * 100) (z sunPos * 100))
    (toneMappingExposure s).

(** ** Fencing *)

Definition createFence (length height : R) : Placed :=
  let group := [] in
  let postSpacing := 3.0 in
  let postCount := (Zfloor (length / postSpacing) + 1)%Z in
  let postGeo := CylinderGeometry 0.05 0.05 height 8 in
  let postMat := 0x555555%Z in
  let group :=
    for_ (Z.to_nat postCount) (fun i group =>
      let x := (INR i * postSpacing) - (length / 2) in
      group ++ [mkMesh post postGeo postMat
                  (mkVector3 x (height / 2) 0) (mkEuler 0 0 0)]) group in
  let group :=
    group ++ [mkMesh fenceMesh (PlaneGeometry length height) 0xaaaaaa%Z
                (mkVector3 0 (height / 2) 0) (mkEuler 0 0 0)] in
  newGroup group.

Definition createSportsPitchFence : list Placed :=
  let group := [] in
  let fenceW := 80 in
  let fenceL := 115 in
  let height := 3.0 in
  let marginX := - 56.5 in
  let north := createFence fenceW height in
  let north := setPosition (mkVector3 marginX 0 (- fenceL / 2)) north in
  let group := group ++ [north] in
  let south := createFence fenceW height in
  let south := setPosition (mkVector3 marginX 0 (fenceL / 2)) south in
  let group := group ++ [south] in
  let west := createFence fenceL height in
  let west := setRotationY (PI / 2) west in
  let west := setPosition (mkVector3 (marginX - fenceW / 2) 0 0) west in
  group ++ [west].

(** ** Vocabulary of the further properties *)

(** Difference of two vectors. *)
Definition vsub (a b : Vector3) : Vector3 :=
  mkVector3 (x a - x b) (y a - y b) (z a - z b).


(** The colour of a vehicle comes from the table of its class, or is the
    fallback 0x444444 of a car class without a table. *)
Definition colourAllowed (cfg : Config) (o : Object3D) : Prop :=
  match shape o with
  | CarStructure c =>
      match Car.colors (car (parking cfg)) with
      | Some colors => c ∈ colors
      | None => c = 0x444444%Z
      end
  | CoachStructure c => c ∈ Coach.colors (coach_ (parking cfg))
  | _ => True
  end.







(** A plane mesh lies over (or under) a point of the scene: some point of
    the plane, turned and moved as the mesh is, has the [x] and [z] of the
    point. *)
Definition covers (m : Mesh) (p : Vector3) : Prop :=
  match geometry m with
  | PlaneGeometry w h =>
      exists u v,
        - (w / 2) <= u <= w / 2 /\ - (h / 2) <= v <= h / 2
        /\ x (vadd (mesh_position m)
                (applyEuler (mkVector3 u v 0) (mesh_rotation m))) = x p
        /\ z (vadd (mesh_position m)
                (applyEuler (mkVector3 u v 0) (mesh_rotation m))) = z p
  | _ => False
  end.

(** The tree the loop adds when its four draws are [r1 .. r4]. *)
Definition treeAt (r1 r2 r3 r4 : R) : Placed :=
  setRotationY (r4 * PI)
    (setScalar (0.8 + r3 * 0.4)
       (setPosition (mkVector3 ((r1 * 150) - 120) 0 ((r2 * 160) - 80))
          createTree)).

(** The three exclusion zones of the tree loop. *)
Definition inStructureZone (x z : R) : Prop :=
  (x > - 24 /\ x < 16) /\ (z > - 52 /\ z < 62).

Definition inPitchZone (x z : R) : Prop :=
  (x > - 100 /\ x < - 10) /\ (z > - 70 /\ z < 70).

Definition inRoadZone (x z : R) : Prop :=
  (x > 16 /\ x < 24) /\ (z > - 100 /\ z < 100).

(** A tree of the group: built from four successive draws, outside the
    three zones. *)
Definition plantedFrom (d : nat -> R) (t : Placed) : Prop :=
  exists k,
    t = treeAt (d k) (d (S k)) (d (S (S k))) (d (S (S (S k))))
    /\ ~ inStructureZone (x (placed_position t)) (z (placed_position t))
    /\ ~ inPitchZone (x (placed_position t)) (z (placed_position t))
    /\ ~ inRoadZone (x (placed_position t)) (z (placed_position t)).

(** The posts of a fence. *)
Definition posts (g : Placed) : list Mesh :=
  filter (fun m => part m = post) (parts g).

(** The post the loop of [createFence] adds in pass [i]. *)
Definition postAt (length height : R) (i : nat) : Mesh :=
  mkMesh post (CylinderGeometry 0.05 0.05 height 8) 0x555555%Z
    (mkVector3 (INR i * 3.0 - length / 2) (height / 2) 0) (mkEuler 0 0 0).

(** Where a mesh of a placed group is in the scene. *)
Definition worldOf (g : Placed) (m : Mesh) : Vector3 :=
  toWorld g (mesh_position m).

(** What lies under (or over) the boxes of a placed group that is moved
    but neither turned nor scaled.  A box reaches half its width and half
    its depth either way from its centre, whatever the signs of the
    numbers it was built from. *)
Definition under (g : Placed) (p : Vector3) : Prop :=
  exists m w h d u t,
    m ∈ parts g /\ geometry m = BoxGeom w h d
    /\ - (Rabs w / 2) <= u <= Rabs w / 2
    /\ - (Rabs d / 2) <= t <= Rabs d / 2
    /\ x (toWorld g (vadd (mesh_position m) (mkVector3 u 0 t))) = x p
    /\ z (toWorld g (vadd (mesh_position m) (mkVector3 u 0 t))) = z p.

(** * Properties *)

(** ** Loops *)

Lemma for_S {S : Type} (n : nat) (body : nat -> S -> S) (s : S) :
  for_ (Datatypes.S n) body s = body n (for_ n body s).
Proof.
  unfold for_. rewrite seq_S, fold_left_app. reflexivity.
Qed.

Lemma for_0 {S : Type} (body : nat -> S -> S) (s : S) : for_ 0 body s = s.
Proof. reflexivity. Qed.

(** ** The definitions at the values of the script *)

(** Turns the [INR] of a numeral into the real numeral. *)
Ltac INR_numerals :=
  rewrite ?INR_IZR_INZ;
  repeat match goal with
         | |- context [Z.of_nat ?n] =>
             let v := eval vm_compute in (Z.of_nat n) in
             change (Z.of_nat n) with v
         end.

Example tickZ_CONFIG : tickZ CONFIG 0 = -48 /\ tickZ CONFIG 16 = 48.
Proof.
  unfold tickZ. cbn [structure CONFIG Structure.columnSpacing Structure.length].
  INR_numerals. lra.
Qed.

Example xOffset_CONFIG :
  xOffset CONFIG 0 = -1.762 /\ xOffset CONFIG 1 = 0.05
  /\ xOffset CONFIG 2 = 1.862.
Proof.
  unfold xOffset.
  cbn [solar CONFIG Solar.length Solar.gapY Solar.rowsPerSlope].
  INR_numerals. lra.
Qed.

Example zOffset_CONFIG : zOffset CONFIG 0 = -47.061.
Proof.
  unfold zOffset.
  cbn [solar CONFIG Solar.width Solar.gapX Solar.panelsPerRow].
  INR_numerals. lra.
Qed.

Example setMatrixAt_in_range (m : Matrix4) :
  setMatrixAt m ([identity; identity], 1%nat) = ([identity; m], 2%nat).
Proof. reflexivity. Qed.

Example setMatrixAt_past_end (m : Matrix4) :
  setMatrixAt m ([identity], 1%nat) = ([identity], 2%nat).
Proof. reflexivity. Qed.


(** ** The column loop *)

Section ColumnLoop.

Variable cfg : Config.

Lemma columnTick_app (i : nat) (group : list Object3D) :
  columnTick cfg i group = group ++ tick cfg i.
Proof.
  unfold tick, columnTick, add. cbn [app].
  rewrite <- !app_assoc. reflexivity.
Qed.

Lemma column_loop (n : nat) (group : list Object3D) :
  for_ n (columnTick cfg) group = group ++ flat_map (tick cfg) (seq 0 n).
Proof.
  induction n as [|n IH].
  - rewrite for_0. cbn. now rewrite app_nil_r.
  - rewrite for_S, IH, columnTick_app, seq_S, flat_map_app.
    cbn [flat_map]. now rewrite app_nil_r, app_assoc.
Qed.


End ColumnLoop.

Lemma named_app (nm : Name) (l1 l2 : list Object3D) :
  named nm (l1 ++ l2) = named nm l1 ++ named nm l2.
Proof. apply filter_app. Qed.

Lemma named_ticks (cfg : Config) (nm : Name) (f : nat -> Object3D)
    (idx : list nat) :
  (forall i, named nm (tick cfg i) = [f i]) ->
  named nm (flat_map (tick cfg) idx) = map f idx.
Proof.
  intros Hf. induction idx as [|i idx IH]; [reflexivity|].
  cbn [flat_map map]. now rewrite named_app, Hf, IH.
Qed.

(** ** The panel loops *)

Lemma insert_middle {A : Type} (pre : list A) (m v : A) (post : list A) :
  <[ length pre := v ]> (pre ++ m :: post) = pre ++ v :: post.
Proof.
  induction pre as [|a pre IH]; [reflexivity|].
  cbn. f_equal. exact IH.
Qed.

(** A run of [setMatrixAt] over the slots [mid] that follow [pre]. *)
Lemma setMatrixAt_run (g : nat -> Matrix4) (idx : list nat) :
  forall pre mid post : list Matrix4,
    length mid = length idx ->
    fold_left (fun st c => setMatrixAt (g c) st) idx
      (pre ++ mid ++ post, length pre)
    = (pre ++ map g idx ++ post, (length pre + length idx)%nat).
Proof.
  induction idx as [|c idx IH]; intros pre mid post Hlen.
  - destruct mid; [|discriminate]. cbn. f_equal. lia.
  - destruct mid as [|m mid]; [discriminate|].
    cbn [fold_left]. unfold setMatrixAt at 2. cbn [fst snd app].
    rewrite insert_middle.
    replace (pre ++ g c :: mid ++ post)
      with ((pre ++ [g c]) ++ mid ++ post)
      by now rewrite <- app_assoc.
    replace (S (length pre)) with (length (pre ++ [g c]))
      by (rewrite length_app; cbn; lia).
    rewrite IH by (cbn in Hlen; lia).
    rewrite length_app, <- app_assoc. cbn. f_equal. lia.
Qed.

Lemma setMatrixAt_rows (panel : nat -> nat -> Matrix4) (cs rs : list nat) :
  forall pre mid post : list Matrix4,
    length mid = (length rs * length cs)%nat ->
    fold_left
      (fun st r => fold_left (fun st c => setMatrixAt (panel r c) st) cs st)
      rs (pre ++ mid ++ post, length pre)
    = (pre ++ flat_map (fun r => map (panel r) cs) rs ++ post,
       (length pre + length rs * length cs)%nat).
Proof.
  induction rs as [|r rs IH]; intros pre mid post Hlen.
  - destruct mid; [|discriminate]. cbn. f_equal. lia.
  - cbn [fold_left flat_map].
    cbn [length] in Hlen.
    rewrite <- (take_drop (length cs) mid), <- (app_assoc _ _ post).
    rewrite (setMatrixAt_run (panel r))
      by (rewrite length_take; lia).
    replace (pre ++ map (panel r) cs ++ drop (length cs) mid ++ post)
      with ((pre ++ map (panel r) cs) ++ drop (length cs) mid ++ post)
      by now rewrite <- app_assoc.
    replace (length pre + length cs)%nat
      with (length (pre ++ map (panel r) cs))
      by (rewrite length_app, length_map; lia).
    rewrite IH by (rewrite length_drop; lia).
    rewrite length_app, length_map, <- !app_assoc.
    cbn [length]. f_equal. lia.
Qed.

Lemma length_rows {A : Type} (panel : nat -> nat -> A) (cs rs : list nat) :
  length (flat_map (fun r => map (panel r) cs) rs)
  = (length rs * length cs)%nat.
Proof.
  induction rs as [|r rs IH]; [reflexivity|].
  cbn [flat_map]. rewrite length_app, length_map, IH. cbn. lia.
Qed.

Section PanelLoops.

Variable cfg : Config.

Local Abbreviation rows := (Solar.rowsPerSlope (solar cfg)).
Local Abbreviation cols := (Solar.panelsPerRow (solar cfg)).

Lemma length_slopePanels (panel : nat -> nat -> Matrix4) :
  length (slopePanels cfg panel) = (rows * cols)%nat.
Proof.
  unfold slopePanels. now rewrite length_rows, !length_seq.
Qed.

(** A slope loop overwrites the [rows * cols] slots from [pIdx] on. *)
Lemma slopeLoop_spec (panel : nat -> nat -> Matrix4)
    (pre mid post : list Matrix4) :
  length mid = (rows * cols)%nat ->
  slopeLoop cfg panel (pre ++ mid ++ post, length pre)
  = (pre ++ slopePanels cfg panel ++ post, (length pre + rows * cols)%nat).
Proof.
  intros Hlen. unfold slopeLoop, for_, slopePanels.
  rewrite (setMatrixAt_rows panel) by (now rewrite !length_seq).
  now rewrite !length_seq.
Qed.

(** Both loops, from the fresh array and [pIdx = 0]. *)
Lemma panel_loops :
  slopeLoop cfg (rightPanel cfg)
    (slopeLoop cfg (leftPanel cfg)
       (replicate (totalPanels cfg) identity, 0%nat))
  = (slopePanels cfg (leftPanel cfg) ++ slopePanels cfg (rightPanel cfg),
     totalPanels cfg).
Proof.
  assert (Hsplit : replicate (totalPanels cfg) identity
                   = replicate (rows * cols) identity
                     ++ replicate (rows * cols) identity).
  { rewrite <- replicate_add. f_equal. unfold totalPanels. lia. }
  rewrite Hsplit.
  pose proof (slopeLoop_spec (leftPanel cfg) []
                (replicate (rows * cols) identity)
                (replicate (rows * cols) identity)) as HL.
  cbn [app length] in HL. rewrite HL by apply length_replicate.
  pose proof (slopeLoop_spec (rightPanel cfg) (slopePanels cfg (leftPanel cfg))
                (replicate (rows * cols) identity) []) as HR.
  rewrite length_slopePanels, !app_nil_r in HR.
  cbn [Nat.add]. rewrite HR by apply length_replicate.
  f_equal. unfold totalPanels. lia.
Qed.

End PanelLoops.

(** ** The group [createStructure] returns *)

(** Four objects per column tick, then the two roof sheets, then the
    instanced mesh with every slot written. *)
Lemma children_createStructureOf (cfg : Config) (n : nat)
    (offsetX offsetY : R) :
  exists tail,
    children (createStructureOf cfg n offsetX offsetY)
    = flat_map (tick cfg) (seq 0 n) ++ tail
    /\ roofAndPanels cfg tail.
Proof.
  unfold createStructureOf. cbn [children].
  rewrite panel_loops. cbn [fst]. rewrite column_loop. cbn [app].
  unfold add. rewrite <- !app_assoc. cbn [app].
  eexists. split; [reflexivity|].
  do 3 eexists. split; [reflexivity|].
  cbn. repeat split; eauto.
Qed.


(** ** Frame geometry and columns *)


(** The first terms of the arctangent series bracket it. *)
Lemma atan_alt_bounds (x : R) :
  0 < x < 1 ->
  x - x ^ 3 / 3 <= atan x <= x - x ^ 3 / 3 + x ^ 5 / 5.
Proof.
  intros Hx.
  rewrite atan_eq_ps_atan by exact Hx.
  unfold ps_atan.
  destruct (Ratan.in_int x) as [Hin | Hout]; [|exfalso; apply Hout; lra].
  destruct (ps_atan_exists_1 x Hin) as [v Hv].
  assert (H01 : 0 <= x <= 1) by lra.
  pose proof (alternated_series_ineq (Ratan_seq x) v 0
                (Ratan_seq_decreasing x H01)
                (Ratan_seq_converging x H01) Hv) as B0.
  pose proof (alternated_series_ineq (Ratan_seq x) v 1
                (Ratan_seq_decreasing x H01)
                (Ratan_seq_converging x H01) Hv) as B1.
  cbn [Nat.mul Nat.add sum_f_R0] in B0, B1.
  unfold tg_alt, Ratan_seq in B0, B1.
  cbn [Nat.mul Nat.add pow INR] in B0, B1.
  split; [destruct B0 as [B0 _]|destruct B1 as [_ B1]]; cbn [pow]; lra.
Qed.

Lemma pitchRad_CONFIG : Rabs (pitchRad CONFIG - 0.1489) < 0.00005.
Proof.
  unfold pitchRad, rise, halfSpan, height. cbn.
  replace ((5.9 - 5) / (12 / 2)) with 0.15 by lra.
  pose proof (atan_alt_bounds 0.15 ltac:(lra)) as [Hlo Hhi].
  cbn [pow] in Hlo, Hhi.
  apply Rabs_def1; lra.
Qed.


Section Columns.

Variable cfg : Config.
Variables offsetX offsetY : R.

Local Abbreviation s := (structure cfg).
Local Abbreviation group := (children (createStructure cfg offsetX offsetY)).
Local Abbreviation ticks := (seq 0 (Z.to_nat (colCount cfg))).

Lemma tick_eq (i : nat) :
  tick cfg i = [colLAt cfg i; colRAt cfg i; rafterLAt cfg i; rafterRAt cfg i].
Proof. reflexivity. Qed.

Lemma named_tail (nm : Name) (tail : list Object3D) :
  roofAndPanels cfg tail ->
  nm <> roofL -> nm <> roofR -> nm <> solarInst ->
  named nm tail = [].
Proof.
  intros (r1 & r2 & geo & -> & H1 & H2 & _) N1 N2 N3.
  unfold named.
  rewrite filter_cons_False by (rewrite H1; congruence).
  rewrite filter_cons_False by (rewrite H2; congruence).
  rewrite filter_cons_False by (cbn; congruence).
  reflexivity.
Qed.

(** The children of a name that the column loop adds, for any number of
    passes. *)
Lemma named_groupOf (n : nat) (nm : Name) (f : nat -> Object3D) :
  (forall i, named nm (tick cfg i) = [f i]) ->
  nm <> roofL -> nm <> roofR -> nm <> solarInst ->
  named nm (children (createStructureOf cfg n offsetX offsetY))
  = map f (seq 0 n).
Proof.
  intros Hf N1 N2 N3.
  destruct (children_createStructureOf cfg n offsetX offsetY)
    as (tail & -> & Htail).
  rewrite named_app, (named_ticks cfg nm f), (named_tail nm tail) by easy.
  apply app_nil_r.
Qed.






End Columns.



(** ** Binary64 values *)

(** Evaluates what a concrete binary64 number leaves in a real expression:
    the tests on its exponent and the integers under [IZR]. *)
Ltac double_values :=
  cbv [Double.to_R];
  repeat match goal with
         | |- context [(0 <=? ?e)%Z] =>
             let v := eval vm_compute in (0 <=? e)%Z in
             change (0 <=? e)%Z with v; cbv iota
         end;
  repeat match goal with
         | |- context [IZR ?z] =>
             lazymatch z with
             | Z0 => fail
             | Zpos _ => fail
             | Zneg _ => fail
             | _ => let v := eval vm_compute in z in
                    change (IZR z) with (IZR v)
             end
         end.

(** Proves [Double.near d r] for a concrete number and a numeral. *)
Ltac near_value :=
  lazymatch goal with
  | |- Double.near ?d ?r =>
      let v := eval vm_compute in d in
      change (Double.near v r);
      split; [vm_compute; reflexivity|split; [exact I|]];
      double_values; unfold Rabs;
      repeat match goal with
             | |- context [Rcase_abs ?x] => destruct (Rcase_abs x)
             end;
      lra
  end.

Lemma denotes_CONFIG : denotes CONFIG64 CONFIG.
Proof.
  unfold denotes, CONFIG64, CONFIG.
  cbn [length64 columnSpacing64 carWidth64 carAngle64 coachWidth64
         coachAngle64 structure parking car coach_ Structure.length
         Structure.columnSpacing Car.width Car.angle Coach.width Coach.angle].
  repeat (split; [near_value|]). near_value.
Qed.

Lemma denotes_CONFIG_4_2 : denotes CONFIG64_4_2 CONFIG_4_2.
Proof.
  unfold denotes, CONFIG64_4_2, CONFIG_4_2, CONFIG.
  cbn [length64 columnSpacing64 carWidth64 carAngle64 coachWidth64
         coachAngle64 structure parking car coach_ Structure.length
         Structure.columnSpacing Car.width Car.angle Coach.width Coach.angle].
  repeat (split; [near_value|]). near_value.
Qed.

Lemma colCount64_CONFIG : Double.passes (colCount64 CONFIG64) = Some 17%nat.
Proof. vm_compute. reflexivity. Qed.

(** C1, as the code has it: for a valid structure configuration the pitch
    is [atan ((ridgeHeight - eavesHeight) / (width / 2))], the slope length
    is [hypot rise halfSpan], and the group that is returned holds as many
    left and as many right columns as the loop up to
    [Math.ceil(length / columnSpacing) + 1] has passes, that bound being
    computed in binary64; the [i]-th column is at
    [z = i * columnSpacing - length / 2], and the rafters are turned by plus
    and minus the pitch and are as long as the slope plus 0.5.  For
    [CONFIG] there are 17 passes and the pitch is 0.1489 to four places. *)
Theorem frame_geometry_and_column_ticks :
  (forall (cfg : Config) (b : Bounds64) (offsetX offsetY : R)
          (built : Group),
      validStructure (structure cfg) ->
      denotes b cfg ->
      createStructure64 b cfg offsetX offsetY = Some built ->
      let s := structure cfg in
      let group := children built in
      exists n : nat,
        Double.passes (colCount64 b) = Some n
        /\ pitchRad cfg
           = atan ((Structure.ridgeHeight s - Structure.eavesHeight s)
                   / (Structure.width s / 2))
        /\ slopeLen cfg = hypot (rise cfg) (halfSpan cfg)
        /\ map position (named colL group)
           = map (fun i => mkVector3 (- Structure.width s / 2)
                             (Structure.eavesHeight s / 2)
                             (INR i * Structure.columnSpacing s
                              - Structure.length s / 2)) (seq 0 n)
        /\ map position (named colR group)
           = map (fun i => mkVector3 (Structure.width s / 2)
                             (Structure.eavesHeight s / 2)
                             (INR i * Structure.columnSpacing s
                              - Structure.length s / 2)) (seq 0 n)
        /\ map rotation (named rafterL group)
           = map (fun _ => mkEuler 0 0 (pitchRad cfg)) (seq 0 n)
        /\ map rotation (named rafterR group)
           = map (fun _ => mkEuler 0 0 (- pitchRad cfg)) (seq 0 n)
        /\ map shape (named rafterL group ++ named rafterR group)
           = map (fun _ => BoxMesh (mkBox (slopeLen cfg + 0.5) 0.3 0.15)
                             (Structure.rafterColor s)) (seq 0 n ++ seq 0 n))
  /\ Double.passes (colCount64 CONFIG64) = Some 17%nat
  /\ Rabs (pitchRad CONFIG - 0.1489) < 0.00005.
Proof.
  split; [|split; [exact colCount64_CONFIG | exact pitchRad_CONFIG]].
  intros cfg b offsetX offsetY built Hvalid Hb Hbuilt s group.
  unfold createStructure64 in Hbuilt.
  destruct (Double.passes (colCount64 b)) as [n|]; [|discriminate].
  injection Hbuilt as <-. exists n. subst group.
  rewrite (named_groupOf cfg offsetX offsetY n colL (colLAt cfg))
    by (reflexivity || discriminate).
  rewrite (named_groupOf cfg offsetX offsetY n colR (colRAt cfg))
    by (reflexivity || discriminate).
  rewrite (named_groupOf cfg offsetX offsetY n rafterL (rafterLAt cfg))
    by (reflexivity || discriminate).
  rewrite (named_groupOf cfg offsetX offsetY n rafterR (rafterRAt cfg))
    by (reflexivity || discriminate).
  rewrite map_app, !map_map. cbn [position rotation shape colLAt colRAt
                                   rafterLAt rafterRAt].
  repeat split; try reflexivity.
  rewrite map_app. reflexivity.
Qed.

Lemma frame_geometry_and_column_ticks_witness :
  validStructure (structure CONFIG)
  /\ denotes CONFIG64 CONFIG
  /\ createStructure64 CONFIG64 CONFIG (- 6) 0
     = Some (createStructureOf CONFIG 17 (- 6) 0)
  /\ length (named colL (children (createStructureOf CONFIG 17 (- 6) 0)))
     = 17%nat.
Proof.
  assert (Hv : validStructure (structure CONFIG)).
  { unfold validStructure. cbn. lra. }
  assert (Hrun : createStructure64 CONFIG64 CONFIG (- 6) 0
                 = Some (createStructureOf CONFIG 17 (- 6) 0)).
  { unfold createStructure64. rewrite colCount64_CONFIG. reflexivity. }
  split; [exact Hv|]. split; [exact denotes_CONFIG|].
  split; [exact Hrun|].
  destruct frame_geometry_and_column_ticks as [Hgen _].
  destruct (Hgen CONFIG CONFIG64 (- 6) 0 _ Hv denotes_CONFIG Hrun)
    as (n & Hn & _ & _ & Hcols & _).
  rewrite colCount64_CONFIG in Hn. injection Hn as <-.
  rewrite <- (length_map position), Hcols, length_map, length_seq.
  reflexivity.
Defined.

Lemma colCount_4_2 : colCount CONFIG_4_2 = 8%Z.
Proof.
  unfold colCount. cbn.
  rewrite (Zceil_eq 7); [reflexivity|]. cbn. lra.
Qed.

(** C1 as the specification words it fails: the tick count follows the
    quotient as binary64 rounds it.  With [length = 4.2] and
    [columnSpacing = 0.6] the group has 9 left columns, and
    [ceil (4.2 / 0.6) + 1] is 8; at the binary64 readings of 1.1 and 0.1 the
    loop has 12 passes, and [ceil] of the quotient of those two numbers,
    plus 1, is 13. *)
Lemma tick_count_counterexample :
  validStructure (structure CONFIG_4_2)
  /\ denotes CONFIG64_4_2 CONFIG_4_2
  /\ (exists built,
        createStructure64 CONFIG64_4_2 CONFIG_4_2 0 0 = Some built
        /\ length (named colL (children built)) = 9%nat)
  /\ (Zceil (Structure.length (structure CONFIG_4_2)
             / Structure.columnSpacing (structure CONFIG_4_2)) + 1 = 8)%Z
  /\ Double.passes (colCount64 CONFIG64_1_1) = Some 12%nat
  /\ (Zceil (Double.to_R (length64 CONFIG64_1_1)
             / Double.to_R (columnSpacing64 CONFIG64_1_1)) + 1 = 13)%Z.
Proof.
  assert (H9 : Double.passes (colCount64 CONFIG64_4_2) = Some 9%nat)
    by (vm_compute; reflexivity).
  split; [unfold validStructure; cbn; lra|].
  split; [exact denotes_CONFIG_4_2|].
  split.
  { exists (createStructureOf CONFIG_4_2 9 0 0). split.
    - unfold createStructure64. rewrite H9. reflexivity.
    - rewrite (named_groupOf CONFIG_4_2 0 0 9 colL (colLAt CONFIG_4_2))
        by (reflexivity || discriminate).
      rewrite length_map, length_seq. reflexivity. }
  split; [exact colCount_4_2|].
  split; [vm_compute; reflexivity|].
  let l := eval vm_compute in (length64 CONFIG64_1_1) in
  change (length64 CONFIG64_1_1) with l.
  let c := eval vm_compute in (columnSpacing64 CONFIG64_1_1) in
  change (columnSpacing64 CONFIG64_1_1) with c.
  rewrite (Zceil_eq 12); [reflexivity|].
  double_values. cbn [IZR]. lra.
Qed.



(** ** Solar panels *)

Lemma instances_of_ticks (cfg : Config) (idx : list nat) :
  instanceMatrices (flat_map (tick cfg) idx) = []
  /\ instanceCounts (flat_map (tick cfg) idx) = [].
Proof.
  unfold instanceMatrices, instanceCounts.
  induction idx as [|i idx [IH1 IH2]]; [split; reflexivity|].
  cbn [flat_map]. rewrite !flat_map_app, IH1, IH2. split; reflexivity.
Qed.

Lemma instances_createStructureOf (cfg : Config) (n : nat)
    (offsetX offsetY : R) :
  let group := children (createStructureOf cfg n offsetX offsetY) in
  instanceMatrices group
  = slopePanels cfg (leftPanel cfg) ++ slopePanels cfg (rightPanel cfg)
  /\ instanceCounts group = [totalPanels cfg].
Proof.
  intros group. subst group.
  destruct (children_createStructureOf cfg n offsetX offsetY)
    as (tail & -> & (r1 & r2 & geo & -> & _ & _ & (g1 & c1 & S1)
                     & (g2 & c2 & S2))).
  destruct (instances_of_ticks cfg (seq 0 n)) as [HM HC].
  unfold instanceMatrices, instanceCounts in *.
  rewrite !flat_map_app, HM, HC. cbn. rewrite S1, S2. cbn.
  now rewrite app_nil_r.
Qed.

Lemma instances_createStructure (cfg : Config) (offsetX offsetY : R) :
  let group := children (createStructure cfg offsetX offsetY) in
  instanceMatrices group
  = slopePanels cfg (leftPanel cfg) ++ slopePanels cfg (rightPanel cfg)
  /\ instanceCounts group = [totalPanels cfg].
Proof. apply instances_createStructureOf. Qed.

(** The slot of a panel in the array one slope loop fills. *)
Lemma lookup_rows {A : Type} (panel : nat -> nat -> A)
    (rows cols r c : nat) :
  (r < rows)%nat -> (c < cols)%nat ->
  flat_map (fun r => map (panel r) (seq 0 cols)) (seq 0 rows)
  !! (r * cols + c)%nat
  = Some (panel r c).
Proof.
  intros Hr Hc. induction rows as [|n IH]; [lia|].
  rewrite seq_S, flat_map_app. cbn [Nat.add flat_map]. rewrite app_nil_r.
  destruct (decide (r = n)) as [->|Hne].
  - rewrite lookup_app_r by (rewrite length_rows, !length_seq; lia).
    rewrite length_rows, !length_seq.
    replace (n * cols + c - n * cols)%nat with c by lia.
    change (map (panel n) (seq 0 cols)) with (panel n <$> seq 0 cols).
    rewrite list_lookup_fmap, lookup_seq_lt by exact Hc. reflexivity.
  - rewrite lookup_app_l by (rewrite length_rows, !length_seq; nia).
    apply IH. lia.
Qed.

(** The mesh of the group holds, for every panel of the grid, the matrix
    its loop computed. *)
Lemma matrices_createStructureOf (cfg : Config) (n : nat)
    (offsetX offsetY : R) (row col : nat) :
  (row < Solar.rowsPerSlope (solar cfg))%nat ->
  (col < Solar.panelsPerRow (solar cfg))%nat ->
  let group := children (createStructureOf cfg n offsetX offsetY) in
  leftMatrix cfg group row col = Some (leftPanel cfg row col)
  /\ rightMatrix cfg group row col = Some (rightPanel cfg row col).
Proof.
  intros Hr Hc group. subst group. unfold leftMatrix, rightMatrix.
  destruct (instances_createStructureOf cfg n offsetX offsetY) as [-> _].
  split.
  - rewrite lookup_app_l by (rewrite length_slopePanels; nia).
    now apply lookup_rows.
  - rewrite lookup_app_r by (rewrite length_slopePanels; lia).
    rewrite length_slopePanels.
    match goal with
    | |- _ !! ?i = _ =>
        replace i with (row * Solar.panelsPerRow (solar cfg) + col)%nat
          by lia
    end.
    now apply lookup_rows.
Qed.

(** C2: the instance matrices of the group are the
    [rowsPerSlope * panelsPerRow] matrices of the left slope followed by as
    many of the right slope, [rowsPerSlope * panelsPerRow * 2] in all, which
    is also the instance count of the mesh, whatever the other values of
    the configuration. *)
Theorem solar_instance_count (cfg : Config) (offsetX offsetY : R) :
  let rows := Solar.rowsPerSlope (solar cfg) in
  let cols := Solar.panelsPerRow (solar cfg) in
  let group := children (createStructure cfg offsetX offsetY) in
  instanceMatrices group
  = slopePanels cfg (leftPanel cfg) ++ slopePanels cfg (rightPanel cfg)
  /\ length (slopePanels cfg (leftPanel cfg)) = (rows * cols)%nat
  /\ length (slopePanels cfg (rightPanel cfg)) = (rows * cols)%nat
  /\ length (instanceMatrices group) = (rows * cols * 2)%nat
  /\ instanceCounts group = [(rows * cols * 2)%nat].
Proof.
  intros rows cols group.
  destruct (instances_createStructure cfg offsetX offsetY) as [HM HC].
  fold group in HM, HC. rewrite HM, HC, length_app, !length_slopePanels.
  repeat split; try reflexivity.
  - subst rows cols. lia.
  - f_equal. unfold totalPanels. subst rows cols. lia.
Qed.

Lemma pitchRad_pos (cfg : Config) :
  validStructure (structure cfg) -> 0 < pitchRad cfg < PI / 2.
Proof.
  intros (Hw & _ & _ & Hr). unfold pitchRad.
  split; [|apply atan_bound].
  rewrite <- atan_0. apply atan_increasing.
  apply Rdiv_lt_0_compat; unfold rise, halfSpan, height; lra.
Qed.

Lemma applyAxisAngle_Z (a b c angle : R) :
  applyAxisAngle (mkVector3 a b c) (mkVector3 0 0 1) angle
  = mkVector3 (a * cos angle - b * sin angle)
              (a * sin angle + b * cos angle) c.
Proof.
  unfold applyAxisAngle, dot, cross. cbn. f_equal; ring.
Qed.

(** What the two loop bodies compute for a cell of the grid. *)
Lemma panel_positions (cfg : Config) (row col : nat) :
  validStructure (structure cfg) ->
  let p := pitchRad cfg in
  let overhangFix := 0.2 in
  let axisZ := mkVector3 0 0 1 in
  let anchorL :=
    mkVector3 (- halfSpan cfg / 2) (height cfg + rise cfg / 2 + 0.2) 0 in
  let anchorR :=
    mkVector3 (halfSpan cfg / 2) (height cfg + rise cfg / 2 + 0.2) 0 in
  let fix_ := mkVector3 (cos p * overhangFix) (- sin p * overhangFix) 0 in
  let L := m_position (leftPanel cfg row col) in
  let R := m_position (rightPanel cfg row col) in
  L = vadd anchorL
        (applyAxisAngle
           (mkVector3 (xOffset cfg row) 0.05 (zOffset cfg col)) axisZ p)
  /\ R = vadd (vadd anchorR fix_)
           (applyAxisAngle
              (mkVector3 (- xOffset cfg row) 0.05 (zOffset cfg col))
              axisZ (- p))
  /\ R = vadd (mirror L) fix_
  /\ fix_ = applyAxisAngle (mkVector3 overhangFix 0 0) axisZ (- p)
  /\ 0 < x fix_ /\ y fix_ < 0.
Proof.
  intros Hvalid p overhangFix axisZ anchorL anchorR fix_ L R.
  pose proof (pitchRad_pos cfg Hvalid) as Hp. fold p in Hp.
  assert (Habs : Rabs (- p) = p)
    by (rewrite Rabs_Ropp; apply Rabs_pos_eq; lra).
  assert (Hsin : 0 < sin p)
    by (apply sin_gt_0; pose proof PI_RGT_0; lra).
  assert (Hcos : 0 < cos p) by (apply cos_gt_0; lra).
  subst L R fix_ anchorL anchorR axisZ.
  unfold leftPanel, rightPanel, vadd, mirror. fold p.
  rewrite Habs, !applyAxisAngle_Z, cos_neg, sin_neg.
  cbn [x y z m_position]. subst overhangFix.
  repeat split; try (f_equal; field); lra.
Qed.

(** C6: for a valid structure configuration, and whatever the number of
    column ticks, the instanced mesh of the returned group holds, for every
    cell [(row, col)] of the panel grid, a left-slope matrix placed at the
    left anchor plus the rotated offset, with no correction, and a
    right-slope matrix placed at the right anchor, moved by
    [(cos pitch * overhangFix, - sin pitch * overhangFix, 0)], plus the
    rotation by [- pitch] of the offset with [- xOffset]: the mirror image
    of the left one in the plane of the ridge, moved by that vector, which
    points down the right slope.  The mesh holds no other matrix. *)
Theorem right_slope_overhang_fix (cfg : Config) (n : nat)
    (offsetX offsetY : R) (row col : nat) :
  validStructure (structure cfg) ->
  (row < Solar.rowsPerSlope (solar cfg))%nat ->
  (col < Solar.panelsPerRow (solar cfg))%nat ->
  let group := children (createStructureOf cfg n offsetX offsetY) in
  let p := pitchRad cfg in
  let overhangFix := 0.2 in
  let axisZ := mkVector3 0 0 1 in
  let anchorL :=
    mkVector3 (- halfSpan cfg / 2) (height cfg + rise cfg / 2 + 0.2) 0 in
  let anchorR :=
    mkVector3 (halfSpan cfg / 2) (height cfg + rise cfg / 2 + 0.2) 0 in
  let fix_ := mkVector3 (cos p * overhangFix) (- sin p * overhangFix) 0 in
  exists mL mR : Matrix4,
    leftMatrix cfg group row col = Some mL
    /\ rightMatrix cfg group row col = Some mR
    /\ m_position mL
       = vadd anchorL
           (applyAxisAngle
              (mkVector3 (xOffset cfg row) 0.05 (zOffset cfg col)) axisZ p)
    /\ m_position mR
       = vadd (vadd anchorR fix_)
           (applyAxisAngle
              (mkVector3 (- xOffset cfg row) 0.05 (zOffset cfg col))
              axisZ (- p))
    /\ m_position mR = vadd (mirror (m_position mL)) fix_
    /\ m_rotation mL = mkEuler 0 0 p
    /\ m_rotation mR = mkEuler 0 0 (- p)
    /\ fix_ = applyAxisAngle (mkVector3 overhangFix 0 0) axisZ (- p)
    /\ 0 < x fix_ /\ y fix_ < 0
    /\ length (instanceMatrices group)
       = (2 * (Solar.rowsPerSlope (solar cfg)
               * Solar.panelsPerRow (solar cfg)))%nat.
Proof.
  intros Hvalid Hrow Hcol group p overhangFix axisZ anchorL anchorR fix_.
  destruct (matrices_createStructureOf cfg n offsetX offsetY row col
              Hrow Hcol) as [HL HR].
  destruct (panel_positions cfg row col Hvalid)
    as (H1 & H2 & H3 & H4 & H5 & H6).
  destruct (instances_createStructureOf cfg n offsetX offsetY) as [HM _].
  exists (leftPanel cfg row col), (rightPanel cfg row col).
  split; [exact HL|]. split; [exact HR|].
  split; [exact H1|]. split; [exact H2|]. split; [exact H3|].
  split; [reflexivity|]. split; [reflexivity|].
  split; [exact H4|]. split; [exact H5|]. split; [exact H6|].
  subst group. rewrite HM, length_app, !length_slopePanels. lia.
Qed.

Lemma right_slope_overhang_fix_witness :
  validStructure (structure CONFIG)
  /\ (2 < Solar.rowsPerSlope (solar CONFIG))%nat
  /\ (82 < Solar.panelsPerRow (solar CONFIG))%nat
  /\ exists mL mR,
       leftMatrix CONFIG (children (createStructureOf CONFIG 17 (- 6) 0))
         2 82 = Some mL
       /\ rightMatrix CONFIG (children (createStructureOf CONFIG 17 (- 6) 0))
            2 82 = Some mR
       /\ m_position mR
          = vadd (mirror (m_position mL))
              (mkVector3 (cos (pitchRad CONFIG) * 0.2)
                 (- sin (pitchRad CONFIG) * 0.2) 0).
Proof.
  assert (Hv : validStructure (structure CONFIG)).
  { unfold validStructure. cbn. lra. }
  assert (Hr : (2 < Solar.rowsPerSlope (solar CONFIG))%nat) by (cbn; lia).
  assert (Hc : (82 < Solar.panelsPerRow (solar CONFIG))%nat) by (cbn; lia).
  split; [exact Hv|]. split; [exact Hr|]. split; [exact Hc|].
  destruct (right_slope_overhang_fix CONFIG 17 (- 6) 0 2 82 Hv Hr Hc)
    as (mL & mR & HL & HR & _ & _ & Hm & _).
  exists mL, mR. auto.
Defined.

(** ** Where the panel grid sits on its slope *)

Lemma sumR_app (l1 l2 : list R) : sumR (l1 ++ l2) = sumR l1 + sumR l2.
Proof.
  unfold sumR.
  induction l1 as [|a l1 IH]; cbn [app fold_right]; [|rewrite IH]; lra.
Qed.

Lemma sumR_affine (a b : R) (n : nat) :
  sumR (map (fun i => INR i * a + b) (seq 0 n))
  = a * (INR n * (INR n - 1) / 2) + INR n * b.
Proof.
  induction n as [|n IH].
  - unfold sumR. cbn. lra.
  - rewrite seq_S, map_app, sumR_app, IH, S_INR. unfold sumR. cbn. lra.
Qed.

Lemma sumR_const_map {A : Type} (c : R) (l : list A) :
  sumR (map (fun _ => c) l) = INR (length l) * c.
Proof.
  induction l as [|a l IH]; [unfold sumR; cbn; lra|].
  change (sumR (map (fun _ => c) (a :: l)))
    with (c + sumR (map (fun _ => c) l)).
  cbn [length]. rewrite IH, S_INR. lra.
Qed.

Lemma sumR_grid (f g : nat -> R) (cs rs : list nat) :
  let grid := flat_map (fun r => map (fun c => (f r, g c)) cs) rs in
  sumR (map fst grid) = INR (length cs) * sumR (map f rs)
  /\ sumR (map snd grid) = INR (length rs) * sumR (map g cs)
  /\ length grid = (length rs * length cs)%nat.
Proof.
  induction rs as [|r rs (IH1 & IH2 & IH3)]; cbn zeta.
  - unfold sumR. cbn. repeat split; lra.
  - cbn zeta in IH1, IH2, IH3.
    cbn [flat_map]. rewrite !map_app, !sumR_app, IH1, IH2, !map_map.
    cbn [fst snd]. rewrite sumR_const_map.
    rewrite length_app, length_map, IH3.
    change (sumR (map f (r :: rs))) with (f r + sumR (map f rs)).
    change (fun c : nat => g c) with g.
    cbn [length]. rewrite S_INR. repeat split; ring.
Qed.

(** The mean offsets of a slope: half the accumulated gaps along the slope,
    and along the building that less half a panel width. *)
Lemma mean_slopeOffsets (cfg : Config) :
  let rows := Solar.rowsPerSlope (solar cfg) in
  let cols := Solar.panelsPerRow (solar cfg) in
  (0 < rows)%nat -> (0 < cols)%nat ->
  mean (map fst (slopeOffsets cfg))
  = (INR rows - 1) * Solar.gapY (solar cfg) / 2
  /\ mean (map snd (slopeOffsets cfg))
     = (INR cols - 1) * Solar.gapX (solar cfg) / 2
       - Solar.width (solar cfg) / 2.
Proof.
  intros rows cols Hr Hc. unfold mean, slopeOffsets.
  destruct (sumR_grid (xOffset cfg) (zOffset cfg) (seq 0 cols) (seq 0 rows))
    as (Hx & Hz & Hlen).
  cbn zeta in Hx, Hz, Hlen. fold rows cols.
  rewrite !length_map, Hlen, Hx, Hz, !length_seq, mult_INR.
  assert (HX : map (xOffset cfg) (seq 0 rows)
               = map (fun i => INR i * (Solar.length (solar cfg)
                                        + Solar.gapY (solar cfg))
                               + (- (INR rows * Solar.length (solar cfg) / 2)
                                  + Solar.length (solar cfg) / 2))
                   (seq 0 rows)).
  { apply map_ext. intros i. unfold xOffset. fold rows. lra. }
  assert (HZ : map (zOffset cfg) (seq 0 cols)
               = map (fun i => INR i * (Solar.width (solar cfg)
                                        + Solar.gapX (solar cfg))
                               + - (INR cols * Solar.width (solar cfg) / 2))
                   (seq 0 cols)).
  { apply map_ext. intros i. unfold zOffset. fold cols. lra. }
  rewrite HX, HZ, !sumR_affine.
  assert (0 < INR rows) by (apply lt_0_INR; lia).
  assert (0 < INR cols) by (apply lt_0_INR; lia).
  split; field; lra.
Qed.

(** C7 at the configuration of the script: the raw offsets of a slope are
    not centred; the mean of [xOffset] over the grid is 0.05 and the mean of
    [zOffset] is 0.663, neither is 0. *)
Theorem panel_grid_mean_offsets_CONFIG :
  mean (map fst (slopeOffsets CONFIG)) = 0.05
  /\ mean (map snd (slopeOffsets CONFIG)) = 0.663
  /\ mean (map fst (slopeOffsets CONFIG)) <> 0
  /\ mean (map snd (slopeOffsets CONFIG)) <> 0.
Proof.
  destruct (mean_slopeOffsets CONFIG) as [Hx Hz]; [cbn; lia ..|].
  cbn [solar CONFIG Solar.rowsPerSlope Solar.panelsPerRow Solar.gapX
         Solar.gapY Solar.width] in Hx, Hz.
  rewrite Hx, Hz.
  replace (INR 3) with 3 by (cbn; lra).
  replace (INR 83) with 83 by (rewrite INR_IZR_INZ; reflexivity).
  repeat split; lra.
Qed.

(** ** Computations that draw *)

Lemma bind_Ok {A B : Type} (m : JS A) (k : A -> JS B)
    (g g' : Random) (b : B) :
  bind m k g = Ok (b, g') <->
  exists a g1, m g = Ok (a, g1) /\ k a g1 = Ok (b, g').
Proof.
  unfold bind. split.
  - destruct (m g) as [[a g1]|e]; [|discriminate]. eauto.
  - intros (a & g1 & -> & H). exact H.
Qed.

Lemma takes_ret {A : Type} (a : A) : takes 0 0 (ret a).
Proof.
  split.
  - intros g a' g' [= <- <-]. split; [reflexivity|lia].
  - reflexivity.
Qed.

Lemma takes_throw {A : Type} (lo hi : nat) (e : Exn) :
  takes lo hi (@throw A e).
Proof. split; [discriminate|reflexivity]. Qed.

Lemma takes_random : takes 1 1 Math_random.
Proof.
  split.
  - intros g a g' [= <- <-]. cbn. split; [reflexivity|lia].
  - intros d1 d2 c H. unfold outcome, Math_random. cbn.
    rewrite (H c) by lia. reflexivity.
Qed.

Lemma takes_weaken {A : Type} (lo hi lo' hi' : nat) (m : JS A) :
  (lo' <= lo)%nat -> (hi <= hi')%nat -> takes lo hi m -> takes lo' hi' m.
Proof.
  intros Hlo Hhi [Hs Ha]. split.
  - intros g a g' H. destruct (Hs g a g' H). split; [assumption|lia].
  - intros d1 d2 c H. apply Ha. intros k Hk. apply H. lia.
Qed.

Lemma takes_bind {A B : Type} (lo1 hi1 lo2 hi2 : nat)
    (m : JS A) (k : A -> JS B) :
  takes lo1 hi1 m -> (forall a, takes lo2 hi2 (k a)) ->
  takes (lo1 + lo2) (hi1 + hi2) (bind m k).
Proof.
  intros [Hs Ha] Hk. split.
  - intros g b g' (a & g1 & H1 & H2)%bind_Ok.
    destruct (Hs _ _ _ H1) as [E1 B1].
    destruct (takes_state _ _ _ (Hk a) _ _ _ H2) as [E2 B2].
    split; [congruence|lia].
  - intros d1 d2 c H.
    assert (H1 : outcome m d1 c = outcome m d2 c)
      by (apply Ha; intros j Hj; apply H; lia).
    unfold outcome, bind in *.
    destruct (m (mkRandom d1 c)) as [[a1 g1]|e1] eqn:E1;
      destruct (m (mkRandom d2 c)) as [[a2 g2]|e2] eqn:E2;
      try discriminate; [|congruence].
    injection H1 as -> Hc.
    destruct (Hs _ _ _ E1) as [D1 B1], (Hs _ _ _ E2) as [D2 B2].
    destruct g1 as [d1' c1], g2 as [d2' c2]. cbn in *. subst.
    apply (takes_agree _ _ _ (Hk a2)).
    intros j Hj. apply H. lia.
Qed.



(** ** The bays of [generateParking] *)

Lemma Math_random_Ok (g : Random) (r : R) (g1 : Random) :
  Math_random g = Ok (r, g1) ->
  r = draws g (cursor g) /\ g1 = mkRandom (draws g) (S (cursor g)).
Proof. intros [= <- <-]. split; reflexivity. Qed.

Lemma ret_Ok {A : Type} (a b : A) (g g' : Random) :
  ret a g = Ok (b, g') -> b = a /\ g' = g.
Proof. intros [= <- <-]. split; reflexivity. Qed.

Section BayLemmas.

Variable cfg : Config.

Lemma takes_colorAt (colors : list Z) (k : Z) : takes 0 0 (colorAt colors k).
Proof.
  unfold colorAt.
  destruct (if (k <? 0)%Z then None else colors !! Z.to_nat k);
    [apply takes_ret|apply takes_throw].
Qed.

Lemma takes_randomColor (colors : list Z) : takes 1 1 (randomColor colors).
Proof.
  unfold randomColor.
  apply (takes_bind 1 1 0 0); [apply takes_random|].
  intros r. apply takes_colorAt.
Qed.

Lemma takes_chosenCarColor : takes 0 1 (chosenCarColor cfg).
Proof.
  unfold chosenCarColor. destruct (Car.colors (car (parking cfg))).
  - eapply takes_weaken; [| |apply takes_randomColor]; lia.
  - eapply takes_weaken; [| |apply takes_ret]; lia.
Qed.





End BayLemmas.

Section BayInversion.

Variable cfg : Config.

(** One pass of the car loop that returns: what it added, and that the
    left car is there exactly when the first number the script read
    exceeded 0.3. *)
Lemma carBay_inv (i : nat) (group group' : list Object3D) (g g' : Random) :
  carBay cfg i group g = Ok (group', g') ->
  exists vsL vsR,
    group' = group ++ [lLineAt cfg i; rLineAt cfg i] ++ vsL ++ vsR
    /\ ((~ draws g (cursor g) > 0.3 /\ vsL = [])
        \/ (draws g (cursor g) > 0.3 /\ exists c, vsL = [carLeftAt cfg i c]))
    /\ (vsR = [] \/ exists c, vsR = [carRightAt cfg i c]).
Proof.
  unfold carBay. cbn zeta.
  intros (r & g1 & (-> & ->)%Math_random_Ok & H)%bind_Ok.
  apply bind_Ok in H as (group1 & g2 & HL & H).
  apply bind_Ok in H as (r' & g3 & _ & HR).
  assert (HL' : exists vsL,
             group1 = group ++ [lLineAt cfg i; rLineAt cfg i] ++ vsL
             /\ ((~ draws g (cursor g) > 0.3 /\ vsL = [])
                 \/ (draws g (cursor g) > 0.3
                     /\ exists c, vsL = [carLeftAt cfg i c]))).
  { destruct (Rgt_dec (draws g (cursor g)) 0.3) as [Hgt|Hle].
    - apply bind_Ok in HL as (c & g1' & _ & (-> & _)%ret_Ok).
      exists [carLeftAt cfg i c]. split; [|right; eauto].
      unfold add. rewrite <- !app_assoc. reflexivity.
    - apply ret_Ok in HL as [-> _].
      exists []. split; [|left; auto].
      unfold add. rewrite <- !app_assoc. reflexivity. }
  destruct HL' as (vsL & -> & HvsL).
  destruct (Rgt_dec r' 0.3) as [Hgt|Hle].
  - apply bind_Ok in HR as (c & g3' & _ & (-> & _)%ret_Ok).
    exists vsL, [carRightAt cfg i c]. split; [|split; [exact HvsL|eauto]].
    unfold add. rewrite <- !app_assoc. reflexivity.
  - apply ret_Ok in HR as [-> _].
    exists vsL, []. split; [|split; [exact HvsL|auto]].
    now rewrite app_nil_r.
Qed.

Lemma carBay_shape (i : nat) (group group' : list Object3D) (g g' : Random) :
  carBay cfg i group g = Ok (group', g') ->
  exists b, group' = group ++ b /\ carBayShape cfg i b.
Proof.
  intros (vsL & vsR & -> & HL & HR)%carBay_inv.
  eexists. split; [reflexivity|].
  exists vsL, vsR. split; [reflexivity|]. split; [|exact HR].
  destruct HL as [[_ ->]|[_ H]]; auto.
Qed.

Lemma coachBay_shape (i : nat) (group group' : list Object3D)
    (g g' : Random) :
  coachBay cfg i group g = Ok (group', g') ->
  exists b, group' = group ++ b /\ coachBayShape cfg i b.
Proof.
  unfold coachBay. cbn zeta.
  intros (r & g1 & _ & H)%bind_Ok.
  destruct (Rgt_dec r 0.4) as [Hgt|Hle].
  - apply bind_Ok in H as (c & g2 & _ & (-> & _)%ret_Ok).
    exists [coachLineAt cfg i; coachAt cfg i c]. split; [|right; eauto].
    unfold add. rewrite <- !app_assoc. reflexivity.
  - apply ret_Ok in H as [-> _].
    exists [coachLineAt cfg i]. split; [reflexivity|left; reflexivity].
Qed.

End BayInversion.

Lemma forEach_layout (bay : nat -> list Object3D -> Prop)
    (body : nat -> list Object3D -> JS (list Object3D)) :
  (forall i group g group' g',
      body i group g = Ok (group', g') ->
      exists b, group' = group ++ b /\ bay i b) ->
  forall idx group g group' g',
    forEach idx body group g = Ok (group', g') ->
    exists added, group' = group ++ added /\ layout bay idx added.
Proof.
  intros Hbody. induction idx as [|i idx IH]; intros group g group' g' H.
  - apply ret_Ok in H as [-> _]. exists []. split.
    + now rewrite app_nil_r.
    + constructor.
  - cbn [forEach] in H. apply bind_Ok in H as (group1 & g1 & H1 & H2).
    apply Hbody in H1 as (b & -> & Hb).
    apply IH in H2 as (rest & -> & Hrest).
    exists (b ++ rest). split; [now rewrite app_assoc|].
    now constructor.
Qed.

(** The group [generateParking] returns: the car bays in order, then the
    coach bays in order. *)
Lemma generateParkingOf_layout (cfg : Config) (nb nc : nat)
    (g g' : Random) (group : list Object3D) :
  generateParkingOf cfg nb nc g = Ok (group, g') ->
  exists cars coaches,
    group = cars ++ coaches
    /\ layout (carBayShape cfg) (seq 0 nb) cars
    /\ layout (coachBayShape cfg) (seq 0 nc) coaches.
Proof.
  unfold generateParkingOf, forM. cbn zeta.
  intros (cars & g1 & H1 & H2)%bind_Ok.
  apply bind_Ok in H2 as (all & g2 & H2 & (-> & _)%ret_Ok).
  apply (forEach_layout (carBayShape cfg)) in H1 as (cs & -> & Hcs);
    [|intros; eapply carBay_shape; eassumption].
  apply (forEach_layout (coachBayShape cfg)) in H2 as (ch & -> & Hch);
    [|intros; eapply coachBay_shape; eassumption].
  exists cs, ch. auto.
Qed.


(** ** When [generateParking] returns *)

Lemma bind_step {A B : Type} (m : JS A) (k : A -> JS B)
    (g g1 : Random) (a : A) :
  m g = Ok (a, g1) -> bind m k g = k a g1.
Proof. unfold bind. now intros ->. Qed.

Lemma randomColor_ok (colors : list Z) (g : Random) :
  colors <> [] -> 0 <= draws g (cursor g) < 1 ->
  exists c, randomColor colors g
            = Ok (c, mkRandom (draws g) (S (cursor g))).
Proof.
  intros Hne Hr. unfold randomColor.
  rewrite (bind_step _ _ g _ _ eq_refl). unfold colorAt.
  set (r := draws g (cursor g)) in *.
  assert (Hlen : 1 <= INR (length colors)).
  { destruct colors; [congruence|]. cbn [length]. rewrite S_INR.
    pose proof (pos_INR (length colors)). lra. }
  pose proof (Zfloor_bound (r * INR (length colors))) as [Hlo Hhi].
  assert (H0 : (0 <= Zfloor (r * INR (length colors)))%Z).
  { apply Zfloor_lub. cbn. apply Rmult_le_pos; lra. }
  assert (H1 : (Zfloor (r * INR (length colors)) < Z.of_nat (length colors))%Z).
  { apply lt_IZR. rewrite <- INR_IZR_INZ.
    assert (r * INR (length colors) < INR (length colors)); [|lra].
    rewrite <- (Rmult_1_l (INR (length colors))) at 2.
    apply Rmult_lt_compat_r; lra. }
  destruct (Z.ltb_spec (Zfloor (r * INR (length colors))) 0); [lia|].
  destruct (colors !! Z.to_nat (Zfloor (r * INR (length colors))))
    as [c|] eqn:E.
  - exists c. reflexivity.
  - apply lookup_ge_None in E. lia.
Qed.

Section Totality.

Variable cfg : Config.
Hypothesis Hcolors : colorsPresent cfg.

Lemma chosenCarColor_ok (g : Random) :
  unitDraws (draws g) ->
  exists c g', chosenCarColor cfg g = Ok (c, g') /\ draws g' = draws g.
Proof.
  intros Hd. unfold chosenCarColor.
  destruct Hcolors as [Hcar _].
  destruct (Car.colors (car (parking cfg))) as [colors|].
  - destruct (randomColor_ok colors g Hcar (Hd _)) as [c ->]. eauto.
  - unfold ret. eauto.
Qed.

Lemma carBay_ok (i : nat) (group : list Object3D) (g : Random) :
  unitDraws (draws g) ->
  exists group' g',
    carBay cfg i group g = Ok (group', g') /\ draws g' = draws g.
Proof.
  intros Hd. unfold carBay. cbn zeta.
  rewrite (bind_step _ _ g _ _ eq_refl).
  set (g1 := mkRandom (draws g) (S (cursor g))).
  assert (HL : forall (k : Z -> list Object3D) (grp : list Object3D)
                 (b : bool) (h : Random),
             draws h = draws g ->
             exists grp' h',
               (if b then let* chosen := chosenCarColor cfg in ret (k chosen)
                else ret grp) h = Ok (grp', h')
               /\ draws h' = draws g).
  { intros k grp b h Hh. destruct b.
    - destruct (chosenCarColor_ok h) as (c & h' & Hc & Hh');
        [now rewrite Hh|].
      rewrite (bind_step _ _ _ _ _ Hc). unfold ret.
      do 2 eexists. split; [reflexivity|congruence].
    - unfold ret. eauto. }
  match goal with
  | |- context [bind (if Rgt_dec ?r ?t then ?m else ?e)] =>
      destruct (HL (fun chosen =>
                      add (mkObject carLeft (CarStructure chosen)
                             (position (carLeftAt cfg i chosen))
                             (rotation (carLeftAt cfg i chosen)))
                        (add (rLineAt cfg i) (add (lLineAt cfg i) group)))
                  (add (rLineAt cfg i) (add (lLineAt cfg i) group))
                  (if Rgt_dec r t then true else false) g1 eq_refl)
        as (grp1 & g2 & H1 & D1)
  end.
  destruct (Rgt_dec (draws g (cursor g)) 0.3);
    rewrite (bind_step _ _ _ _ _ H1);
    rewrite (bind_step _ _ g2 _ _ eq_refl);
    match goal with
    | |- context [Rgt_dec ?r ?t] =>
        destruct (HL (fun chosen =>
                        add (mkObject carRight (CarStructure chosen)
                               (position (carRightAt cfg i chosen))
                               (rotation (carRightAt cfg i chosen))) grp1)
                    grp1 (if Rgt_dec r t then true else false)
                    (mkRandom (draws g2) (S (cursor g2))) D1)
          as (grp2 & g3 & H2 & D2);
        destruct (Rgt_dec r t); eauto
    end.
Qed.

Lemma coachBay_ok (i : nat) (group : list Object3D) (g : Random) :
  unitDraws (draws g) ->
  exists group' g',
    coachBay cfg i group g = Ok (group', g') /\ draws g' = draws g.
Proof.
  intros Hd. unfold coachBay. cbn zeta.
  rewrite (bind_step _ _ g _ _ eq_refl).
  destruct (Rgt_dec (draws g (cursor g)) 0.4).
  - destruct Hcolors as [_ Hcoach].
    destruct (randomColor_ok (Coach.colors (coach_ (parking cfg)))
                (mkRandom (draws g) (S (cursor g))) Hcoach (Hd _))
      as [c Hc].
    rewrite (bind_step _ _ _ _ _ Hc). unfold ret. eauto.
  - unfold ret. eauto.
Qed.

Lemma forEach_ok (body : nat -> list Object3D -> JS (list Object3D)) :
  (forall i group g,
      unitDraws (draws g) ->
      exists group' g', body i group g = Ok (group', g')
                        /\ draws g' = draws g) ->
  forall idx group g,
    unitDraws (draws g) ->
    exists group' g', forEach idx body group g = Ok (group', g')
                      /\ draws g' = draws g.
Proof.
  intros Hbody. induction idx as [|i idx IH]; intros group g Hd.
  - cbn. unfold ret. eauto.
  - destruct (Hbody i group g Hd) as (group1 & g1 & H1 & D1).
    destruct (IH group1 g1) as (group2 & g2 & H2 & D2);
      [now rewrite D1|].
    cbn [forEach]. rewrite (bind_step _ _ _ _ _ H1).
    exists group2, g2. split; [exact H2|congruence].
Qed.

(** With colour tables to choose from and draws in [0, 1), the function
    returns a group. *)
Lemma generateParkingOf_ok (nb nc : nat) (g : Random) :
  unitDraws (draws g) ->
  exists group g', generateParkingOf cfg nb nc g = Ok (group, g').
Proof.
  intros Hd. unfold generateParkingOf, forM. cbn zeta.
  destruct (forEach_ok (carBay cfg) carBay_ok (seq 0 nb) [] g Hd)
    as (cars & g1 & H1 & D1).
  destruct (forEach_ok (coachBay cfg) coachBay_ok (seq 0 nc) cars g1)
    as (all & g2 & H2 & D2); [now rewrite D1|].
  rewrite (bind_step _ _ _ _ _ H1), (bind_step _ _ _ _ _ H2).
  unfold ret. eauto.
Qed.

Lemma generateParking_ok (g : Random) :
  unitDraws (draws g) ->
  exists group g', generateParking cfg g = Ok (group, g').
Proof. apply generateParkingOf_ok. Qed.

End Totality.

(** ** Reading a laid-out group *)

Lemma layout_named (bay : nat -> list Object3D -> Prop) (nm : Name)
    (f : nat -> list Object3D) (idx : list nat) (added : list Object3D) :
  (forall i b, bay i b -> named nm b = f i) ->
  layout bay idx added -> named nm added = flat_map f idx.
Proof.
  intros Hf. induction 1 as [|i idx b rest Hb _ IH]; [reflexivity|].
  cbn [flat_map]. now rewrite named_app, (Hf i b Hb), IH.
Qed.

Lemma layout_elem (bay : nat -> list Object3D -> Prop) (idx : list nat)
    (added : list Object3D) (o : Object3D) :
  layout bay idx added -> o ∈ added ->
  exists i b, i ∈ idx /\ bay i b /\ o ∈ b.
Proof.
  induction 1 as [|i idx b rest Hb _ IH]; intros Ho.
  - inversion Ho.
  - apply elem_of_app in Ho as [Ho|Ho].
    + exists i, b. split; [left|auto].
    + destruct (IH Ho) as (j & b' & Hj & Hb' & Ho').
      exists j, b'. split; [now right|auto].
Qed.

Lemma flat_map_singleton {A B : Type} (f : A -> B) (l : list A) :
  flat_map (fun a => [f a]) l = map f l.
Proof. induction l as [|a l IH]; [reflexivity|]. cbn. now rewrite IH. Qed.

Lemma flat_map_nil {A B : Type} (l : list A) :
  flat_map (fun _ => @nil B) l = [].
Proof. induction l as [|a l IH]; [reflexivity|exact IH]. Qed.

Section ReadingBays.

Variable cfg : Config.

Lemma named_carBay (i : nat) (b : list Object3D) :
  carBayShape cfg i b ->
  named lLine b = [lLineAt cfg i] /\ named rLine b = [rLineAt cfg i]
  /\ named coachLine b = [] /\ named coach b = [].
Proof.
  intros (vsL & vsR & -> & HL & HR).
  destruct HL as [->|[cl ->]], HR as [->|[cr ->]]; repeat split; reflexivity.
Qed.

Lemma named_coachBay (i : nat) (b : list Object3D) :
  coachBayShape cfg i b ->
  named coachLine b = [coachLineAt cfg i]
  /\ named lLine b = [] /\ named rLine b = []
  /\ named carLeft b = [] /\ named carRight b = [].
Proof.
  intros [->|[c ->]]; repeat split; reflexivity.
Qed.

Lemma elem_carBay (i : nat) (b : list Object3D) (o : Object3D) :
  carBayShape cfg i b -> o ∈ b ->
  o = lLineAt cfg i \/ o = rLineAt cfg i
  \/ (exists c, o = carLeftAt cfg i c) \/ (exists c, o = carRightAt cfg i c).
Proof.
  intros (vsL & vsR & -> & HL & HR) Ho.
  apply elem_of_app in Ho as [Ho|Ho].
  { apply elem_of_cons in Ho as [->|Ho]; [auto|].
    apply list_elem_of_singleton in Ho as ->. auto. }
  apply elem_of_app in Ho as [Ho|Ho].
  - destruct HL as [->|[c ->]]; [inversion Ho|].
    apply list_elem_of_singleton in Ho as ->. eauto.
  - destruct HR as [->|[c ->]]; [inversion Ho|].
    apply list_elem_of_singleton in Ho as ->. eauto 6.
Qed.

Lemma elem_coachBay (i : nat) (b : list Object3D) (o : Object3D) :
  coachBayShape cfg i b -> o ∈ b ->
  o = coachLineAt cfg i \/ exists c, o = coachAt cfg i c.
Proof.
  intros [->|[c ->]] Ho.
  - apply list_elem_of_singleton in Ho as ->. auto.
  - apply elem_of_cons in Ho as [->|Ho]; [auto|].
    apply list_elem_of_singleton in Ho as ->. eauto.
Qed.

(** The dividers of the group, row by row, in bay order, for any number
    of passes of the two loops. *)
Lemma dividersOf (nb nc : nat) (g g' : Random) (group : list Object3D) :
  generateParkingOf cfg nb nc g = Ok (group, g') ->
  named lLine group = map (lLineAt cfg) (seq 0 nb)
  /\ named rLine group = map (rLineAt cfg) (seq 0 nb)
  /\ named coachLine group = map (coachLineAt cfg) (seq 0 nc).
Proof.
  intros Hrun.
  destruct (generateParkingOf_layout cfg nb nc g g' group Hrun)
    as (cars & coaches & -> & Hcars & Hcoaches).
  rewrite !named_app.
  rewrite (layout_named _ lLine (fun i => [lLineAt cfg i]) _ _
             (fun i b H => proj1 (named_carBay i b H)) Hcars).
  rewrite (layout_named _ rLine (fun i => [rLineAt cfg i]) _ _
             (fun i b H => proj1 (proj2 (named_carBay i b H))) Hcars).
  rewrite (layout_named _ coachLine (fun _ => []) _ _
             (fun i b H => proj1 (proj2 (proj2 (named_carBay i b H))))
             Hcars).
  rewrite (layout_named _ lLine (fun _ => []) _ _
             (fun i b H => proj1 (proj2 (named_coachBay i b H))) Hcoaches).
  rewrite (layout_named _ rLine (fun _ => []) _ _
             (fun i b H => proj1 (proj2 (proj2 (named_coachBay i b H))))
             Hcoaches).
  rewrite (layout_named _ coachLine (fun i => [coachLineAt cfg i]) _ _
             (fun i b H => proj1 (named_coachBay i b H)) Hcoaches).
  rewrite !flat_map_singleton, !flat_map_nil, !app_nil_r. cbn [app].
  auto.
Qed.

(** Every vehicle of the group is the vehicle of one of its bays, for any
    number of passes of the two loops. *)
Lemma vehiclesOf (nb nc : nat) (g g' : Random) (group : list Object3D)
    (o : Object3D) :
  generateParkingOf cfg nb nc g = Ok (group, g') ->
  o ∈ group ->
  (name o = carLeft -> exists i c, (i < nb)%nat /\ o = carLeftAt cfg i c)
  /\ (name o = carRight ->
      exists i c, (i < nb)%nat /\ o = carRightAt cfg i c)
  /\ (name o = coach -> exists i c, (i < nc)%nat /\ o = coachAt cfg i c).
Proof.
  intros Hrun.
  destruct (generateParkingOf_layout cfg nb nc g g' group Hrun)
    as (cars & coaches & -> & Hcars & Hcoaches).
  intros [Ho|Ho]%elem_of_app.
  - destruct (layout_elem _ _ _ _ Hcars Ho) as (i & b & Hi & Hb & Hob).
    apply elem_of_seq in Hi.
    destruct (elem_carBay i b o Hb Hob)
      as [->|[->|[[c ->]|[c ->]]]]; repeat split; try discriminate.
    + intros _. exists i, c. split; [lia|reflexivity].
    + intros _. exists i, c. split; [lia|reflexivity].
  - destruct (layout_elem _ _ _ _ Hcoaches Ho) as (i & b & Hi & Hb & Hob).
    apply elem_of_seq in Hi.
    destruct (elem_coachBay i b o Hb Hob) as [->|[c ->]];
      repeat split; try discriminate.
    intros _; exists i, c; split; [lia|reflexivity].
Qed.

Variables (g g' : Random) (group : list Object3D).
Hypothesis Hrun : generateParking cfg g = Ok (group, g').

Local Abbreviation bays := (seq 0 (Z.to_nat (numBays cfg))).
Local Abbreviation coachBays := (seq 0 (Z.to_nat (numCoachBays cfg))).

Lemma dividers :
  named lLine group = map (lLineAt cfg) bays
  /\ named rLine group = map (rLineAt cfg) bays
  /\ named coachLine group = map (coachLineAt cfg) coachBays.
Proof. exact (dividersOf _ _ g g' group Hrun). Qed.

(** Every vehicle of the group is the vehicle of one of its bays. *)
Lemma vehicles (o : Object3D) :
  o ∈ group ->
  (name o = carLeft ->
   exists i c, (i < Z.to_nat (numBays cfg))%nat /\ o = carLeftAt cfg i c)
  /\ (name o = carRight ->
      exists i c, (i < Z.to_nat (numBays cfg))%nat /\ o = carRightAt cfg i c)
  /\ (name o = coach ->
      exists i c, (i < Z.to_nat (numCoachBays cfg))%nat
                  /\ o = coachAt cfg i c).
Proof. exact (vehiclesOf _ _ g g' group o Hrun). Qed.

End ReadingBays.

(** ** Bay pitch and bay count *)

Lemma sin_degrees_pos (a : R) : 0 < a < 90 -> 0 < sin (a * (PI / 180)).
Proof.
  intros Ha. pose proof PI_RGT_0. apply sin_gt_0; nra.
Qed.

Lemma sqrt2_bounds : 1.414 < sqrt 2 < 1.4143.
Proof.
  assert (Hlo : sqrt (1.414 * 1.414) < sqrt 2) by (apply sqrt_lt_1; lra).
  assert (Hhi : sqrt 2 < sqrt (1.4143 * 1.4143)) by (apply sqrt_lt_1; lra).
  rewrite sqrt_square in Hlo, Hhi by lra. split; assumption.
Qed.

Lemma zSpacing_CONFIG : zSpacing CONFIG = 2.4 * sqrt 2.
Proof.
  unfold zSpacing, bayW, angleRad. cbn.
  replace (45 * (PI / 180)) with (PI / 4) by lra.
  rewrite sin_PI4. pose proof sqrt2_bounds. field. lra.
Qed.

Lemma coachZSpacing_CONFIG : coachZSpacing CONFIG = 7.
Proof.
  unfold coachZSpacing, coachW, coachAngle. cbn.
  replace (30 * (PI / 180)) with (PI / 6) by lra.
  rewrite sin_PI6. lra.
Qed.

Lemma numBays_CONFIG : numBays CONFIG = 27%Z.
Proof.
  unfold numBays. rewrite zSpacing_CONFIG. cbn.
  pose proof sqrt2_bounds as [Hlo Hhi].
  assert (E : 96 / (2.4 * sqrt 2) = 20 * sqrt 2).
  { assert (S2 : sqrt 2 * sqrt 2 = 2) by (apply sqrt_sqrt; lra).
    apply (Rmult_eq_reg_r (2.4 * sqrt 2)); [|lra].
    unfold Rdiv. rewrite Rmult_assoc, Rinv_l by lra.
    replace (20 * sqrt 2 * (2.4 * sqrt 2)) with (48 * (sqrt 2 * sqrt 2))
      by lra.
    rewrite S2. lra. }
  rewrite E, (Zfloor_eq 28); [reflexivity|]. cbn. lra.
Qed.


Lemma validParking_CONFIG : validParking (parking CONFIG).
Proof. unfold validParking. cbn. lra. Qed.

Lemma colorsPresent_CONFIG : colorsPresent CONFIG.
Proof. split; cbn; discriminate. Qed.

Lemma unitDraws_halves : unitDraws (draws halves).
Proof. intros k. cbn. lra. Qed.

Lemma denotes_CONFIG_94 : denotes CONFIG64_94 CONFIG_94.
Proof.
  unfold denotes, CONFIG64_94, CONFIG_94, CONFIG.
  cbn [length64 columnSpacing64 carWidth64 carAngle64 coachWidth64
         coachAngle64 structure parking car coach_ Structure.length
         Structure.columnSpacing Car.width Car.angle Coach.width Coach.angle].
  repeat (split; [near_value|]). near_value.
Qed.

Lemma numBays64_CONFIG :
  Double.passes (numBays64 engineSin CONFIG64) = Some 27%nat
  /\ Double.passes (numCoachBays64 engineSin CONFIG64) = Some 12%nat.
Proof. split; vm_compute; reflexivity. Qed.

Lemma numBays64_CONFIG_94 :
  Double.passes (numBays64 engineSin CONFIG64_94) = Some 26%nat
  /\ Double.passes (numCoachBays64 engineSin CONFIG64_94) = Some 11%nat.
Proof. split; vm_compute; reflexivity. Qed.

Lemma numCoachBays_CONFIG_94 : numCoachBays CONFIG_94 = 12%Z.
Proof.
  unfold numCoachBays.
  change (coachZSpacing CONFIG_94) with (coachZSpacing CONFIG).
  rewrite coachZSpacing_CONFIG. cbn.
  apply Zfloor_eq. cbn. lra.
Qed.

(** C3, as the code has it: on a run that returns, with both angles
    strictly between 0 and 90 degrees, successive dividers of a row are
    [width / sin angleRad] apart along the aisle, and a row has as many
    dividers as the loop up to
    [Math.floor(availableLength / bayPitch) - marginBays] has passes, with
    [availableLength = length] and [marginBays = 1] for cars, [length - 10]
    and 0 for coaches, that bound being computed in binary64 with the sine
    of the engine; for [CONFIG] the car pitch is 3.394 to three places. *)
Theorem bay_pitch_and_bay_count :
  (forall (Math_sin : Double.t -> Double.t) (cfg : Config) (b : Bounds64)
          (run : JS (list Object3D)) (g g' : Random)
          (group : list Object3D),
      validParking (parking cfg) ->
      denotes b cfg ->
      generateParking64 Math_sin b cfg = Some run ->
      run g = Ok (group, g') ->
      let carPitch :=
        Car.width (car (parking cfg))
        / sin (Car.angle (car (parking cfg)) * (PI / 180)) in
      let coachPitch :=
        Coach.width (coach_ (parking cfg))
        / sin (Coach.angle (coach_ (parking cfg)) * (PI / 180)) in
      exists nb nc : nat,
        Double.passes (numBays64 Math_sin b) = Some nb
        /\ Double.passes (numCoachBays64 Math_sin b) = Some nc
        /\ 0 < carPitch /\ 0 < coachPitch
        /\ named lLine group = map (lLineAt cfg) (seq 0 nb)
        /\ named rLine group = map (rLineAt cfg) (seq 0 nb)
        /\ named coachLine group = map (coachLineAt cfg) (seq 0 nc)
        /\ length (named lLine group) = nb
        /\ length (named rLine group) = nb
        /\ length (named coachLine group) = nc
        /\ (forall i, z (position (lLineAt cfg (S i)))
                      - z (position (lLineAt cfg i)) = carPitch)
        /\ (forall i, z (position (rLineAt cfg (S i)))
                      - z (position (rLineAt cfg i)) = carPitch)
        /\ (forall i, z (position (coachLineAt cfg (S i)))
                      - z (position (coachLineAt cfg i)) = coachPitch))
  /\ Rabs (zSpacing CONFIG - 3.394) < 0.0005.
Proof.
  split.
  - intros Math_sin cfg b run g g' group (Hcw & Hca & Hbw & Hba) Hb
      Hrun64 Hrun carPitch coachPitch.
    unfold generateParking64 in Hrun64.
    destruct (Double.passes (numBays64 Math_sin b)) as [nb|];
      [|discriminate].
    destruct (Double.passes (numCoachBays64 Math_sin b)) as [nc|];
      [|discriminate].
    injection Hrun64 as <-. exists nb, nc.
    destruct (dividersOf cfg nb nc g g' group Hrun) as (HL & HR & HC).
    change carPitch with (zSpacing cfg).
    change coachPitch with (coachZSpacing cfg).
    rewrite HL, HR, HC, !length_map, !length_seq.
    repeat split; try reflexivity.
    + apply Rdiv_lt_0_compat; [exact Hcw|now apply sin_degrees_pos].
    + apply Rdiv_lt_0_compat; [exact Hbw|now apply sin_degrees_pos].
    + intros i. cbn [lLineAt createBoxLine position z]. rewrite S_INR. lra.
    + intros i. cbn [rLineAt createBoxLine position z]. rewrite S_INR. lra.
    + intros i. unfold coachLineAt, setMaterial.
      cbn [createBoxLine shape position z]. rewrite S_INR. lra.
  - rewrite zSpacing_CONFIG. pose proof sqrt2_bounds.
    apply Rabs_def1; lra.
Qed.

Lemma bay_pitch_and_bay_count_witness :
  validParking (parking CONFIG)
  /\ denotes CONFIG64 CONFIG
  /\ generateParking64 engineSin CONFIG64 CONFIG
     = Some (generateParkingOf CONFIG 27 12)
  /\ exists group g',
       generateParkingOf CONFIG 27 12 halves = Ok (group, g')
       /\ length (named lLine group) = 27%nat
       /\ length (named coachLine group) = 12%nat.
Proof.
  assert (Hrun64 : generateParking64 engineSin CONFIG64 CONFIG
                   = Some (generateParkingOf CONFIG 27 12)).
  { unfold generateParking64. destruct numBays64_CONFIG as [-> ->].
    reflexivity. }
  split; [exact validParking_CONFIG|]. split; [exact denotes_CONFIG|].
  split; [exact Hrun64|].
  destruct (generateParkingOf_ok CONFIG colorsPresent_CONFIG 27 12 halves
              unitDraws_halves) as (group & g' & Hrun).
  exists group, g'. split; [exact Hrun|].
  destruct bay_pitch_and_bay_count as [Hgen _].
  destruct (Hgen engineSin CONFIG CONFIG64 _ halves g' group
              validParking_CONFIG denotes_CONFIG Hrun64 Hrun)
    as (nb & nc & Hnb & Hnc & _ & _ & _ & _ & _ & HnL & _ & HnC & _).
  destruct numBays64_CONFIG as [E1 E2].
  rewrite E1 in Hnb. rewrite E2 in Hnc.
  injection Hnb as <-. injection Hnc as <-. auto.
Defined.

(** C3 as the specification words it fails: the bay count follows the
    quotient as binary64 rounds it.  With a structure 94 long the coach
    pitch is 7 and [floor ((94 - 10) / 7) - 0] is 12; the script, where the
    sine of 30 degrees is the number next below 1/2, the pitch the number
    next above 7 and the quotient a number below 12, lays out 11 coach
    dividers. *)
Lemma bay_count_counterexample :
  validParking (parking CONFIG_94)
  /\ denotes CONFIG64_94 CONFIG_94
  /\ (Zfloor ((Structure.length (structure CONFIG_94) - 10)
              / (Coach.width (coach_ (parking CONFIG_94))
                 / sin (Coach.angle (coach_ (parking CONFIG_94))
                        * (PI / 180)))) - 0 = 12)%Z
  /\ exists run group g',
       generateParking64 engineSin CONFIG64_94 CONFIG_94 = Some run
       /\ run halves = Ok (group, g')
       /\ length (named coachLine group) = 11%nat.
Proof.
  split; [exact validParking_CONFIG|]. split; [exact denotes_CONFIG_94|].
  split.
  { rewrite Z.sub_0_r. exact numCoachBays_CONFIG_94. }
  assert (Hc : colorsPresent CONFIG_94) by (split; cbn; discriminate).
  destruct (generateParkingOf_ok CONFIG_94 Hc 26 11 halves unitDraws_halves)
    as (group & g' & Hrun).
  exists (generateParkingOf CONFIG_94 26 11), group, g'.
  split; [|split; [exact Hrun|]].
  - unfold generateParking64. destruct numBays64_CONFIG_94 as [-> ->].
    reflexivity.
  - destruct (dividersOf CONFIG_94 26 11 halves g' group Hrun)
      as (_ & _ & ->).
    rewrite length_map, length_seq. reflexivity.
Qed.

(** ** Dividers and vehicles of a bay *)

Lemma Rabs_rotR : Rabs (- PI / 4) = PI / 4.
Proof.
  pose proof PI_RGT_0.
  replace (- PI / 4) with (- (PI / 4)) by lra.
  rewrite Rabs_Ropp. apply Rabs_pos_eq. lra.
Qed.

Lemma lookup_map_seq {A : Type} (f : nat -> A) (n i : nat) :
  (i < n)%nat -> map f (seq 0 n) !! i = Some (f i).
Proof.
  intros Hi. change (map f (seq 0 n)) with (f <$> seq 0 n).
  rewrite list_lookup_fmap, lookup_seq_lt by exact Hi. reflexivity.
Qed.



(** ** The trials of the bays *)

Section Trials.

Variable cfg : Config.

Lemma carLeftAt_inj (i j : nat) (c c' : Z) :
  zSpacing cfg <> 0 ->
  position (carLeftAt cfg i c) = position (carLeftAt cfg j c') -> i = j.
Proof.
  intros Hz H. apply (f_equal z) in H. cbn [carLeftAt position z] in H.
  apply INR_eq. apply (Rmult_eq_reg_r (zSpacing cfg)); [lra|exact Hz].
Qed.

Lemma carRightAt_inj (i j : nat) (c c' : Z) :
  zSpacing cfg <> 0 ->
  position (carRightAt cfg i c) = position (carRightAt cfg j c') -> i = j.
Proof.
  intros Hz H. apply (f_equal z) in H. cbn [carRightAt position z] in H.
  apply INR_eq. apply (Rmult_eq_reg_r (zSpacing cfg)); [lra|exact Hz].
Qed.

Lemma coachAt_inj (i j : nat) (c c' : Z) :
  coachZSpacing cfg <> 0 ->
  position (coachAt cfg i c) = position (coachAt cfg j c') -> i = j.
Proof.
  intros Hz H. apply (f_equal z) in H. cbn [coachAt position z] in H.
  apply INR_eq. apply (Rmult_eq_reg_r (coachZSpacing cfg)); [lra|exact Hz].
Qed.

(** One pass of the car loop that returns: the left car is there exactly
    when the number taken first exceeded 0.3, the right car exactly when
    a number taken later in the pass did. *)
Lemma carBay_trials (i : nat) (group group' : list Object3D)
    (g g' : Random) :
  carBay cfg i group g = Ok (group', g') ->
  exists vsL vsR kR,
    group' = group ++ [lLineAt cfg i; rLineAt cfg i] ++ vsL ++ vsR
    /\ draws g' = draws g
    /\ (cursor g < kR < cursor g')%nat
    /\ ((~ draws g (cursor g) > 0.3 /\ vsL = [])
        \/ (draws g (cursor g) > 0.3 /\ exists c, vsL = [carLeftAt cfg i c]))
    /\ ((~ draws g kR > 0.3 /\ vsR = [])
        \/ (draws g kR > 0.3 /\ exists c, vsR = [carRightAt cfg i c])).
Proof.
  unfold carBay. cbn zeta.
  intros (r & g1 & (-> & ->)%Math_random_Ok & H)%bind_Ok.
  apply bind_Ok in H as (group1 & g2 & HL & H).
  apply bind_Ok in H as (r' & g3 & (-> & ->)%Math_random_Ok & HR).
  assert (HL' : exists vsL,
             group1 = group ++ [lLineAt cfg i; rLineAt cfg i] ++ vsL
             /\ draws g2 = draws g /\ (S (cursor g) <= cursor g2)%nat
             /\ ((~ draws g (cursor g) > 0.3 /\ vsL = [])
                 \/ (draws g (cursor g) > 0.3
                     /\ exists c, vsL = [carLeftAt cfg i c]))).
  { destruct (Rgt_dec (draws g (cursor g)) 0.3) as [Hgt|Hle].
    - apply bind_Ok in HL as (c & g1' & Hc & Hret).
      apply ret_Ok in Hret as [-> ->].
      destruct (takes_state _ _ _ (takes_chosenCarColor cfg) _ _ _ Hc)
        as [Hd Hcur]. cbn [draws cursor] in Hd, Hcur.
      exists [carLeftAt cfg i c].
      split; [unfold add; rewrite <- !app_assoc; reflexivity|].
      split; [exact Hd|]. split; [lia|]. right; eauto.
    - apply ret_Ok in HL as [-> ->].
      exists []. split; [unfold add; rewrite <- !app_assoc; reflexivity|].
      split; [reflexivity|]. split; [cbn; lia|]. left; auto. }
  destruct HL' as (vsL & -> & Hd2 & Hc2 & HvsL).
  exists vsL.
  destruct (Rgt_dec (draws g2 (cursor g2)) 0.3) as [Hgt|Hle].
  - apply bind_Ok in HR as (c & g3' & Hc & Hret).
    apply ret_Ok in Hret as [-> ->].
    destruct (takes_state _ _ _ (takes_chosenCarColor cfg) _ _ _ Hc)
      as [Hd Hcur]. cbn [draws cursor] in Hd, Hcur.
    exists [carRightAt cfg i c], (cursor g2).
    split; [unfold add; rewrite <- !app_assoc; reflexivity|].
    split; [congruence|]. split; [lia|]. split; [exact HvsL|].
    right. rewrite <- Hd2. eauto.
  - apply ret_Ok in HR as [-> ->].
    exists [], (cursor g2).
    split; [now rewrite app_nil_r|].
    split; [exact Hd2|]. split; [cbn [cursor]; lia|]. split; [exact HvsL|].
    left. rewrite <- Hd2. auto.
Qed.

Lemma coachBay_trials (i : nat) (group group' : list Object3D)
    (g g' : Random) :
  coachBay cfg i group g = Ok (group', g') ->
  exists vs,
    group' = group ++ coachLineAt cfg i :: vs
    /\ draws g' = draws g
    /\ (cursor g < cursor g')%nat
    /\ ((~ draws g (cursor g) > 0.4 /\ vs = [])
        \/ (draws g (cursor g) > 0.4 /\ exists c, vs = [coachAt cfg i c])).
Proof.
  unfold coachBay. cbn zeta.
  intros (r & g1 & (-> & ->)%Math_random_Ok & H)%bind_Ok.
  destruct (Rgt_dec (draws g (cursor g)) 0.4) as [Hgt|Hle].
  - apply bind_Ok in H as (c & g2 & Hc & Hret).
    apply ret_Ok in Hret as [-> ->].
    destruct (takes_state _ _ _
                (takes_randomColor (Coach.colors (coach_ (parking cfg))))
                _ _ _ Hc) as [Hd Hcur].
    cbn [draws cursor] in Hd, Hcur.
    exists [coachAt cfg i c].
    split; [unfold add; rewrite <- !app_assoc; reflexivity|].
    split; [exact Hd|]. split; [lia|]. right; eauto.
  - apply ret_Ok in H as [-> ->].
    exists []. split; [reflexivity|].
    split; [reflexivity|]. split; [cbn; lia|]. left; auto.
Qed.

(** The car loop: every pass has its own two numbers of the sequence, in
    the order of the passes, and each decides one car. *)
Lemma carLoop_trials (n : nat) :
  zSpacing cfg <> 0 ->
  forall (a : nat) (group group' : list Object3D) (g g' : Random),
    forEach (seq a n) (carBay cfg) group g = Ok (group', g') ->
    exists (added : list Object3D) (kL kR : nat -> nat),
      group' = group ++ added
      /\ draws g' = draws g
      /\ (cursor g <= cursor g')%nat
      /\ layout (carBayShape cfg) (seq a n) added
      /\ forall i, (a <= i < a + n)%nat ->
           (cursor g <= kL i < kR i)%nat /\ (kR i < cursor g')%nat
           /\ (forall j, (i < j < a + n)%nat -> (kR i < kL j)%nat)
           /\ (draws g (kL i) > 0.3 <-> exists c, carLeftAt cfg i c ∈ added)
           /\ (draws g (kR i) > 0.3
               <-> exists c, carRightAt cfg i c ∈ added).
Proof.
  intros Hz. induction n as [|n IH]; intros a group group' g g' Hrun.
  - apply ret_Ok in Hrun as [-> ->].
    exists [], (fun _ => 0%nat), (fun _ => 0%nat).
    split; [now rewrite app_nil_r|]. split; [reflexivity|].
    split; [lia|]. split; [constructor|]. intros i Hi. lia.
  - cbn [seq forEach] in Hrun.
    apply bind_Ok in Hrun as (group1 & g1 & Hbay & Hrest).
    apply carBay_trials in Hbay
      as (vsL & vsR & k0 & -> & Hd1 & Hk0 & HvsL & HvsR).
    apply IH in Hrest
      as (rest & kL & kR & -> & Hd & Hc & Hlay & Hall).
    assert (Hshape : carBayShape cfg a
                       ([lLineAt cfg a; rLineAt cfg a] ++ vsL ++ vsR)).
    { exists vsL, vsR. split; [reflexivity|].
      split; [destruct HvsL as [[_ ->]|[_ H]]; auto
             |destruct HvsR as [[_ ->]|[_ H]]; auto]. }
    assert (Hother : forall (o : Object3D) (i : nat),
              o ∈ rest ->
              (exists c, o = carLeftAt cfg i c)
              \/ (exists c, o = carRightAt cfg i c) ->
              (S a <= i)%nat).
    { intros o i Ho Hi.
      destruct (layout_elem _ _ _ _ Hlay Ho) as (j & b & Hj & Hb & Hob).
      apply elem_of_seq in Hj.
      destruct (elem_carBay cfg j b o Hb Hob)
        as [->|[->|[[c' ->]|[c' ->]]]];
        destruct Hi as [[c E]|[c E]]; try discriminate E.
      - apply (f_equal position) in E.
        apply carLeftAt_inj in E; [lia|exact Hz].
      - apply (f_equal position) in E.
        apply carRightAt_inj in E; [lia|exact Hz]. }
    assert (Hhere : forall (o : Object3D) (i : nat),
              o ∈ [lLineAt cfg a; rLineAt cfg a] ++ vsL ++ vsR ->
              ((exists c, o = carLeftAt cfg i c) -> i = a /\ o ∈ vsL)
              /\ ((exists c, o = carRightAt cfg i c) -> i = a /\ o ∈ vsR)).
    { intros o i Ho.
      assert (Hcases : o = lLineAt cfg a \/ o = rLineAt cfg a
                       \/ o ∈ vsL \/ o ∈ vsR).
      { apply elem_of_app in Ho as [Ho|Ho].
        - apply elem_of_cons in Ho as [->|Ho]; [auto|].
          apply list_elem_of_singleton in Ho as ->. auto.
        - apply elem_of_app in Ho as [Ho|Ho]; auto. }
      split; intros [c ->].
      + destruct Hcases as [E|[E|[Hin|Hin]]]; try discriminate E.
        * split; [|exact Hin].
          destruct HvsL as [[_ ->]|[_ [c' ->]]]; [inversion Hin|].
          apply list_elem_of_singleton in Hin.
          apply (f_equal position) in Hin.
          now apply carLeftAt_inj in Hin.
        * destruct HvsR as [[_ ->]|[_ [c' ->]]]; [inversion Hin|].
          apply list_elem_of_singleton in Hin. discriminate Hin.
      + destruct Hcases as [E|[E|[Hin|Hin]]]; try discriminate E.
        * destruct HvsL as [[_ ->]|[_ [c' ->]]]; [inversion Hin|].
          apply list_elem_of_singleton in Hin. discriminate Hin.
        * split; [|exact Hin].
          destruct HvsR as [[_ ->]|[_ [c' ->]]]; [inversion Hin|].
          apply list_elem_of_singleton in Hin.
          apply (f_equal position) in Hin.
          now apply carRightAt_inj in Hin. }
    exists (([lLineAt cfg a; rLineAt cfg a] ++ vsL ++ vsR) ++ rest),
      (fun i => if decide (i = a) then cursor g else kL i),
      (fun i => if decide (i = a) then k0 else kR i).
    split; [now rewrite <- !app_assoc|].
    split; [congruence|]. split; [lia|].
    split; [now constructor|].
    intros i Hi. destruct (decide (i = a)) as [->|Hne].
    + split; [lia|]. split; [lia|]. split.
      { intros j Hj. destruct (decide (j = a)) as [->|_]; [lia|].
        destruct (Hall j ltac:(lia)) as (Hb & _). lia. }
      split.
      * split.
        -- intros Hgt. destruct HvsL as [[Hle _]|[_ [c ->]]];
             [contradiction|].
           exists c. apply elem_of_app. left.
           apply elem_of_app. right. apply elem_of_app. left. left.
        -- intros [c Hin]. apply elem_of_app in Hin as [Hin|Hin].
           ++ destruct (Hhere _ a Hin) as [HL _].
              destruct (HL (ex_intro _ c eq_refl)) as [_ Hin'].
              destruct HvsL as [[_ ->]|[Hgt _]];
                [inversion Hin'|exact Hgt].
           ++ pose proof (Hother _ a Hin
                            (or_introl (ex_intro _ c eq_refl))). lia.
      * split.
        -- intros Hgt. destruct HvsR as [[Hle _]|[_ [c ->]]];
             [contradiction|].
           exists c. apply elem_of_app. left.
           apply elem_of_app. right. apply elem_of_app. right. left.
        -- intros [c Hin]. apply elem_of_app in Hin as [Hin|Hin].
           ++ destruct (Hhere _ a Hin) as [_ HR].
              destruct (HR (ex_intro _ c eq_refl)) as [_ Hin'].
              destruct HvsR as [[_ ->]|[Hgt _]];
                [inversion Hin'|exact Hgt].
           ++ pose proof (Hother _ a Hin
                            (or_intror (ex_intro _ c eq_refl))). lia.
    + destruct (Hall i ltac:(lia)) as (Hb & Hb' & Hord & HiL & HiR).
      rewrite Hd1 in HiL, HiR.
      split; [lia|]. split; [lia|]. split.
      { intros j Hj. destruct (decide (j = a)) as [->|_]; [lia|].
        apply Hord. lia. }
      split.
      * rewrite HiL. split; intros [c Hin]; exists c.
        -- apply elem_of_app. now right.
        -- apply elem_of_app in Hin as [Hin|Hin]; [|exact Hin].
           destruct (Hhere _ i Hin) as [HL _].
           destruct (HL (ex_intro _ c eq_refl)) as [E _]. contradiction.
      * rewrite HiR. split; intros [c Hin]; exists c.
        -- apply elem_of_app. now right.
        -- apply elem_of_app in Hin as [Hin|Hin]; [|exact Hin].
           destruct (Hhere _ i Hin) as [_ HR].
           destruct (HR (ex_intro _ c eq_refl)) as [E _]. contradiction.
Qed.

(** The coach loop likewise, with one number for every pass. *)
Lemma coachLoop_trials (n : nat) :
  coachZSpacing cfg <> 0 ->
  forall (a : nat) (group group' : list Object3D) (g g' : Random),
    forEach (seq a n) (coachBay cfg) group g = Ok (group', g') ->
    exists (added : list Object3D) (kC : nat -> nat),
      group' = group ++ added
      /\ draws g' = draws g
      /\ (cursor g <= cursor g')%nat
      /\ layout (coachBayShape cfg) (seq a n) added
      /\ forall i, (a <= i < a + n)%nat ->
           (cursor g <= kC i < cursor g')%nat
           /\ (forall j, (i < j < a + n)%nat -> (kC i < kC j)%nat)
           /\ (draws g (kC i) > 0.4 <-> exists c, coachAt cfg i c ∈ added).
Proof.
  intros Hz. induction n as [|n IH]; intros a group group' g g' Hrun.
  - apply ret_Ok in Hrun as [-> ->].
    exists [], (fun _ => 0%nat).
    split; [now rewrite app_nil_r|]. split; [reflexivity|].
    split; [lia|]. split; [constructor|]. intros i Hi. lia.
  - cbn [seq forEach] in Hrun.
    apply bind_Ok in Hrun as (group1 & g1 & Hbay & Hrest).
    apply coachBay_trials in Hbay as (vs & -> & Hd1 & Hk0 & Hvs).
    apply IH in Hrest as (rest & kC & -> & Hd & Hc & Hlay & Hall).
    assert (Hshape : coachBayShape cfg a (coachLineAt cfg a :: vs)).
    { destruct Hvs as [[_ ->]|[_ [c ->]]]; [left|right; eauto];
        reflexivity. }
    assert (Hother : forall (c : Z) (i : nat),
              coachAt cfg i c ∈ rest -> (S a <= i)%nat).
    { intros c i Ho.
      destruct (layout_elem _ _ _ _ Hlay Ho) as (j & b & Hj & Hb & Hob).
      apply elem_of_seq in Hj.
      destruct (elem_coachBay cfg j b _ Hb Hob) as [E|[c' E]];
        [discriminate E|].
      apply (f_equal position) in E.
      apply coachAt_inj in E; [lia|exact Hz]. }
    assert (Hhere : forall (c : Z) (i : nat),
              coachAt cfg i c ∈ coachLineAt cfg a :: vs ->
              i = a /\ coachAt cfg i c ∈ vs).
    { intros c i Hin.
      apply elem_of_cons in Hin as [E|Hin]; [discriminate E|].
      split; [|exact Hin].
      destruct Hvs as [[_ ->]|[_ [c' ->]]]; [inversion Hin|].
      apply list_elem_of_singleton in Hin.
      apply (f_equal position) in Hin.
      now apply coachAt_inj in Hin. }
    exists ((coachLineAt cfg a :: vs) ++ rest),
      (fun i => if decide (i = a) then cursor g else kC i).
    split; [now rewrite <- !app_assoc|].
    split; [congruence|]. split; [lia|].
    split; [now constructor|].
    intros i Hi. destruct (decide (i = a)) as [->|Hne].
    + split; [lia|]. split.
      { intros j Hj. destruct (decide (j = a)) as [->|_]; [lia|].
        destruct (Hall j ltac:(lia)) as (Hb & _). lia. }
      split.
      * intros Hgt. destruct Hvs as [[Hle _]|[_ [c ->]]]; [contradiction|].
        exists c. apply elem_of_app. left. right. left.
      * intros [c Hin]. apply elem_of_app in Hin as [Hin|Hin].
        -- destruct (Hhere _ _ Hin) as [_ Hin'].
           destruct Hvs as [[_ ->]|[Hgt _]]; [inversion Hin'|exact Hgt].
        -- pose proof (Hother _ _ Hin). lia.
    + destruct (Hall i ltac:(lia)) as (Hb & Hord & HiC).
      rewrite Hd1 in HiC.
      split; [lia|]. split.
      { intros j Hj. destruct (decide (j = a)) as [->|_]; [lia|].
        apply Hord. lia. }
      rewrite HiC. split; intros [c Hin]; exists c.
      * apply elem_of_app. now right.
      * apply elem_of_app in Hin as [Hin|Hin]; [|exact Hin].
        destruct (Hhere _ _ Hin) as [E _]. contradiction.
Qed.

End Trials.

(** ** Turning by Euler angles *)

Lemma applyAxisAngle_0 (v axis : Vector3) : applyAxisAngle v axis 0 = v.
Proof.
  unfold applyAxisAngle. rewrite cos_0, sin_0. destruct v as [a b c].
  cbn. f_equal; ring.
Qed.

Lemma applyEuler_Z (v : Vector3) (angle : R) :
  applyEuler v (mkEuler 0 0 angle)
  = applyAxisAngle v (mkVector3 0 0 1) angle.
Proof. unfold applyEuler. cbn. now rewrite !applyAxisAngle_0. Qed.

Lemma applyEuler_Y (a b c angle : R) :
  applyEuler (mkVector3 a b c) (mkEuler 0 angle 0)
  = mkVector3 (a * cos angle + c * sin angle) b
              (c * cos angle - a * sin angle).
Proof.
  unfold applyEuler. cbn [rot_x rot_y rot_z].
  rewrite !applyAxisAngle_0. unfold applyAxisAngle, dot, cross. cbn.
  f_equal; ring.
Qed.

Lemma applyEuler_X (a b c angle : R) :
  applyEuler (mkVector3 a b c) (mkEuler angle 0 0)
  = mkVector3 a (b * cos angle - c * sin angle)
              (b * sin angle + c * cos angle).
Proof.
  unfold applyEuler. cbn [rot_x rot_y rot_z].
  rewrite !applyAxisAngle_0. unfold applyAxisAngle, dot, cross. cbn.
  f_equal; ring.
Qed.

Lemma validParking_spacings (cfg : Config) :
  validParking (parking cfg) ->
  0 < zSpacing cfg /\ 0 < coachZSpacing cfg.
Proof.
  intros (Hcw & Hca & Hbw & Hba). split.
  - apply Rdiv_lt_0_compat; [exact Hcw|now apply sin_degrees_pos].
  - apply Rdiv_lt_0_compat; [exact Hbw|now apply sin_degrees_pos].
Qed.

Section Anchors.

Variable cfg : Config.

Lemma position_carLeftAt (i : nat) (c : Z) :
  position (carLeftAt cfg i c) = anchorL cfg i.
Proof.
  unfold carLeftAt, anchorL, pivotL, dirL, axisZ, vadd, vscale.
  cbn [position x y z]. f_equal; lra.
Qed.

Lemma position_carRightAt (i : nat) (c : Z) :
  position (carRightAt cfg i c) = anchorR cfg i.
Proof.
  unfold carRightAt, anchorR, pivotR, dirR, axisZ, vadd, vscale.
  cbn [position x y z]. rewrite Rabs_rotR. f_equal; lra.
Qed.

Lemma position_coachAt (i : nat) (c : Z) :
  0 <= coachAngle cfg ->
  position (coachAt cfg i c) = anchorCoach cfg i.
Proof.
  intros Ha.
  assert (Habs : Rabs (- coachAngle cfg) = coachAngle cfg)
    by (rewrite Rabs_Ropp; now apply Rabs_pos_eq).
  unfold coachAt, anchorCoach, pivotCoach, dirCoach, normalCoach, vadd,
    vscale.
  cbn [position x y z]. rewrite Habs. f_equal; lra.
Qed.

End Anchors.

(** C9, as the code has it.  Every vehicle of the group belongs to a bay
    and is turned by [PI] from the divider of that bay; a car is at the
    pivot moved half a bay pitch along the aisle, then 2.4 along the
    direction from the pivot to the centre of the divider; a coach is at
    the centre of its divider (the pivot moved half the coach length along
    that direction), moved half the coach width along [normalCoach].  And
    every trial consults a number of the generator of its own, the trials
    in the order of the loops: the vehicle of a bay and row is parked at
    its anchor exactly when that number exceeds 0.3 (0.4 for a coach). *)
Theorem vehicle_anchor_and_rotation (cfg : Config) (nb nc : nat)
    (g g' : Random) (group : list Object3D) :
  validParking (parking cfg) ->
  generateParkingOf cfg nb nc g = Ok (group, g') ->
  (forall o : Object3D,
      o ∈ group ->
      (name o = carLeft ->
       exists i d,
         (i < nb)%nat
         /\ named lLine group !! i = Some d
         /\ position d = vadd (pivotL cfg i) (vscale (bayL cfg / 2) dirL)
         /\ position o = anchorL cfg i
         /\ rot_y (rotation o) = rot_y (rotation d) + PI)
      /\ (name o = carRight ->
          exists i d,
            (i < nb)%nat
            /\ named rLine group !! i = Some d
            /\ position d = vadd (pivotR cfg i) (vscale (bayL cfg / 2) dirR)
            /\ position o = anchorR cfg i
            /\ rot_y (rotation o) = rot_y (rotation d) + PI)
      /\ (name o = coach ->
          exists i d,
            (i < nc)%nat
            /\ named coachLine group !! i = Some d
            /\ position d
               = vadd (pivotCoach cfg i)
                   (vscale (coachL cfg / 2) (dirCoach cfg))
            /\ position o = anchorCoach cfg i
            /\ rot_y (rotation o) = rot_y (rotation d) + PI))
  /\ exists kL kR kC : nat -> nat,
       (forall i, (i < nb)%nat ->
          (cursor g <= kL i < kR i)%nat
          /\ (forall j, (i < j < nb)%nat -> (kR i < kL j)%nat)
          /\ (forall j, (j < nc)%nat -> (kR i < kC j)%nat)
          /\ (draws g (kL i) > 0.3
              <-> parkedAt carLeft (anchorL cfg i) group)
          /\ (draws g (kR i) > 0.3
              <-> parkedAt carRight (anchorR cfg i) group))
       /\ (forall i, (i < nc)%nat ->
             (cursor g <= kC i)%nat
             /\ (forall j, (i < j < nc)%nat -> (kC i < kC j)%nat)
             /\ (draws g (kC i) > 0.4
                 <-> parkedAt coach (anchorCoach cfg i) group)).
Proof.
  intros Hvalid Hrun.
  destruct (validParking_spacings cfg Hvalid) as [Hz Hcz].
  destruct Hvalid as (_ & _ & _ & Hba).
  assert (Ha : 0 <= coachAngle cfg)
    by (unfold coachAngle; pose proof PI_RGT_0; nra).
  assert (Habs : Rabs (- coachAngle cfg) = coachAngle cfg)
    by (rewrite Rabs_Ropp; now apply Rabs_pos_eq).
  destruct (dividersOf cfg nb nc g g' group Hrun) as (HL & HR & HC).
  pose proof (vehiclesOf cfg nb nc g g' group) as Hveh.
  split.
  - intros o Ho. destruct (Hveh o Hrun Ho) as (VL & VR & VC).
    repeat split.
    + intros (i & c & Hi & ->)%VL. exists i, (lLineAt cfg i).
      rewrite HL, lookup_map_seq, position_carLeftAt by exact Hi.
      unfold lLineAt, carLeftAt, createBoxLine, pivotL, dirL, vadd, vscale.
      cbn [position rotation x y z rot_y].
      repeat split; try exact Hi; try reflexivity; try (f_equal; lra).
    + intros (i & c & Hi & ->)%VR. exists i, (rLineAt cfg i).
      rewrite HR, lookup_map_seq, position_carRightAt by exact Hi.
      unfold rLineAt, carRightAt, createBoxLine, pivotR, dirR, vadd, vscale.
      cbn [position rotation x y z rot_y]. rewrite Rabs_rotR.
      repeat split; try exact Hi; try reflexivity; try (f_equal; lra).
    + intros (i & c & Hi & ->)%VC. exists i, (coachLineAt cfg i).
      rewrite HC, lookup_map_seq, position_coachAt by assumption.
      unfold coachLineAt, coachAt, setMaterial, createBoxLine, pivotCoach,
        dirCoach, vadd, vscale.
      cbn [shape name position rotation x y z rot_y]. rewrite Habs.
      repeat split; try exact Hi; try reflexivity; try (f_equal; lra).
  - revert Hrun Hveh. unfold generateParkingOf, forM. cbn zeta.
    intros Hrun Hveh.
    pose proof Hrun as Hrun'.
    apply bind_Ok in Hrun' as (cars & g1 & H1 & H2).
    apply bind_Ok in H2 as (all & g2 & H2 & Hret).
    apply ret_Ok in Hret as [-> ->].
    apply (carLoop_trials cfg nb ltac:(lra)) in H1
      as (added & kL & kR & -> & Hd1 & Hc1 & Hlay1 & Hall1).
    apply (coachLoop_trials cfg nc ltac:(lra)) in H2
      as (coaches & kC & -> & Hd2 & Hc2 & Hlay2 & Hall2).
    cbn [app] in *.
    assert (HinL : forall i,
               (exists c, carLeftAt cfg i c ∈ added)
               <-> parkedAt carLeft (anchorL cfg i) (added ++ coaches)).
    { intros i. split.
      - intros [c Hin]. exists (carLeftAt cfg i c).
        split; [apply elem_of_app; now left|].
        split; [reflexivity|apply position_carLeftAt].
      - intros (o & Ho & Hname & Hpos).
        destruct (Hveh o Hrun Ho) as (VL & _).
        destruct (VL Hname) as (j & c & _ & ->).
        rewrite <- (position_carLeftAt cfg i c) in Hpos.
        apply carLeftAt_inj in Hpos as ->; [|lra].
        exists c. apply elem_of_app in Ho as [Ho|Ho]; [exact Ho|].
        destruct (layout_elem _ _ _ _ Hlay2 Ho) as (k & b & _ & Hb & Hob).
        destruct (elem_coachBay cfg k b _ Hb Hob) as [E|[c' E]];
          discriminate E. }
    assert (HinR : forall i,
               (exists c, carRightAt cfg i c ∈ added)
               <-> parkedAt carRight (anchorR cfg i) (added ++ coaches)).
    { intros i. split.
      - intros [c Hin]. exists (carRightAt cfg i c).
        split; [apply elem_of_app; now left|].
        split; [reflexivity|apply position_carRightAt].
      - intros (o & Ho & Hname & Hpos).
        destruct (Hveh o Hrun Ho) as (_ & VR & _).
        destruct (VR Hname) as (j & c & _ & ->).
        rewrite <- (position_carRightAt cfg i c) in Hpos.
        apply carRightAt_inj in Hpos as ->; [|lra].
        exists c. apply elem_of_app in Ho as [Ho|Ho]; [exact Ho|].
        destruct (layout_elem _ _ _ _ Hlay2 Ho) as (k & b & _ & Hb & Hob).
        destruct (elem_coachBay cfg k b _ Hb Hob) as [E|[c' E]];
          discriminate E. }
    assert (HinC : forall i,
               (exists c, coachAt cfg i c ∈ coaches)
               <-> parkedAt coach (anchorCoach cfg i) (added ++ coaches)).
    { intros i. split.
      - intros [c Hin]. exists (coachAt cfg i c).
        split; [apply elem_of_app; now right|].
        split; [reflexivity|now apply position_coachAt].
      - intros (o & Ho & Hname & Hpos).
        destruct (Hveh o Hrun Ho) as (_ & _ & VC).
        destruct (VC Hname) as (j & c & _ & ->).
        rewrite <- (position_coachAt cfg i c Ha) in Hpos.
        apply coachAt_inj in Hpos as ->; [|lra].
        exists c. apply elem_of_app in Ho as [Ho|Ho]; [|exact Ho].
        destruct (layout_elem _ _ _ _ Hlay1 Ho) as (k & b & _ & Hb & Hob).
        destruct (elem_carBay cfg k b _ Hb Hob)
          as [E|[E|[[c' E]|[c' E]]]]; discriminate E. }
    exists kL, kR, kC. split.
    + intros i Hi.
      destruct (Hall1 i ltac:(lia)) as (Hb & Hb' & Hord & HiL & HiR).
      split; [exact Hb|]. split; [intros j Hj; apply Hord; lia|].
      split.
      { intros j Hj. destruct (Hall2 j ltac:(lia)) as (Hbc & _). lia. }
      rewrite <- HinL, <- HinR. split; assumption.
    + intros i Hi.
      destruct (Hall2 i ltac:(lia)) as (Hb & Hord & HiC).
      rewrite Hd1 in HiC.
      split; [lia|]. split; [intros j Hj; apply Hord; lia|].
      rewrite <- HinC. exact HiC.
Qed.

Lemma vehicle_anchor_and_rotation_witness :
  validParking (parking CONFIG)
  /\ exists group g',
       generateParkingOf CONFIG 27 12 halves = Ok (group, g')
       /\ parkedAt carLeft (anchorL CONFIG 0) group
       /\ parkedAt coach (anchorCoach CONFIG 11) group.
Proof.
  split; [exact validParking_CONFIG|].
  destruct (generateParkingOf_ok CONFIG colorsPresent_CONFIG 27 12 halves
              unitDraws_halves) as (group & g' & Hrun).
  exists group, g'. split; [exact Hrun|].
  destruct (vehicle_anchor_and_rotation CONFIG 27 12 halves g' group
              validParking_CONFIG Hrun)
    as (_ & kL & kR & kC & Hcars & Hcoaches).
  destruct (Hcars 0%nat ltac:(lia)) as (_ & _ & _ & HL & _).
  destruct (Hcoaches 11%nat ltac:(lia)) as (_ & _ & HC).
  split; [apply HL|apply HC]; cbn [halves draws]; lra.
Defined.

(** ** The start of the returned group *)

Lemma layout_car_head (cfg : Config) (idx : list nat)
    (added tail : list Object3D) (o : Object3D) :
  layout (carBayShape cfg) idx added ->
  (forall o', head tail = Some o' -> name o' <> carLeft) ->
  head (added ++ tail) = Some o -> name o <> carLeft.
Proof.
  intros Hlay Htail. destruct Hlay as [|i idx b rest (vsL & vsR & -> & _) _].
  - apply Htail.
  - cbn. intros [= <-]. discriminate.
Qed.

Lemma layout_coach_head (cfg : Config) (idx : list nat)
    (added : list Object3D) (o : Object3D) :
  layout (coachBayShape cfg) idx added ->
  head added = Some o -> name o <> carLeft.
Proof.
  intros Hlay. destruct Hlay as [|i idx b rest [->|[c ->]] _].
  - discriminate.
  - cbn. intros [= <-]. discriminate.
  - cbn. intros [= <-]. discriminate.
Qed.

(** With at least one car bay, the third child is the left car of bay 0
    exactly when the first number the script read exceeded 0.3. *)
Lemma generateParking_third (cfg : Config) (g g' : Random)
    (group : list Object3D) :
  (0 < Z.to_nat (numBays cfg))%nat ->
  generateParking cfg g = Ok (group, g') ->
  (draws g (cursor g) > 0.3 ->
   exists c rest,
     group = lLineAt cfg 0 :: rLineAt cfg 0 :: carLeftAt cfg 0 c :: rest)
  /\ (~ draws g (cursor g) > 0.3 ->
      forall o, group !! 2%nat = Some o -> name o <> carLeft).
Proof.
  intros Hn. unfold generateParking, generateParkingOf, forM. cbn zeta.
  destruct (Z.to_nat (numBays cfg)) as [|n]; [lia|].
  cbn [seq forEach].
  intros (cars & g1 & H1 & H2)%bind_Ok.
  apply bind_Ok in H1 as (group0 & g0 & Hbay & Hrest).
  apply bind_Ok in H2 as (all & g2 & H2 & (-> & _)%ret_Ok).
  apply carBay_inv in Hbay as (vsL & vsR & -> & HvsL & HvsR).
  apply (forEach_layout (carBayShape cfg)) in Hrest as (cs & -> & Hcs);
    [|intros; eapply carBay_shape; eassumption].
  apply (forEach_layout (coachBayShape cfg)) in H2 as (ch & -> & Hch);
    [|intros; eapply coachBay_shape; eassumption].
  cbn [app]. split.
  - intros Hgt. destruct HvsL as [[Hle _]|[_ [c ->]]]; [contradiction|].
    exists c. eexists. cbn [app]. rewrite <- !app_assoc. reflexivity.
  - intros Hle. destruct HvsL as [[_ ->]|[Hgt _]]; [|contradiction].
    cbn [app]. rewrite <- !app_assoc. cbn [lookup list_lookup].
    intros o Ho.
    assert (Hhead : head (vsR ++ cs ++ ch) = Some o).
    { destruct (vsR ++ cs ++ ch); [discriminate|exact Ho]. }
    destruct HvsR as [->|[c ->]].
    + cbn [app] in Hhead.
      apply (layout_car_head cfg _ cs ch o Hcs); [|exact Hhead].
      intros o'. apply (layout_coach_head cfg _ ch o' Hch).
    + cbn in Hhead. injection Hhead as <-. discriminate.
Qed.

(** C9 as the specification words it fails: with every draw at 1/2 the
    left car of bay 0 is parked, at its anchor, and that is not the pivot
    of the bay moved half the car length along the axis of the divider as
    its [rotation.y] turns it, in either sense, nor along the direction
    from the pivot to the centre of the divider: the car is half a bay
    pitch further along the aisle. *)
Lemma vehicle_anchor_counterexample :
  exists group g' o d,
    generateParking CONFIG halves = Ok (group, g')
    /\ o ∈ group /\ name o = carLeft
    /\ position o = anchorL CONFIG 0
    /\ named lLine group !! 0%nat = Some d
    /\ let half := Car.length (car (parking CONFIG)) / 2 in
       let axis := applyEuler (mkVector3 0 0 1) (rotation d) in
       position o <> vadd (pivotL CONFIG 0) (vscale half axis)
       /\ position o <> vadd (pivotL CONFIG 0) (vscale (- half) axis)
       /\ position o <> vadd (pivotL CONFIG 0) (vscale half dirL).
Proof.
  destruct (generateParking_ok CONFIG colorsPresent_CONFIG halves
              unitDraws_halves) as (group & g' & Hrun).
  assert (Hn : (0 < Z.to_nat (numBays CONFIG))%nat)
    by (rewrite numBays_CONFIG; lia).
  destruct (generateParking_third CONFIG halves g' group Hn Hrun)
    as [Hthird _].
  destruct Hthird as (c & rest & Hgroup); [cbn; lra|].
  destruct (dividers CONFIG halves g' group Hrun) as (HL & _).
  exists group, g', (carLeftAt CONFIG 0 c), (lLineAt CONFIG 0).
  split; [exact Hrun|].
  split; [rewrite Hgroup; do 2 right; left|].
  split; [reflexivity|]. split; [apply position_carLeftAt|].
  split; [rewrite HL, lookup_map_seq by exact Hn; reflexivity|].
  cbn zeta. cbn [lLineAt createBoxLine rotation].
  rewrite applyEuler_Y.
  assert (Hcos : 0 < cos (PI / 4))
    by (apply cos_gt_0; pose proof PI_RGT_0; lra).
  pose proof sqrt2_bounds as Hs.
  repeat split; intros Hne; apply (f_equal z) in Hne;
    unfold carLeftAt, pivotL, dirL, vadd, vscale in Hne;
    cbn [position z] in Hne; rewrite zSpacing_CONFIG in Hne;
    change (Car.length (car (parking CONFIG))) with 4.8 in Hne; nra.
Qed.

(** ** Determinism *)





(** ** Validation *)








(** * Properties of the rest of the script *)

(** ** More of [createStructure] *)





Lemma named_ticks_nil (cfg : Config) (nm : Name) (idx : list nat) :
  nm <> colL -> nm <> colR -> nm <> rafterL -> nm <> rafterR ->
  named nm (flat_map (tick cfg) idx) = [].
Proof.
  intros N1 N2 N3 N4. induction idx as [|i idx IH]; [reflexivity|].
  cbn [flat_map]. rewrite named_app, IH, tick_eq. unfold named.
  rewrite !filter_cons_False by (cbn; congruence). reflexivity.
Qed.

(** The two roof sheets of the group. *)
Lemma roof_sheetsOf (cfg : Config) (n : nat) (offsetX offsetY : R) :
  let group := children (createStructureOf cfg n offsetX offsetY) in
  let roofGeo :=
    mkBox (rafterLen cfg) 0.05 (Structure.length (structure cfg) + 1) in
  named roofL group
  = [mkObject roofL
       (BoxMesh roofGeo (Structure.roofSheetColor (structure cfg)))
       (mkVector3 (- halfSpan cfg / 2)
          (height cfg + rise cfg / 2 + 0.15) 0)
       (mkEuler 0 0 (pitchRad cfg))]
  /\ named roofR group
     = [mkObject roofR
          (BoxMesh roofGeo (Structure.roofSheetColor (structure cfg)))
          (mkVector3 (halfSpan cfg / 2)
             (height cfg + rise cfg / 2 + 0.15) 0)
          (mkEuler 0 0 (- pitchRad cfg))].
Proof.
  intros group roofGeo. subst group. unfold createStructureOf.
  cbn [children].
  rewrite column_loop. cbn [app]. unfold add.
  rewrite !named_app, !named_ticks_nil by discriminate.
  split; reflexivity.
Qed.



Lemma slopePanels_elem (cfg : Config) (panel : nat -> nat -> Matrix4)
    (m : Matrix4) :
  m ∈ slopePanels cfg panel <->
  exists row col,
    (row < Solar.rowsPerSlope (solar cfg))%nat
    /\ (col < Solar.panelsPerRow (solar cfg))%nat
    /\ m = panel row col.
Proof.
  unfold slopePanels. rewrite list_elem_of_In, in_flat_map. split.
  - intros (row & Hrow & Hcol). apply in_map_iff in Hcol as (col & <- & Hcol).
    apply in_seq in Hrow. apply in_seq in Hcol.
    exists row, col. repeat split; lia.
  - intros (row & col & Hrow & Hcol & ->). exists row. split.
    + apply in_seq. lia.
    + apply in_map. apply in_seq. lia.
Qed.

(** X3: for a valid structure configuration, and whatever the number of
    column ticks, every panel matrix the mesh of the returned group holds
    sits the same distance off the mid-plane of the roof sheet of its slope,
    [0.05 + 0.05 * cos pitch] along the outward normal of the sheet, on the
    left slope and on the right slope alike: the panels of a slope are
    coplanar, parallel to the roof and above it, and the correction of the
    right slope does not lift or sink them. *)
Theorem panels_stand_off_the_roof
    (cfg : Config) (n : nat) (offsetX offsetY : R) (row col : nat) :
  validStructure (structure cfg) ->
  (row < Solar.rowsPerSlope (solar cfg))%nat ->
  (col < Solar.panelsPerRow (solar cfg))%nat ->
  let group := children (createStructureOf cfg n offsetX offsetY) in
  let off (m : Matrix4) (sheet : Object3D) :=
    dot (vsub (m_position m) (position sheet))
        (applyEuler (mkVector3 0 1 0) (rotation sheet)) in
  exists (mL mR : Matrix4) (sheetL sheetR : Object3D),
    leftMatrix cfg group row col = Some mL
    /\ rightMatrix cfg group row col = Some mR
    /\ named roofL group = [sheetL]
    /\ named roofR group = [sheetR]
    /\ off mL sheetL = 0.05 + 0.05 * cos (pitchRad cfg)
    /\ off mR sheetR = 0.05 + 0.05 * cos (pitchRad cfg)
    /\ 0.05 < 0.05 + 0.05 * cos (pitchRad cfg).
Proof.
  intros Hv Hrow Hcol group off.
  pose proof (pitchRad_pos cfg Hv) as Hp.
  destruct (roof_sheetsOf cfg n offsetX offsetY) as [HL HR].
  destruct (matrices_createStructureOf cfg n offsetX offsetY row col
              Hrow Hcol) as [ML MR].
  fold group in HL, HR, ML, MR.
  assert (Habs : Rabs (- pitchRad cfg) = pitchRad cfg)
    by (rewrite Rabs_Ropp; apply Rabs_pos_eq; lra).
  assert (Hcos : 0 < cos (pitchRad cfg)) by (apply cos_gt_0; lra).
  pose proof (sin2_cos2 (pitchRad cfg)) as Hsc. unfold Rsqr in Hsc.
  do 4 eexists.
  split; [exact ML|]. split; [exact MR|].
  split; [exact HL|]. split; [exact HR|].
  subst off. cbn beta. split; [|split; [|lra]].
  - unfold leftPanel. cbn [position rotation m_position].
    rewrite applyEuler_Z, !applyAxisAngle_Z. unfold vsub, dot.
    cbn [x y z]. nra.
  - unfold rightPanel. cbn [position rotation m_position].
    rewrite Habs, applyEuler_Z, !applyAxisAngle_Z, cos_neg, sin_neg.
    unfold vsub, dot. cbn [x y z]. nra.
Qed.

Lemma panels_stand_off_the_roof_witness :
  validStructure (structure CONFIG)
  /\ (2 < Solar.rowsPerSlope (solar CONFIG))%nat
  /\ (82 < Solar.panelsPerRow (solar CONFIG))%nat
  /\ exists m sheet,
       leftMatrix CONFIG (children (createStructureOf CONFIG 17 (- 6) 0))
         2 82 = Some m
       /\ named roofL (children (createStructureOf CONFIG 17 (- 6) 0))
          = [sheet]
       /\ dot (vsub (m_position m) (position sheet))
             (applyEuler (mkVector3 0 1 0) (rotation sheet))
          = 0.05 + 0.05 * cos (pitchRad CONFIG).
Proof.
  assert (Hv : validStructure (structure CONFIG)).
  { unfold validStructure. cbn. lra. }
  assert (Hr : (2 < Solar.rowsPerSlope (solar CONFIG))%nat) by (cbn; lia).
  assert (Hc : (82 < Solar.panelsPerRow (solar CONFIG))%nat) by (cbn; lia).
  split; [exact Hv|]. split; [exact Hr|]. split; [exact Hc|].
  destruct (panels_stand_off_the_roof CONFIG 17 (- 6) 0 2 82 Hv Hr Hc)
    as (mL & mR & sheetL & sheetR & HL & _ & HsL & _ & Hoff & _).
  exists mL, sheetL. auto.
Defined.

(** From a cell of the panel grid to the next row and to the next
    column. *)
Lemma panel_steps (cfg : Config) (row col : nat) :
  validStructure (structure cfg) ->
  0 < Solar.length (solar cfg) + Solar.gapY (solar cfg) ->
  let p := pitchRad cfg in
  let step := Solar.length (solar cfg) + Solar.gapY (solar cfg) in
  let along := mkVector3 0 0 (Solar.width (solar cfg) + Solar.gapX (solar cfg)) in
  let L := fun r c => m_position (leftPanel cfg r c) in
  let R := fun r c => m_position (rightPanel cfg r c) in
  L (S row) col = vadd (L row col) (vscale step (mkVector3 (cos p) (sin p) 0))
  /\ R (S row) col
     = vadd (R row col) (vscale step (mkVector3 (- cos p) (sin p) 0))
  /\ y (L row col) < y (L (S row) col)
  /\ y (R row col) < y (R (S row) col)
  /\ x (L row col) < x (L (S row) col)
  /\ x (R (S row) col) < x (R row col)
  /\ L row (S col) = vadd (L row col) along
  /\ R row (S col) = vadd (R row col) along.
Proof.
  intros Hv Hstep p step along L R.
  pose proof (pitchRad_pos cfg Hv) as Hp. fold p in Hp.
  assert (Hsin : 0 < sin p) by (apply sin_gt_0; pose proof PI_RGT_0; lra).
  assert (Hcos : 0 < cos p) by (apply cos_gt_0; lra).
  assert (Hs : 0 < step * sin p) by (apply Rmult_lt_0_compat; assumption).
  assert (Hc : 0 < step * cos p) by (apply Rmult_lt_0_compat; assumption).
  subst L R along. cbn beta.
  unfold leftPanel, rightPanel, xOffset, zOffset, vadd, vscale. fold p.
  rewrite !applyAxisAngle_Z, cos_neg, sin_neg, !S_INR.
  cbn [x y z m_position]. fold step.
  repeat split; try (f_equal; ring); nra.
Qed.

(** X4: for a valid structure configuration with [0 < length + gapY], and
    whatever the number of column ticks, the matrices the mesh of the
    returned group holds climb to the ridge: from a cell of the grid to the
    cell of the next row the panel is [length + gapY] further up the slope
    on both sides, higher and nearer the ridge, so row 0 is the lowest row
    of either slope; to the cell of the next column it is [width + gapX]
    further along the building. *)
Theorem panel_rows_climb_to_the_ridge (cfg : Config) (n : nat)
    (offsetX offsetY : R) (row col : nat) :
  validStructure (structure cfg) ->
  0 < Solar.length (solar cfg) + Solar.gapY (solar cfg) ->
  (row < Solar.rowsPerSlope (solar cfg))%nat ->
  (col < Solar.panelsPerRow (solar cfg))%nat ->
  let group := children (createStructureOf cfg n offsetX offsetY) in
  let p := pitchRad cfg in
  let step := Solar.length (solar cfg) + Solar.gapY (solar cfg) in
  let along := mkVector3 0 0 (Solar.width (solar cfg) + Solar.gapX (solar cfg)) in
  exists L R : Matrix4,
    leftMatrix cfg group row col = Some L
    /\ rightMatrix cfg group row col = Some R
    /\ ((S row < Solar.rowsPerSlope (solar cfg))%nat ->
        exists L' R' : Matrix4,
          leftMatrix cfg group (S row) col = Some L'
          /\ rightMatrix cfg group (S row) col = Some R'
          /\ m_position L'
             = vadd (m_position L)
                 (vscale step (mkVector3 (cos p) (sin p) 0))
          /\ m_position R'
             = vadd (m_position R)
                 (vscale step (mkVector3 (- cos p) (sin p) 0))
          /\ y (m_position L) < y (m_position L')
          /\ y (m_position R) < y (m_position R')
          /\ x (m_position L) < x (m_position L')
          /\ x (m_position R') < x (m_position R))
    /\ ((S col < Solar.panelsPerRow (solar cfg))%nat ->
        exists L' R' : Matrix4,
          leftMatrix cfg group row (S col) = Some L'
          /\ rightMatrix cfg group row (S col) = Some R'
          /\ m_position L' = vadd (m_position L) along
          /\ m_position R' = vadd (m_position R) along).
Proof.
  intros Hv Hstep Hrow Hcol group p step along.
  destruct (matrices_createStructureOf cfg n offsetX offsetY row col
              Hrow Hcol) as [ML MR].
  destruct (panel_steps cfg row col Hv Hstep)
    as (H1 & H2 & H3 & H4 & H5 & H6 & H7 & H8).
  exists (leftPanel cfg row col), (rightPanel cfg row col).
  split; [exact ML|]. split; [exact MR|]. split.
  - intros Hrow'.
    destruct (matrices_createStructureOf cfg n offsetX offsetY (S row) col
                Hrow' Hcol) as [ML' MR'].
    exists (leftPanel cfg (S row) col), (rightPanel cfg (S row) col).
    repeat split; assumption.
  - intros Hcol'.
    destruct (matrices_createStructureOf cfg n offsetX offsetY row (S col)
                Hrow Hcol') as [ML' MR'].
    exists (leftPanel cfg row (S col)), (rightPanel cfg row (S col)).
    repeat split; assumption.
Qed.

Lemma panel_rows_climb_to_the_ridge_witness :
  validStructure (structure CONFIG)
  /\ 0 < Solar.length (solar CONFIG) + Solar.gapY (solar CONFIG)
  /\ (0 < Solar.rowsPerSlope (solar CONFIG))%nat
  /\ (5 < Solar.panelsPerRow (solar CONFIG))%nat
  /\ exists R R',
       rightMatrix CONFIG (children (createStructureOf CONFIG 17 (- 6) 0))
         0 5 = Some R
       /\ rightMatrix CONFIG (children (createStructureOf CONFIG 17 (- 6) 0))
            1 5 = Some R'
       /\ y (m_position R) < y (m_position R').
Proof.
  assert (Hv : validStructure (structure CONFIG)).
  { unfold validStructure. cbn. lra. }
  assert (Hs : 0 < Solar.length (solar CONFIG) + Solar.gapY (solar CONFIG))
    by (cbn; lra).
  assert (Hr : (0 < Solar.rowsPerSlope (solar CONFIG))%nat) by (cbn; lia).
  assert (Hc : (5 < Solar.panelsPerRow (solar CONFIG))%nat) by (cbn; lia).
  split; [exact Hv|]. split; [exact Hs|]. split; [exact Hr|].
  split; [exact Hc|].
  destruct (panel_rows_climb_to_the_ridge CONFIG 17 (- 6) 0 0 5 Hv Hs Hr Hc)
    as (L & R & _ & HR & Hrows & _).
  destruct Hrows as (L' & R' & _ & HR' & _ & _ & _ & Hy & _);
    [cbn; lia|].
  exists R, R'. auto.
Defined.



(** ** More of [generateParking] *)


Lemma randomColor_Ok (colors : list Z) (g g' : Random) (c : Z) :
  randomColor colors g = Ok (c, g') -> c ∈ colors.
Proof.
  unfold randomColor.
  intros (r & g1 & _ & H)%bind_Ok. unfold colorAt in H.
  destruct (Zfloor (r * INR (length colors)) <? 0)%Z; [discriminate|].
  destruct (colors !! Z.to_nat (Zfloor (r * INR (length colors))))
    as [c'|] eqn:E; [|discriminate].
  apply ret_Ok in H as [-> _]. eapply list_elem_of_lookup_2, E.
Qed.

Lemma layout_Forall (P : Object3D -> Prop)
    (bay : nat -> list Object3D -> Prop) (idx : list nat)
    (added : list Object3D) :
  (forall i b, bay i b -> Forall P b) ->
  layout bay idx added -> Forall P added.
Proof.
  intros Hbay. induction 1 as [|i idx b rest Hb _ IH]; [constructor|].
  apply Forall_app. split; [now apply (Hbay i)|exact IH].
Qed.

Section Colours.

Variable cfg : Config.

Lemma chosenCarColor_Ok (g g' : Random) (c : Z) :
  chosenCarColor cfg g = Ok (c, g') ->
  colourAllowed cfg (mkObject carLeft (CarStructure c)
                       (mkVector3 0 0 0) (mkEuler 0 0 0)).
Proof.
  unfold chosenCarColor, colourAllowed. cbn [shape].
  destruct (Car.colors (car (parking cfg))) as [colors|].
  - apply randomColor_Ok.
  - now intros [-> _]%ret_Ok.
Qed.

Lemma carBay_colours (i : nat) (group group' : list Object3D)
    (g g' : Random) :
  carBay cfg i group g = Ok (group', g') ->
  exists b, group' = group ++ b /\ Forall (colourAllowed cfg) b.
Proof.
  unfold carBay. cbn zeta.
  intros (r & g1 & _ & H)%bind_Ok.
  apply bind_Ok in H as (group1 & g2 & HL & H).
  apply bind_Ok in H as (r' & g3 & _ & HR).
  assert (HL' : exists vsL,
             group1 = group ++ [lLineAt cfg i; rLineAt cfg i] ++ vsL
             /\ Forall (colourAllowed cfg) vsL).
  { destruct (Rgt_dec r 0.3).
    - apply bind_Ok in HL as (c & g1' & Hc & (-> & _)%ret_Ok).
      eexists [_]. split.
      + unfold add. rewrite <- !app_assoc. reflexivity.
      + repeat constructor. exact (chosenCarColor_Ok _ _ _ Hc).
    - apply ret_Ok in HL as [-> _]. exists []. split; [|constructor].
      unfold add. rewrite <- !app_assoc. reflexivity. }
  destruct HL' as (vsL & -> & HvsL).
  assert (Hlines : Forall (colourAllowed cfg)
                     [lLineAt cfg i; rLineAt cfg i])
    by (repeat constructor).
  destruct (Rgt_dec r' 0.3).
  - apply bind_Ok in HR as (c & g3' & Hc & (-> & _)%ret_Ok).
    eexists. split.
    + unfold add. rewrite <- !app_assoc. reflexivity.
    + apply Forall_app. split; [exact Hlines|].
      apply Forall_app. split; [exact HvsL|].
      repeat constructor. exact (chosenCarColor_Ok _ _ _ Hc).
  - apply ret_Ok in HR as [-> _]. eexists. split; [reflexivity|].
    apply Forall_app. split; assumption.
Qed.

Lemma coachBay_colours (i : nat) (group group' : list Object3D)
    (g g' : Random) :
  coachBay cfg i group g = Ok (group', g') ->
  exists b, group' = group ++ b /\ Forall (colourAllowed cfg) b.
Proof.
  unfold coachBay. cbn zeta.
  intros (r & g1 & _ & H)%bind_Ok.
  destruct (Rgt_dec r 0.4).
  - apply bind_Ok in H as (c & g2 & Hc & (-> & _)%ret_Ok).
    eexists [_; _]. split.
    + unfold add. rewrite <- !app_assoc. reflexivity.
    + repeat constructor. exact (randomColor_Ok _ _ _ _ Hc).
  - apply ret_Ok in H as [-> _]. eexists [_]. split; [reflexivity|].
    repeat constructor.
Qed.

End Colours.

(** X6: on a run that returns, the colour of every car comes from the
    colour table of the car class, or is 0x444444 when that class has no
    table, and the colour of every coach comes from the table of the coach
    class; in particular a class whose table is empty has no vehicle in the
    group. *)
Theorem vehicle_colours_come_from_the_tables (cfg : Config) (g g' : Random)
    (group : list Object3D) (o : Object3D) :
  generateParking cfg g = Ok (group, g') ->
  o ∈ group ->
  colourAllowed cfg o
  /\ (Car.colors (car (parking cfg)) = Some [] ->
      name o <> carLeft /\ name o <> carRight)
  /\ (Coach.colors (coach_ (parking cfg)) = [] -> name o <> coach).
Proof.
  intros Hrun Ho.
  assert (Hall : Forall (colourAllowed cfg) group).
  { revert Hrun. unfold generateParking, generateParkingOf, forM. cbn zeta.
    intros (cars & g1 & H1 & H2)%bind_Ok.
    apply bind_Ok in H2 as (all & g2 & H2 & (-> & _)%ret_Ok).
    apply (forEach_layout (fun _ b => Forall (colourAllowed cfg) b))
      in H1 as (cs & -> & Hcs);
      [|intros; eapply carBay_colours; eassumption].
    apply (forEach_layout (fun _ b => Forall (colourAllowed cfg) b))
      in H2 as (ch & -> & Hch);
      [|intros; eapply coachBay_colours; eassumption].
    cbn [app]. apply Forall_app. split.
    - eapply layout_Forall; [|exact Hcs]. auto.
    - eapply layout_Forall; [|exact Hch]. auto. }
  assert (Hallowed : colourAllowed cfg o)
    by (eapply Forall_forall in Hall; eassumption).
  split; [exact Hallowed|].
  destruct (vehicles cfg g g' group Hrun o Ho) as (VL & VR & VC).
  split.
  - intros Hempty. split; intros Hname.
    + destruct (VL Hname) as (i & c & _ & ->).
      unfold colourAllowed in Hallowed. cbn [shape carLeftAt] in Hallowed.
      rewrite Hempty in Hallowed. inversion Hallowed.
    + destruct (VR Hname) as (i & c & _ & ->).
      unfold colourAllowed in Hallowed. cbn [shape carRightAt] in Hallowed.
      rewrite Hempty in Hallowed. inversion Hallowed.
  - intros Hempty Hname. destruct (VC Hname) as (i & c & _ & ->).
    unfold colourAllowed in Hallowed. cbn [shape coachAt] in Hallowed.
    rewrite Hempty in Hallowed. inversion Hallowed.
Qed.

Lemma vehicle_colours_come_from_the_tables_witness :
  exists group g' c rest,
    generateParking CONFIG halves = Ok (group, g')
    /\ group = lLineAt CONFIG 0 :: rLineAt CONFIG 0
               :: carLeftAt CONFIG 0 c :: rest
    /\ c ∈ [0x444444%Z].
Proof.
  destruct (generateParking_ok CONFIG colorsPresent_CONFIG halves
              unitDraws_halves) as (group & g' & Hrun).
  assert (Hn : (0 < Z.to_nat (numBays CONFIG))%nat)
    by (rewrite numBays_CONFIG; lia).
  destruct (generateParking_third CONFIG halves g' group Hn Hrun)
    as [Hthird _].
  destruct Hthird as (c & rest & Hgroup); [cbn; lra|].
  exists group, g', c, rest. repeat split; [exact Hrun|exact Hgroup|].
  assert (Ho : carLeftAt CONFIG 0 c ∈ group).
  { rewrite Hgroup. do 2 right. left. }
  exact (proj1 (vehicle_colours_come_from_the_tables CONFIG halves g' group
                  (carLeftAt CONFIG 0 c) Hrun Ho)).
Defined.



Section QuietRun.

Variable cfg : Config.




End QuietRun.





Section FullRun.

Variable cfg : Config.






End FullRun.



Lemma lookup_map_seq_inv {A : Type} (f : nat -> A) (n i : nat) (a : A) :
  map f (seq 0 n) !! i = Some a -> (i < n)%nat /\ a = f i.
Proof.
  intros H. change (map f (seq 0 n)) with (f <$> seq 0 n) in H.
  rewrite list_lookup_fmap in H.
  destruct (seq 0 n !! i) as [j|] eqn:E; [|discriminate].
  apply lookup_seq in E as [-> Hi]. cbn in H. injection H as <-. auto.
Qed.



Section AxisEnds.

Variable cfg : Config.




End AxisEnds.









(** ** The tree loop *)

Lemma Rgtb_true (a b : R) : Rgtb a b = true <-> a > b.
Proof. unfold Rgtb. destruct (Rgt_dec a b); split; auto; discriminate. Qed.

Lemma Rltb_true (a b : R) : Rltb a b = true <-> a < b.
Proof. unfold Rltb. destruct (Rlt_dec a b); split; auto; discriminate. Qed.

Lemma zone_true (x z a b c d : R) :
  ((Rgtb x a && Rltb x b) && (Rgtb z c && Rltb z d))%bool = true
  <-> (x > a /\ x < b) /\ (z > c /\ z < d).
Proof.
  rewrite !andb_true_iff, !Rgtb_true, !Rltb_true. reflexivity.
Qed.

Lemma treeStep_spec (i : nat) (treeGroup : list Placed) (g : Random) :
  exists b,
    treeStep i treeGroup g
    = Ok (treeGroup ++ b,
          mkRandom (draws g) (cursor g + 2 + 2 * length b))
    /\ (length b <= 1)%nat
    /\ Forall (plantedFrom (draws g)) b.
Proof.
  unfold treeStep. cbn zeta.
  rewrite (bind_step _ _ g _ _ eq_refl).
  rewrite (bind_step _ _ _ _ _ eq_refl). cbn [draws cursor].
  set (x0 := draws g (cursor g) * 150 - 120).
  set (z0 := draws g (S (cursor g)) * 160 - 80).
  destruct (negb _ && negb _ && negb _)%bool eqn:E.
  - rewrite (bind_step _ _ _ _ _ eq_refl).
    rewrite (bind_step _ _ _ _ _ eq_refl). cbn [draws cursor].
    eexists [_]. split; [|split].
    + unfold ret. do 3 f_equal. cbn [length]. lia.
    + cbn. lia.
    + repeat constructor. exists (cursor g). split; [reflexivity|].
      cbn [placed_position setRotationY setScalar setPosition x z].
      fold x0 z0.
      apply andb_true_iff in E as [E E3].
      apply andb_true_iff in E as [E1 E2].
      apply negb_true_iff in E1, E2, E3.
      unfold inStructureZone, inPitchZone, inRoadZone.
      rewrite <- !zone_true. rewrite E1, E2, E3. auto.
  - exists []. split; [|split; [cbn; lia|constructor]].
    unfold ret. rewrite app_nil_r. do 3 f_equal. cbn [length]. lia.
Qed.

Lemma forEach_treeStep (idx : list nat) :
  forall (treeGroup : list Placed) (g : Random),
  exists added,
    forEach idx treeStep treeGroup g
    = Ok (treeGroup ++ added,
          mkRandom (draws g)
            (cursor g + 2 * length idx + 2 * length added))
    /\ (length added <= length idx)%nat
    /\ Forall (plantedFrom (draws g)) added.
Proof.
  induction idx as [|i idx IH]; intros treeGroup g.
  - exists []. cbn. unfold ret. rewrite app_nil_r.
    split; [|split; [lia|constructor]].
    do 2 f_equal. destruct g. cbn. f_equal. lia.
  - destruct (treeStep_spec i treeGroup g) as (b & Hb & Lb & Pb).
    destruct (IH (treeGroup ++ b)
                (mkRandom (draws g) (cursor g + 2 + 2 * length b)))
      as (rest & Hrest & Lrest & Prest).
    exists (b ++ rest). cbn [forEach].
    rewrite (bind_step _ _ _ _ _ Hb), Hrest. cbn [draws cursor].
    split; [|split].
    + rewrite <- app_assoc, length_app. do 3 f_equal. cbn [length]. lia.
    + rewrite length_app. cbn [length]. lia.
    + apply Forall_app. split; assumption.
Qed.





Lemma covers_flat (m : Mesh) (w h : R) (p : Vector3) :
  geometry m = PlaneGeometry w h ->
  mesh_rotation m = mkEuler (- PI / 2) 0 0 ->
  covers m p ->
  x (mesh_position m) - w / 2 <= x p <= x (mesh_position m) + w / 2
  /\ z (mesh_position m) - h / 2 <= z p <= z (mesh_position m) + h / 2.
Proof.
  intros Hg Hr. unfold covers. rewrite Hg, Hr.
  intros (u & v & Hu & Hv & Hx & Hz).
  rewrite applyEuler_X in Hx, Hz. unfold vadd in Hx, Hz. cbn [x z] in Hx, Hz.
  replace (- PI / 2) with (- (PI / 2)) in Hz by lra.
  rewrite sin_neg, cos_neg, sin_PI2, cos_PI2 in Hz. lra.
Qed.

(** The tree of a run whose draws are all 0.01, which falls outside the
    three zones. *)
Lemma treeStep_low_draws (i c : nat) (treeGroup : list Placed) :
  treeStep i treeGroup (mkRandom (fun _ => 0.01) c)
  = Ok (treeGroup ++ [treeAt 0.01 0.01 0.01 0.01],
        mkRandom (fun _ => 0.01) (4 + c)).
Proof.
  unfold treeStep. cbn zeta.
  rewrite (bind_step _ _ _ _ _ eq_refl).
  rewrite (bind_step _ _ _ _ _ eq_refl). cbn [draws cursor].
  replace (Rgtb (0.01 * 150 - 120) (- 24)) with false
    by (symmetry; apply not_true_is_false; rewrite Rgtb_true; lra).
  replace (Rgtb (0.01 * 150 - 120) (- 100)) with false
    by (symmetry; apply not_true_is_false; rewrite Rgtb_true; lra).
  replace (Rgtb (0.01 * 150 - 120) 16) with false
    by (symmetry; apply not_true_is_false; rewrite Rgtb_true; lra).
  cbn [andb negb].
  rewrite (bind_step _ _ _ _ _ eq_refl).
  rewrite (bind_step _ _ _ _ _ eq_refl). reflexivity.
Qed.

Lemma forEach_low_draws (idx : list nat) :
  forall (c : nat) (treeGroup : list Placed),
  forEach idx treeStep treeGroup (mkRandom (fun _ => 0.01) c)
  = Ok (treeGroup ++ repeat (treeAt 0.01 0.01 0.01 0.01) (length idx),
        mkRandom (fun _ => 0.01) (4 * length idx + c)).
Proof.
  induction idx as [|i idx IH]; intros c treeGroup.
  - cbn. unfold ret. now rewrite app_nil_r.
  - cbn [forEach]. rewrite (bind_step _ _ _ _ _ (treeStep_low_draws i c _)).
    rewrite IH, <- app_assoc. cbn [length repeat app].
    do 3 f_equal. lia.
Qed.

Lemma plantTrees_low_draws :
  plantTrees (mkRandom (fun _ => 0.01) 0)
  = Ok (repeat (treeAt 0.01 0.01 0.01 0.01) 80,
        mkRandom (fun _ => 0.01) 320).
Proof.
  unfold plantTrees, forM. rewrite forEach_low_draws, length_seq.
  reflexivity.
Qed.

Lemma unitDraws_low : unitDraws (draws (mkRandom (fun _ => 0.01) 0)).
Proof. intros k. cbn. lra. Qed.

Lemma plantTrees_planted (g g' : Random) (trees : list Placed)
    (t : Placed) :
  plantTrees g = Ok (trees, g') -> t ∈ trees -> plantedFrom (draws g) t.
Proof.
  intros Hrun Ht. unfold plantTrees, forM in Hrun.
  destruct (forEach_treeStep (seq 0 80) [] g) as (trees' & H & _ & P).
  rewrite H in Hrun. injection Hrun as <- _. cbn [app] in Ht.
  eapply Forall_forall in P; [exact P|exact Ht].
Qed.

Lemma treeAt_range (r1 r2 r3 r4 : R) :
  0 <= r1 < 1 -> 0 <= r2 < 1 ->
  - 120 <= x (placed_position (treeAt r1 r2 r3 r4)) < 30
  /\ - 80 <= z (placed_position (treeAt r1 r2 r3 r4)) < 80.
Proof. intros H1 H2. cbn. lra. Qed.

Lemma covers_flat_intro (m : Mesh) (w h : R) (p : Vector3) :
  geometry m = PlaneGeometry w h ->
  mesh_rotation m = mkEuler (- PI / 2) 0 0 ->
  x (mesh_position m) - w / 2 <= x p <= x (mesh_position m) + w / 2 ->
  z (mesh_position m) - h / 2 <= z p <= z (mesh_position m) + h / 2 ->
  covers m p.
Proof.
  intros Hg Hr Hx Hz. unfold covers. rewrite Hg, Hr.
  exists (x p - x (mesh_position m)), (z (mesh_position m) - z p).
  rewrite applyEuler_X. unfold vadd. cbn [x z].
  replace (- PI / 2) with (- (PI / 2)) by lra.
  rewrite sin_neg, cos_neg, sin_PI2, cos_PI2.
  repeat split; lra.
Qed.

(** X13: with draws in [0, 1), every tree of the group stands on the
    ground at [x] in [-120, 30) and [z] in [-80, 80), scaled by a factor in
    [0.8, 1.2) and turned about the vertical by an angle in [0, PI), and it
    is the tree of [createTree]. *)
Theorem trees_are_within_their_ranges (g g' : Random) (trees : list Placed)
    (t : Placed) :
  unitDraws (draws g) ->
  plantTrees g = Ok (trees, g') ->
  t ∈ trees ->
  parts t = parts createTree
  /\ y (placed_position t) = 0
  /\ - 120 <= x (placed_position t) < 30
  /\ - 80 <= z (placed_position t) < 80
  /\ 0.8 <= placed_scale t < 1.2
  /\ rot_x (placed_rotation t) = 0 /\ rot_z (placed_rotation t) = 0
  /\ 0 <= rot_y (placed_rotation t) < PI.
Proof.
  intros Hd Hrun Ht.
  destruct (plantTrees_planted g g' trees t Hrun Ht) as (k & -> & _).
  pose proof (treeAt_range _ _ (draws g (S (S k))) (draws g (S (S (S k))))
                (Hd k) (Hd (S k))) as [Hx Hz].
  pose proof (Hd (S (S k))). pose proof (Hd (S (S (S k)))).
  pose proof PI_RGT_0.
  split; [reflexivity|]. split; [reflexivity|].
  split; [exact Hx|]. split; [exact Hz|].
  cbn [treeAt placed_scale placed_rotation setRotationY setScalar
         setPosition createTree newGroup rot_x rot_y rot_z].
  unfold treeAt.
  cbn [placed_scale placed_rotation setRotationY setScalar
         setPosition createTree newGroup rot_x rot_y rot_z].
  repeat split; try reflexivity; nra.
Qed.

Lemma trees_are_within_their_ranges_witness :
  unitDraws (draws (mkRandom (fun _ => 0.01) 0))
  /\ plantTrees (mkRandom (fun _ => 0.01) 0)
     = Ok (repeat (treeAt 0.01 0.01 0.01 0.01) 80,
           mkRandom (fun _ => 0.01) 320)
  /\ treeAt 0.01 0.01 0.01 0.01 ∈ repeat (treeAt 0.01 0.01 0.01 0.01) 80
  /\ - 120 <= x (placed_position (treeAt 0.01 0.01 0.01 0.01)) < 30.
Proof.
  assert (Hin : treeAt 0.01 0.01 0.01 0.01
                ∈ repeat (treeAt 0.01 0.01 0.01 0.01) 80) by (left).
  split; [exact unitDraws_low|]. split; [exact plantTrees_low_draws|].
  split; [exact Hin|].
  exact (proj1 (proj2 (proj2
           (trees_are_within_their_ranges _ _ _ _
              unitDraws_low plantTrees_low_draws Hin)))).
Defined.

(** X14: with draws in [0, 1), the point a tree of the group stands on is
    outside the three exclusion zones of the loop, and none of the tarmac
    planes, the pitch or the road of [createEnvironment] covers it; only
    the ground plane does. *)
Theorem trees_stand_off_the_paving (g g' : Random) (trees : list Placed)
    (t : Placed) :
  unitDraws (draws g) ->
  plantTrees g = Ok (trees, g') ->
  t ∈ trees ->
  let p := placed_position t in
  ~ inStructureZone (x p) (z p)
  /\ ~ inPitchZone (x p) (z p)
  /\ ~ inRoadZone (x p) (z p)
  /\ (forall m, m ∈ createEnvironment -> covers m p -> part m = ground)
  /\ exists m, m ∈ createEnvironment /\ part m = ground /\ covers m p.
Proof.
  intros Hd Hrun Ht p.
  destruct (plantTrees_planted g g' trees t Hrun Ht)
    as (k & E & Hs & Hp & Hroad).
  assert (Hr : - 120 <= x p < 30 /\ - 80 <= z p < 80).
  { subst p. rewrite E. apply treeAt_range; [apply (Hd k)|apply (Hd (S k))]. }
  fold p in Hs, Hp, Hroad.
  refine (conj Hs (conj Hp (conj Hroad (conj _ _)))).
  - intros m Hm Hc. unfold createEnvironment in Hm. cbn [app] in Hm.
    unfold inStructureZone in Hs. unfold inPitchZone in Hp.
    unfold inRoadZone in Hroad.
    repeat (apply elem_of_cons in Hm as [-> | Hm]);
      [| | |reflexivity| |apply elem_of_nil in Hm; contradiction];
      exfalso;
      (eapply covers_flat in Hc; [|reflexivity|reflexivity]);
      cbn [mesh_position x z] in Hc; lra.
  - exists (mkMesh ground (PlaneGeometry 250 250) 0x3a5f0b%Z
              (mkVector3 (- 40) (- 0.1) 0) (mkEuler (- PI / 2) 0 0)).
    split; [|split; [reflexivity|]].
    + unfold createEnvironment. cbn [app]. do 3 right. left.
    + eapply covers_flat_intro; [reflexivity|reflexivity| |];
        cbn [mesh_position x z]; lra.
Qed.

Lemma trees_stand_off_the_paving_witness :
  unitDraws (draws (mkRandom (fun _ => 0.01) 0))
  /\ plantTrees (mkRandom (fun _ => 0.01) 0)
     = Ok (repeat (treeAt 0.01 0.01 0.01 0.01) 80,
           mkRandom (fun _ => 0.01) 320)
  /\ treeAt 0.01 0.01 0.01 0.01 ∈ repeat (treeAt 0.01 0.01 0.01 0.01) 80
  /\ ~ inPitchZone (x (placed_position (treeAt 0.01 0.01 0.01 0.01)))
                   (z (placed_position (treeAt 0.01 0.01 0.01 0.01))).
Proof.
  assert (Hin : treeAt 0.01 0.01 0.01 0.01
                ∈ repeat (treeAt 0.01 0.01 0.01 0.01) 80) by (left).
  split; [exact unitDraws_low|]. split; [exact plantTrees_low_draws|].
  split; [exact Hin|].
  exact (proj1 (proj2
           (trees_stand_off_the_paving _ _ _ _
              unitDraws_low plantTrees_low_draws Hin))).
Defined.

(** ** Fencing *)

Lemma for_append {A : Type} (h : nat -> A) (n : nat) (l : list A) :
  for_ n (fun i group => group ++ [h i]) l = l ++ map h (seq 0 n).
Proof.
  induction n as [|n IH].
  - cbn. now rewrite app_nil_r.
  - rewrite for_S, IH, seq_S, map_app, app_assoc. reflexivity.
Qed.

Lemma parts_createFence (length height : R) :
  parts (createFence length height)
  = map (postAt length height)
      (seq 0 (Z.to_nat (Zfloor (length / 3.0) + 1)))
    ++ [mkMesh fenceMesh (PlaneGeometry length height) 0xaaaaaa%Z
          (mkVector3 0 (height / 2) 0) (mkEuler 0 0 0)].
Proof.
  unfold createFence. cbn zeta. cbn [parts newGroup].
  rewrite (for_append (postAt length height)). reflexivity.
Qed.

Lemma filter_posts (length height : R) (idx : list nat) :
  filter (fun m => part m = post) (map (postAt length height) idx)
  = map (postAt length height) idx.
Proof.
  induction idx as [|i idx IH]; [reflexivity|].
  cbn [map]. rewrite filter_cons_True by reflexivity. now rewrite IH.
Qed.

Lemma posts_createFence (length height : R) :
  posts (createFence length height)
  = map (postAt length height)
      (seq 0 (Z.to_nat (Zfloor (length / 3.0) + 1))).
Proof.
  unfold posts. rewrite parts_createFence, filter_app, filter_posts.
  rewrite filter_cons_False by (cbn; discriminate).
  rewrite filter_nil. apply app_nil_r.
Qed.

Lemma postCount_bounds (length : R) :
  0 <= length ->
  let n := Z.to_nat (Zfloor (length / 3.0) + 1) in
  (1 <= n)%nat
  /\ length - 3 < INR (n - 1) * 3.0 <= length.
Proof.
  intros Hl n.
  pose proof (Zfloor_bound (length / 3.0)) as [Hlo Hhi].
  assert (H0 : (0 <= Zfloor (length / 3.0))%Z).
  { apply Zfloor_lub. cbn. apply Rmult_le_pos; lra. }
  split; [subst n; lia|].
  assert (E : INR (n - 1) = IZR (Zfloor (length / 3.0))).
  { rewrite INR_IZR_INZ. f_equal. subst n. lia. }
  rewrite E. lra.
Qed.

(** X15: a fence of length at least 0 has [floor(length / 3) + 1] posts,
    so at least one; post [i] stands at [i * 3 - length / 2], half its
    height up, so the first is at the start of the fence, all lie within
    the length of the fence, and the last one is less than one spacing short
    of its end. *)
Theorem fence_posts_span_the_length (length height : R) :
  0 <= length ->
  let ps := posts (createFence length height) in
  (1 <= List.length ps)%nat
  /\ IZR (Z.of_nat (List.length ps)) = IZR (Zfloor (length / 3.0)) + 1
  /\ (forall i p, ps !! i = Some p ->
        mesh_position p
        = mkVector3 (INR i * 3.0 - length / 2) (height / 2) 0
        /\ - (length / 2) <= x (mesh_position p) <= length / 2)
  /\ (forall p, last ps = Some p ->
        length / 2 - 3 < x (mesh_position p)).
Proof.
  intros Hl ps. subst ps. rewrite posts_createFence.
  destruct (postCount_bounds length Hl) as [Hn [Hlast Hlast']].
  set (n := Z.to_nat (Zfloor (length / 3.0) + 1)) in *.
  rewrite length_map, length_seq.
  split; [exact Hn|]. split.
  { rewrite <- plus_IZR. f_equal. subst n. lia. }
  split.
  - intros i p Hp. apply lookup_map_seq_inv in Hp as [Hi ->].
    split; [reflexivity|]. cbn [postAt mesh_position x].
    assert (Hle : INR i <= INR (n - 1)) by (apply le_INR; lia).
    pose proof (pos_INR i). lra.
  - intros p Hp.
    replace n with (S (n - 1)) in Hp by lia.
    rewrite seq_S, map_app in Hp. cbn [map] in Hp.
    rewrite last_snoc in Hp. injection Hp as <-.
    cbn [postAt mesh_position x Nat.add]. lra.
Qed.

Lemma fence_posts_span_the_length_witness :
  0 <= 80
  /\ (1 <= List.length (posts (createFence 80 3.0)))%nat.
Proof.
  assert (H : 0 <= 80) by lra.
  split; [exact H|].
  exact (proj1 (fence_posts_span_the_length 80 3.0 H)).
Defined.

(** X16: a fence of negative length has no post at all: its only part is
    the chain-link plane. *)
Theorem negative_fence_has_no_posts (length height : R) :
  length < 0 ->
  posts (createFence length height) = []
  /\ parts (createFence length height)
     = [mkMesh fenceMesh (PlaneGeometry length height) 0xaaaaaa%Z
          (mkVector3 0 (height / 2) 0) (mkEuler 0 0 0)].
Proof.
  intros Hl.
  assert (E : Z.to_nat (Zfloor (length / 3.0) + 1) = 0%nat).
  { pose proof (Zfloor_bound (length / 3.0)) as [Hlo _].
    assert (Hneg : IZR (Zfloor (length / 3.0)) < 0) by lra.
    apply lt_IZR in Hneg. lia. }
  rewrite posts_createFence, parts_createFence, E. split; reflexivity.
Qed.

Lemma negative_fence_has_no_posts_witness :
  - 1 < 0 /\ posts (createFence (- 1) 3.0) = [].
Proof.
  assert (H : - 1 < 0) by lra.
  split; [exact H|].
  exact (proj1 (negative_fence_has_no_posts (- 1) 3.0 H)).
Defined.

Lemma fence_post_inv (length height : R) (m : Mesh) :
  0 <= length ->
  m ∈ posts (createFence length height) ->
  exists lx,
    mesh_position m = mkVector3 lx (height / 2) 0
    /\ - (length / 2) <= lx <= length / 2.
Proof.
  intros Hl Hm. rewrite posts_createFence in Hm.
  change (map ?f ?l) with (f <$> l) in Hm.
  apply list_elem_of_fmap in Hm as (i & -> & Hi).
  apply elem_of_seq in Hi as [_ Hi]. cbn [Nat.add] in Hi.
  destruct (postCount_bounds length Hl) as [Hn [_ Hlast]].
  exists (INR i * 3.0 - length / 2). split; [reflexivity|].
  assert (Hle : INR i <= INR (Z.to_nat (Zfloor (length / 3.0) + 1) - 1))
    by (apply le_INR; lia).
  pose proof (pos_INR i). lra.
Qed.

Lemma first_post (length height : R) :
  0 <= length ->
  postAt length height 0 ∈ posts (createFence length height).
Proof.
  intros Hl. rewrite posts_createFence.
  destruct (postCount_bounds length Hl) as [Hn _].
  destruct (Z.to_nat (Zfloor (length / 3.0) + 1)) as [|n]; [lia|].
  cbn [seq map]. left.
Qed.

Lemma toWorld_upright (prts : list Mesh) (p : Vector3) (angle a b c : R) :
  toWorld (mkPlaced prts p (mkEuler 0 angle 0) 1) (mkVector3 a b c)
  = mkVector3 (x p + (a * cos angle + c * sin angle)) (y p + b)
              (z p + (c * cos angle - a * sin angle)).
Proof.
  unfold toWorld, vscale, vadd.
  cbn [placed_position placed_rotation placed_scale x y z].
  rewrite !Rmult_1_l, applyEuler_Y. reflexivity.
Qed.

(** X17: in the scene every post of the pitch fence stands on the north,
    the south or the west side of the rectangle from (-96.5, -57.5) to
    (-16.5, 57.5), half the fence height up; the pitch plane of
    [createEnvironment] covers only points strictly inside that
    rectangle. *)
Theorem pitch_fence_runs_along_three_sides (f : Placed) (m : Mesh) :
  f ∈ createSportsPitchFence ->
  m ∈ posts f ->
  let w := worldOf f m in
  (- 96.5 <= x w <= - 16.5 /\ - 57.5 <= z w <= 57.5)
  /\ (z w = - 57.5 \/ z w = 57.5 \/ x w = - 96.5)
  /\ y w = 1.5
  /\ forall e p, e ∈ createEnvironment -> part e = pitch -> covers e p ->
       - 96.5 < x p < - 16.5 /\ - 57.5 < z p < 57.5.
Proof.
  intros Hf Hm w.
  assert (Hpitch : forall e p, e ∈ createEnvironment -> part e = pitch ->
            covers e p -> - 96.5 < x p < - 16.5 /\ - 57.5 < z p < 57.5).
  { intros e p He Hp Hc. unfold createEnvironment in He. cbn [app] in He.
    repeat (apply elem_of_cons in He as [-> | He]);
      try discriminate Hp; [|apply elem_of_nil in He; contradiction].
    eapply covers_flat in Hc; [|reflexivity|reflexivity].
    cbn [mesh_position x z] in Hc. lra. }
  unfold createSportsPitchFence in Hf. cbn zeta in Hf. cbn [app] in Hf.
  subst w. unfold worldOf.
  repeat (apply elem_of_cons in Hf as [-> | Hf]);
    [| | |apply elem_of_nil in Hf; contradiction].
  - change (posts (setPosition ?p ?g)) with (posts g) in Hm.
    apply fence_post_inv in Hm as (lx & -> & Hlx); [|lra].
    unfold setPosition, createFence, newGroup.
    cbn [placed_rotation placed_scale]. rewrite toWorld_upright.
    cbn [x y z]. rewrite cos_0, sin_0.
    refine (conj _ (conj _ (conj _ Hpitch))); [lra| |lra]. left. lra.
  - change (posts (setPosition ?p ?g)) with (posts g) in Hm.
    apply fence_post_inv in Hm as (lx & -> & Hlx); [|lra].
    unfold setPosition, createFence, newGroup.
    cbn [placed_rotation placed_scale]. rewrite toWorld_upright.
    cbn [x y z]. rewrite cos_0, sin_0.
    refine (conj _ (conj _ (conj _ Hpitch))); [lra| |lra].
    right. left. lra.
  - change (posts (setPosition ?p (setRotationY ?a ?g))) with (posts g) in Hm.
    apply fence_post_inv in Hm as (lx & -> & Hlx); [|lra].
    unfold setPosition, setRotationY, createFence, newGroup.
    cbn [placed_position placed_rotation placed_scale parts rot_x rot_z].
    rewrite toWorld_upright.
    cbn [x y z]. rewrite cos_PI2, sin_PI2.
    refine (conj _ (conj _ (conj _ Hpitch))); [lra| |lra].
    right. right. lra.
Qed.

Lemma pitch_fence_runs_along_three_sides_witness :
  setPosition (mkVector3 (- 56.5) 0 (- 115 / 2)) (createFence 80 3.0)
    ∈ createSportsPitchFence
  /\ postAt 80 3.0 0
       ∈ posts (setPosition (mkVector3 (- 56.5) 0 (- 115 / 2))
                  (createFence 80 3.0))
  /\ y (worldOf (setPosition (mkVector3 (- 56.5) 0 (- 115 / 2))
                   (createFence 80 3.0))
          (postAt 80 3.0 0)) = 1.5.
Proof.
  assert (Hf : setPosition (mkVector3 (- 56.5) 0 (- 115 / 2))
                 (createFence 80 3.0) ∈ createSportsPitchFence) by (left).
  assert (Hm : postAt 80 3.0 0
                 ∈ posts (setPosition (mkVector3 (- 56.5) 0 (- 115 / 2))
                            (createFence 80 3.0))).
  { change (posts (setPosition ?p ?g)) with (posts g).
    apply first_post. lra. }
  split; [exact Hf|]. split; [exact Hm|].
  exact (proj1 (proj2 (proj2
           (pitch_fence_runs_along_three_sides _ _ Hf Hm)))).
Defined.

(** ** Sky and sun *)

(** X18: whatever the elevation and the azimuth, [updateSunPosition]
    stores a sun direction of length 1 and puts the directional light at a
    hundred times that direction, so at distance 100 from the origin; the
    other sky uniforms and the exposure are left as they were. *)
Theorem sun_light_follows_the_sun (elevation azimuth : R) (s : Lighting) :
  let s' := updateSunPosition elevation azimuth s in
  let sun := sunPosition (uniforms s') in
  dot sun sun = 1
  /\ sunLight_position s' = vscale 100 sun
  /\ dot (sunLight_position s') (sunLight_position s') = 100 * 100
  /\ turbidity (uniforms s') = turbidity (uniforms s)
  /\ rayleigh (uniforms s') = rayleigh (uniforms s)
  /\ mieCoefficient (uniforms s') = mieCoefficient (uniforms s)
  /\ mieDirectionalG (uniforms s') = mieDirectionalG (uniforms s)
  /\ toneMappingExposure s' = toneMappingExposure s.
Proof.
  intros s' sun. subst s' sun.
  unfold updateSunPosition, setFromSphericalCoords, dot, vscale.
  cbn [uniforms sunPosition sunLight_position turbidity rayleigh
         mieCoefficient mieDirectionalG toneMappingExposure x y z].
  set (phi := degToRad (90 - elevation)). set (theta := degToRad azimuth).
  pose proof (sin2_cos2 phi) as Hp. pose proof (sin2_cos2 theta) as Ht.
  unfold Rsqr in Hp, Ht.
  assert (E : sin phi * 1 * sin theta * (sin phi * 1 * sin theta)
              + cos phi * 1 * (cos phi * 1)
              + sin phi * 1 * cos theta * (sin phi * 1 * cos theta) = 1).
  { replace (sin phi * 1 * sin theta * (sin phi * 1 * sin theta)
             + cos phi * 1 * (cos phi * 1)
             + sin phi * 1 * cos theta * (sin phi * 1 * cos theta))
      with (sin phi * sin phi * (sin theta * sin theta + cos theta * cos theta)
            + cos phi * cos phi) by ring.
    rewrite Ht. lra. }
  split; [exact E|]. split; [f_equal; ring|].
  split; [|repeat split; reflexivity].
  replace (sin phi * 1 * sin theta * 100 * (sin phi * 1 * sin theta * 100)
           + cos phi * 1 * 100 * (cos phi * 1 * 100)
           + sin phi * 1 * cos theta * 100 * (sin phi * 1 * cos theta * 100))
    with (100 * 100
          * (sin phi * 1 * sin theta * (sin phi * 1 * sin theta)
             + cos phi * 1 * (cos phi * 1)
             + sin phi * 1 * cos theta * (sin phi * 1 * cos theta))) by ring.
  rewrite E. ring.
Qed.

Lemma sun_height (elevation azimuth : R) (s : Lighting) :
  y (sunLight_position (updateSunPosition elevation azimuth s))
  = 100 * sin (degToRad elevation).
Proof.
  unfold updateSunPosition, setFromSphericalCoords.
  cbn [sunLight_position y].
  replace (degToRad (90 - elevation)) with (PI / 2 - degToRad elevation)
    by (unfold degToRad; field).
  rewrite cos_shift. ring.
Qed.

(** X19: the light is [100 * sin(elevation in radians)] above the ground
    plane of the scene axes, whatever the azimuth: above it, and at most
    100 up, for an elevation strictly between 0 and 180 degrees, and on it
    or below it for an elevation from -180 to 0 degrees. *)
Theorem sun_is_up_between_0_and_180 (elevation azimuth : R) (s : Lighting) :
  - 180 <= elevation < 180 ->
  let h := y (sunLight_position (updateSunPosition elevation azimuth s)) in
  h = 100 * sin (degToRad elevation)
  /\ (0 < elevation -> 0 < h <= 100)
  /\ (elevation <= 0 -> h <= 0).
Proof.
  intros He h. subst h. rewrite sun_height. pose proof PI_RGT_0 as Hpi.
  split; [reflexivity|]. split.
  - intros Hpos.
    assert (0 < sin (degToRad elevation)).
    { apply sin_gt_0; unfold degToRad.
      - apply Rmult_lt_0_compat; lra.
      - replace PI with (180 * (PI / 180)) at 2 by field.
        apply Rmult_lt_compat_r; lra. }
    pose proof (SIN_bound (degToRad elevation)). lra.
  - intros Hneg.
    assert (sin (degToRad elevation) <= 0).
    { assert (H0 : 0 <= sin (- degToRad elevation)).
      { apply sin_ge_0; unfold degToRad.
        - replace (- (elevation * (PI / 180)))
            with ((- elevation) * (PI / 180)) by ring.
          apply Rmult_le_pos; lra.
        - replace (- (elevation * (PI / 180)))
            with ((- elevation) * (PI / 180)) by ring.
          replace PI with (180 * (PI / 180)) at 2 by field.
          apply Rmult_le_compat_r; lra. }
      rewrite sin_neg in H0. lra. }
    lra.
Qed.

Lemma sun_is_up_between_0_and_180_witness :
  - 180 <= 38 < 180
  /\ y (sunLight_position
          (updateSunPosition 38 40
             (createSky (mkLighting (mkSkyUniforms 0 0 0 0 (mkVector3 0 0 0))
                           (mkVector3 0 0 0) 1))))
     = 100 * sin (degToRad 38).
Proof.
  assert (H : - 180 <= 38 < 180) by lra.
  split; [exact H|].
  exact (proj1 (sun_is_up_between_0_and_180 38 40 _ H)).
Defined.

(** X20: the sun position has the symmetries of spherical coordinates: a
    full turn of the azimuth changes nothing, an elevation of [180 - e] at
    the opposite azimuth is the elevation [e], and at 90 degrees of
    elevation the azimuth does not matter: the light is straight above, at
    (0, 100, 0). *)
Theorem sun_position_symmetries (elevation azimuth : R) (s : Lighting) :
  updateSunPosition elevation (azimuth + 360) s
  = updateSunPosition elevation azimuth s
  /\ updateSunPosition (180 - elevation) (azimuth + 180) s
     = updateSunPosition elevation azimuth s
  /\ sunLight_position (updateSunPosition 90 azimuth s) = mkVector3 0 100 0.
Proof.
  unfold updateSunPosition, setFromSphericalCoords.
  cbn [sunLight_position x y z].
  replace (degToRad (azimuth + 360)) with (degToRad azimuth + 2 * PI)
    by (unfold degToRad; field).
  replace (degToRad (azimuth + 180)) with (degToRad azimuth + PI)
    by (unfold degToRad; field).
  replace (degToRad (90 - (180 - elevation)))
    with (- degToRad (90 - elevation)) by (unfold degToRad; field).
  replace (degToRad (90 - 90)) with 0 by (unfold degToRad; field).
  rewrite (sin_plus _ (2 * PI)), (cos_plus _ (2 * PI)), sin_2PI, cos_2PI.
  rewrite sin_neg, cos_neg, neg_sin, neg_cos, sin_0, cos_0.
  split; [|split].
  - f_equal; [f_equal|]; f_equal; ring.
  - f_equal; [f_equal|]; f_equal; ring.
  - f_equal; ring.
Qed.

(** ** Containers *)

Lemma under_box (prt : Part) (w h d : R) (mat : Z) (q pos p : Vector3) :
  under (mkPlaced [mkMesh prt (BoxGeom w h d) mat q (mkEuler 0 0 0)]
           pos (mkEuler 0 0 0) 1) p
  <-> x pos + x q - Rabs w / 2 <= x p <= x pos + x q + Rabs w / 2
      /\ z pos + z q - Rabs d / 2 <= z p <= z pos + z q + Rabs d / 2.
Proof.
  split.
  - intros (m & w' & h' & d' & u & t & Hm & Hg & Hu & Ht & Hx & Hz).
    cbn [parts] in Hm.
    apply elem_of_cons in Hm as [-> | Hm];
      [|apply elem_of_nil in Hm; contradiction].
    cbn [geometry] in Hg. injection Hg as <- <- <-.
    cbn [mesh_position] in Hx, Hz.
    unfold vadd at 1 in Hx. unfold vadd at 1 in Hz.
    rewrite toWorld_upright in Hx, Hz. cbn [x y z] in Hx, Hz.
    rewrite cos_0, sin_0 in Hx, Hz. lra.
  - intros [Hx Hz].
    exists (mkMesh prt (BoxGeom w h d) mat q (mkEuler 0 0 0)), w, h, d,
      (x p - x pos - x q), (z p - z pos - z q).
    split; [cbn [parts]; left|]. split; [reflexivity|].
    split; [lra|]. split; [lra|].
    cbn [mesh_position]. unfold vadd.
    rewrite !toWorld_upright. cbn [x y z]. rewrite cos_0, sin_0. lra.
Qed.

(** X22: when the structure is shorter than 99, whichever way its length
    is signed, each container has its centre under it, nothing lies under
    both containers, and whatever lies under one of them lies on the
    container tarmac of [createEnvironment]. *)
Theorem containers_stand_apart_on_their_tarmac (cfg : Config)
    (p : Vector3) :
  Rabs (Structure.length (structure cfg)) < 99 ->
  under (storageContainer cfg) (mkVector3 (- 16) 0 0)
  /\ under (smallContainer cfg) (mkVector3 (- 16) 0 53)
  /\ (under (storageContainer cfg) p -> ~ under (smallContainer cfg) p)
  /\ (under (storageContainer cfg) p \/ under (smallContainer cfg) p ->
      exists e, e ∈ createEnvironment /\ part e = contTarmac /\ covers e p).
Proof.
  intros Hl.
  pose proof (Rabs_pos (Structure.length (structure cfg))) as Hpos.
  assert (H8 : Rabs 8 = 8) by (apply Rabs_pos_eq; lra).
  assert (H7 : Rabs 7 = 7) by (apply Rabs_pos_eq; lra).
  assert (Hbig : forall q,
            under (storageContainer cfg) q
            <-> - 20 <= x q <= - 12
                /\ - (Rabs (Structure.length (structure cfg)) / 2) <= z q
                   <= Rabs (Structure.length (structure cfg)) / 2).
  { intros q. etransitivity; [apply under_box|].
    rewrite H8. cbn [x z]. lra. }
  assert (Hsmall : forall q,
            under (smallContainer cfg) q
            <-> - 20 <= x q <= - 12 /\ 49.5 <= z q <= 56.5).
  { intros q.
    unfold smallContainer, createContainer, smallContainerLength.
    destruct (Req_dec_T 7 0) as [E|_]; [lra|].
    etransitivity; [apply under_box|].
    rewrite H8, H7. cbn [x z]. lra. }
  split; [apply Hbig; cbn [x z]; lra|].
  split; [apply Hsmall; cbn [x z]; lra|].
  split.
  - intros H1 H2. apply Hbig in H1. apply Hsmall in H2. lra.
  - intros H.
    exists (mkMesh contTarmac (PlaneGeometry 10 108.5) 0xffffff%Z
              (mkVector3 (- 17) 0.05 4.25) (mkEuler (- PI / 2) 0 0)).
    split; [|split; [reflexivity|]].
    + unfold createEnvironment. cbn [app]. right. left.
    + eapply covers_flat_intro; [reflexivity|reflexivity| |];
        cbn [mesh_position x z];
        destruct H as [H | H]; [apply Hbig in H|apply Hsmall in H
                               |apply Hbig in H|apply Hsmall in H]; lra.
Qed.

Lemma containers_stand_apart_on_their_tarmac_witness :
  Rabs (Structure.length (structure CONFIG)) < 99
  /\ under (storageContainer CONFIG) (mkVector3 (- 16) 0 0)
  /\ (under (storageContainer CONFIG) (mkVector3 (- 16) 0 0) ->
      ~ under (smallContainer CONFIG) (mkVector3 (- 16) 0 0)).
Proof.
  assert (H : Rabs (Structure.length (structure CONFIG)) < 99).
  { change (Structure.length (structure CONFIG)) with 96.
    rewrite Rabs_pos_eq; lra. }
  split; [exact H|].
  destruct (containers_stand_apart_on_their_tarmac CONFIG
              (mkVector3 (- 16) 0 0) H) as (Hin & _ & Hapart & _).
  split; [exact Hin|exact Hapart].
Defined.
